(** * image-compressor-aviff: the per-image editing component

    A shallow embedding of [src/components/image-compressor.tsx] (the screen
    with cropping; the screen without cropping is the same code minus the crop
    modal) and the properties of its debounce scheduler, encode pipeline,
    handle lifecycle, crop transform, dimension resolver and size formatter.

    Conventions of the embedding.
    - A JavaScript [number] is an IEEE 754 double: a rational that is a
      binary64 value, or one of the three special values.  Division,
      multiplication and subtraction compute the exact result and round it to
      the nearest double, ties to even ([binary64]).  The sign of zero is not
      modelled.
    - An element of [images] is a JavaScript object: every property of the
      [CompressedImage] interface can be missing on it, because an updater
      that spreads a missing element stores an object that has only the
      properties the updater assigns.
    - React state ([useState]) is the committed value [images]; a handler is a
      closure over the render it was created in, so every handler takes that
      render's [images] as an explicit argument.  [useRef] is state shared by
      all renders.
    - Browser capabilities the component calls (decoding, the canvas, the AVIF
      codec, object URLs, timers) are modelled by their observable results;
      the answers of the fallible ones are supplied per call by a [Browser]
      record. *)

From stdpp Require Import gmap strings list numbers.
From Stdlib Require Import Ascii String QArith Qcanon Qround Qabs Qpower Lqa.
From Stdlib Require Import DecimalString DecimalN DecimalFacts.

Local Open Scope Z_scope.

(** ** JavaScript numbers *)

Inductive number : Type :=
| Num (q : Qc)
| Infinity
| NegInfinity
| NaN.

#[global] Instance number_eq_dec : EqDecision number.
Proof. solve_decision. Defined.

(** An integer as a number.  The integers of the component (pixel sizes, byte
    counts, list positions, the quality) are below [2^53], where every
    integer is a double. *)
Definition of_Z (z : Z) : number := Num (Q2Qc (inject_Z z)).
Definition of_N (n : N) : number := of_Z (Z.of_N n).

(** [2^k], and 1 for a negative [k]. *)
Definition pow2 (k : Z) : Z := 2 ^ Z.max 0 k.

(** [n / d] rounded to the nearest integer, a tie to the even one. *)
Definition round_half_even (n d : Z) : Z :=
  let f := n / d in
  let r := n mod d in
  if bool_decide (2 * r < d) then f
  else if bool_decide (d < 2 * r) then f + 1
  else if Z.even f then f else f + 1.

(** The [e] with [2^e <= n / d < 2^(e+1)], for positive [n] and [d]. *)
Definition floor_log2 (n d : Z) : Z :=
  let e := Z.log2 n - Z.log2 d in
  if bool_decide (d * pow2 e ≤ n * pow2 (- e)) then e else e - 1.

(** The double nearest to [q], a tie going to the even significand: [q] is
    scaled so that its integer part has the 53 bits of a significand (fewer
    below [2^-1022], where doubles are spaced [2^-1074] apart), rounded, and
    scaled back; from [2^1024] on the result is an infinity.  The fraction
    is reduced before it is made a [Qc], so that equal doubles are equal
    terms. *)
Definition binary64 (q : Qc) : number :=
  let n := Z.abs (Qnum q) in
  let d := Z.pos (Qden q) in
  if bool_decide (n = 0) then Num 0%Qc
  else
    let e := floor_log2 n d in
    let s := Z.max e (-1022) - 52 in
    let m := round_half_even (n * pow2 (- s)) (d * pow2 s) in
    if bool_decide (2 ^ 1024 * pow2 (- s) ≤ m * pow2 s) then
      if bool_decide (0 < Qnum q) then Infinity else NegInfinity
    else Num (Q2Qc (Qred (Qmake (Z.sgn (Qnum q) * m * pow2 s) (Z.to_pos (pow2 (- s)))))).

(** [ToBoolean] on a number: [0] and [NaN] are falsy. *)
Definition truthy (x : number) : bool :=
  match x with
  | Num q => negb (bool_decide (q = 0%Qc))
  | Infinity | NegInfinity => true
  | NaN => false
  end.

(** [x / y]. *)
Definition js_div (x y : number) : number :=
  match x, y with
  | NaN, _ | _, NaN => NaN
  | Num a, Num b =>
      if bool_decide (b = 0%Qc) then
        if bool_decide (a = 0%Qc) then NaN
        else if bool_decide (0 < a)%Qc then Infinity else NegInfinity
      else binary64 (a / b)%Qc
  | Num _, (Infinity | NegInfinity) => Num 0%Qc
  | Infinity, Num b => if bool_decide (b < 0)%Qc then NegInfinity else Infinity
  | NegInfinity, Num b => if bool_decide (b < 0)%Qc then Infinity else NegInfinity
  | (Infinity | NegInfinity), (Infinity | NegInfinity) => NaN
  end.

(** [x * y]. *)
Definition js_mul (x y : number) : number :=
  let inf_times (neg : bool) (b : Qc) :=
    if bool_decide (b = 0%Qc) then NaN
    else if xorb neg (bool_decide (b < 0)%Qc) then NegInfinity else Infinity in
  match x, y with
  | NaN, _ | _, NaN => NaN
  | Num a, Num b => binary64 (a * b)%Qc
  | Infinity, Num b | Num b, Infinity => inf_times false b
  | NegInfinity, Num b | Num b, NegInfinity => inf_times true b
  | Infinity, Infinity | NegInfinity, NegInfinity => Infinity
  | Infinity, NegInfinity | NegInfinity, Infinity => NegInfinity
  end.

(** [x - y]. *)
Definition js_sub (x y : number) : number :=
  match x, y with
  | NaN, _ | _, NaN => NaN
  | Num a, Num b => binary64 (a - b)%Qc
  | Num _, Infinity => NegInfinity
  | Num _, NegInfinity => Infinity
  | Infinity, Infinity | NegInfinity, NegInfinity => NaN
  | Infinity, _ => Infinity
  | NegInfinity, _ => NegInfinity
  end.

(** [Math.round]: the nearest integer, a tie going towards +Infinity.  The
    result is exact: it is a double whenever the argument is. *)
Definition Math_round (x : number) : number :=
  match x with
  | Num q => of_Z (Qfloor (q + Q2Qc (1 # 2))%Qc)
  | _ => x
  end.

(** ** Strings *)

Definition is_white_space (c : ascii) : bool :=
  let n := nat_of_ascii c in
  bool_decide (n = 32%nat ∨ (9 ≤ n ≤ 13)%nat).

Fixpoint trim_start (s : string) : string :=
  match s with
  | String c rest => if is_white_space c then trim_start rest else s
  | EmptyString => s
  end.

(** The value of [c] as a digit of the given radix, if it is one. *)
Definition digit_value (radix : Z) (c : ascii) : option Z :=
  let n := Z.of_nat (nat_of_ascii c) in
  let v :=
    if bool_decide (48 ≤ n ≤ 57) then Some (n - 48)
    else if bool_decide (97 ≤ n ≤ 122) then Some (n - 87)
    else if bool_decide (65 ≤ n ≤ 90) then Some (n - 55)
    else None in
  match v with
  | Some d => if bool_decide (d < radix) then Some d else None
  | None => None
  end.

(** The longest prefix of [s] made of digits, read in the given radix; [acc]
    is the value of the digits read so far, [None] before the first one. *)
Fixpoint parse_digits (radix : Z) (s : string) (acc : option Z) : option Z :=
  match s with
  | String c rest =>
      match digit_value radix c with
      | Some d => parse_digits radix rest (Some (default 0 acc * radix + d))
      | None => acc
      end
  | EmptyString => acc
  end.

(** [Number.parseInt(s)], no radix given: the integer the digits denote, as a
    double. *)
Definition parseInt (s : string) : number :=
  let s := trim_start s in
  let '(sign, s) :=
    match s with
    | String "-"%char rest => (-1, rest)
    | String "+"%char rest => (1, rest)
    | _ => (1, s)
    end in
  let '(radix, s) :=
    match s with
    | String "0"%char (String "x"%char rest)
    | String "0"%char (String "X"%char rest) => (16, rest)
    | _ => (10, s)
    end in
  match parse_digits radix s None with
  | Some n => binary64 (Q2Qc (inject_Z (sign * n)))
  | None => NaN
  end.

(** The decimal digits of [num / den] after the point, trailing zeros left
    out: long division, [fuel] digits at most. *)
Fixpoint fraction_digits (fuel : nat) (num den : Z) : string :=
  match fuel with
  | O => EmptyString
  | S fuel =>
      if bool_decide (num = 0) then EmptyString
      else
        String (ascii_of_nat (Z.to_nat (48 + 10 * num / den)))
               (fraction_digits fuel (10 * num mod den) den)
  end.

(** The decimal expansion of a non-negative rational, [fuel] digits after the
    point at most. *)
Definition decimal_expansion (fuel : nat) (n d : Z) : string :=
  let int_part := NilZero.string_of_uint (N.to_uint (Z.to_N (n / d))) in
  let frac := fraction_digits fuel (n mod d) d in
  (int_part +:+ (if bool_decide (frac = EmptyString) then "" else "." +:+ frac))%string.

(** The [e] with [10^e <= n / d < 10^(e+1)], for positive [n] and [d],
    searched downwards from [e]. *)
Fixpoint floor_log10_from (fuel : nat) (e n d : Z) : Z :=
  match fuel with
  | O => e
  | S fuel =>
      if bool_decide (d * 10 ^ Z.max 0 e ≤ n * 10 ^ Z.max 0 (- e)) then e
      else floor_log10_from fuel (e - 1) n d
  end.

Definition floor_log10 (n d : Z) : Z :=
  floor_log10_from 1100 (Z.max 0 (Z.log2 n - Z.log2 d + 1)) n d.

(** The decimal with [k] significant digits, of [n / d] with decimal exponent
    [e], that [Number::toString] looks for: one of the two neighbours of
    [n / d] that reads back as [x], the closer one if both do (the even one
    at a tie).  The decimal is returned as a fraction. *)
Definition digits_candidate (x : number) (n d e : Z) (k : Z) : option (Z * Z) :=
  let t := k - 1 - e in                         (* the decimal is s / 10^t *)
  let num := n * 10 ^ Z.max 0 t in
  let den := d * 10 ^ Z.max 0 (- t) in
  let lo := num / den in
  let reads (s : Z) :=
    bool_decide (binary64 (Q2Qc (Qmake (s * 10 ^ Z.max 0 (- t)) (Z.to_pos (10 ^ Z.max 0 t)))) = x) in
  let r := num mod den in
  let lo_first := bool_decide (2 * r < den) || (bool_decide (2 * r = den) && Z.even lo) in
  let fraction (s : Z) := Some (s * 10 ^ Z.max 0 (- t), 10 ^ Z.max 0 t) in
  if lo_first then
    if reads lo then fraction lo else if reads (lo + 1) then fraction (lo + 1) else None
  else
    if reads (lo + 1) then fraction (lo + 1) else if reads lo then fraction lo else None.

(** The shortest decimal that reads back as [x = n / d]. *)
Fixpoint shortest_decimal (fuel : nat) (x : number) (n d e : Z) (k : Z) : option (Z * Z) :=
  match fuel with
  | O => None
  | S fuel =>
      match digits_candidate x n d e k with
      | Some r => Some r
      | None => shortest_decimal fuel x n d e (k + 1)
      end
  end.

(** The digits of a string without the decimal point. *)
Fixpoint without_point (s : string) : string :=
  match s with
  | String c rest => if bool_decide (c = "."%char) then without_point rest
                     else String c (without_point rest)
  | EmptyString => s
  end.

Fixpoint drop_zeros (s : string) : string :=
  match s with
  | String "0"%char rest => drop_zeros rest
  | _ => s
  end.

(** [Number::toString] (radix 10) of a positive [n / d].  An integer is
    printed by its decimal numeral, as JavaScript does below [2^53]; any other
    double by the shortest decimal that reads back as the same double, in
    exponent notation below [10^-6]; a rational that is no double by its
    expansion to twenty places. *)
Definition positive_toString (n d : Z) : string :=
  if bool_decide (d = 1) then NilZero.string_of_uint (N.to_uint (Z.to_N n))
  else
    let e := floor_log10 n d in
    match shortest_decimal 17 (Num (Q2Qc (Qmake n (Z.to_pos d)))) n d e 1 with
    | Some (num, den) =>
        let e := floor_log10 num den in
        if bool_decide (e < -6) then
          let digits := drop_zeros (without_point (decimal_expansion 400 num den)) in
          let exponent := NilZero.string_of_uint (N.to_uint (Z.to_N (- e))) in
          match digits with
          | String c EmptyString => (String c "e-" +:+ exponent)%string
          | String c rest => (String c ("." +:+ rest) +:+ "e-" +:+ exponent)%string
          | EmptyString => digits
          end
        else decimal_expansion 400 num den
    | None => decimal_expansion 20 n d
    end.

(** [Number.prototype.toString]. *)
Definition number_toString (x : number) : string :=
  match x with
  | Num q =>
      ((if bool_decide (Qnum q < 0) then "-" else "")
         +:+ positive_toString (Z.abs (Qnum q)) (Z.pos (Qden q)))%string
  | Infinity => "Infinity"
  | NegInfinity => "-Infinity"
  | NaN => "NaN"
  end.

(** ** Dimensions and the dimension resolver *)

Module Dim.
Record t : Type := mk { width : number; height : number }.
End Dim.

#[global] Instance Dim_eq_dec : EqDecision Dim.t.
Proof. solve_decision. Defined.

(** [ToBoolean] on [number | null] and [number | undefined]. *)
Definition truthy_opt (x : option number) : bool :=
  match x with
  | Some n => truthy n
  | None => false
  end.

(** [s ? Number.parseInt(s) : null]; a missing and an empty string are
    falsy. *)
Definition parse_target (s : option string) : option number :=
  match s with
  | Some s => if bool_decide (s = EmptyString) then None else Some (parseInt s)
  | None => None
  end.

(** ** Blobs, files and what they hold

    The bytes of a blob are not modelled; a blob is described by how it was
    produced.  [Drawing] is the single draw call the component issues on each
    canvas it creates.  The quality handed to the codec is the item's
    [quality] property, which can be missing. *)

Inductive Content : Type :=
| Uploaded (id : nat) (natural : Dim.t)
| Png (canvas_width canvas_height : number) (drawn : Drawing)
| Avif (data_width data_height : number) (drawn : Drawing)
       (quality : option number) (speed : number)
with Drawing : Type :=
| drawImage3 (image : Content) (dx dy : number)
| drawImage5 (image : Content) (dx dy dw dh : number)
| drawImage9 (image : Content) (sx sy sw sh dx dy dw dh : number).

Record Blob : Type := mkBlob {
  blob_content : Content;
  blob_size : N;
  blob_type : string;
}.

Record File : Type := mkFile {
  file_blob : Blob;
  file_name : string;
}.

Definition file_size (f : File) : N := blob_size (file_blob f).
Definition file_type (f : File) : string := blob_type (file_blob f).

(** The pixel size a decoder reports for a content. *)
Definition natural_size (c : Content) : Dim.t :=
  match c with
  | Uploaded _ d => d
  | Png w h _ => Dim.mk w h
  | Avif w h _ _ _ => Dim.mk w h
  end.

(** An [ImageBitmap]: the decoded content and its size. *)
Record ImageBitmap : Type := mkBitmap {
  bitmap_of : Content;
  bitmap_width : number;
  bitmap_height : number;
}.

(** What [ctx.getImageData(0, 0, w, h)] returns. *)
Record CanvasImageData : Type := mkImageData {
  data_width : number;
  data_height : number;
  data_drawn : Drawing;
}.

(** The answers of the browser to one asynchronous call of the component. *)
Record Browser : Type := mkBrowser {
  decodable : bool;        (* createImageBitmap resolves *)
  context2d : bool;        (* canvas.getContext("2d") is not null *)
  encoded : option N;      (* the length of the codec's output; None: it rejects *)
  png : option N;          (* the length of canvas.toBlob's PNG; None: a null blob *)
}.

Inductive EncodeError : Type :=
| DecodeFailure          (* createImageBitmap rejected *)
| NoCanvasContext        (* new Error("No se pudo obtener el contexto del canvas") *)
| CodecFailure.          (* encode rejected *)

Definition createImageBitmap (b : Browser) (blob : Blob) : option ImageBitmap :=
  if decodable b then
    let d := natural_size (blob_content blob) in
    Some (mkBitmap (blob_content blob) (Dim.width d) (Dim.height d))
  else None.

(** ** Items *)

Definition URL : Type := nat.

(** An object of the [images] array.  [None] is a property the object does
    not have (or has as [undefined]): the optional ones of the interface, and
    on an object built by spreading a missing element the required ones as
    well. *)
Record CompressedImage : Type := mkImage {
  file : option File;
  preview : option URL;
  compressedPreview : option URL;
  compressed : option Blob;
  originalSize : option N;
  compressedSize : option N;
  processing : option bool;
  dimensions : option Dim.t;
  quality : option number;
  width : option string;
  height : option string;
}.

(** What [[...prev]] holds at a position: an object, or [undefined] (also
    where the array has a hole). *)
Inductive Entry : Type :=
| Object (img : CompressedImage)
| Undefined.

(** [{ ...undefined }] *)
Definition empty_object : CompressedImage :=
  mkImage None None None None None None None None None None None.

(** [{ ...e }] *)
Definition spread (e : option Entry) : CompressedImage :=
  match e with
  | Some (Object img) => img
  | Some Undefined | None => empty_object
  end.

(** [newImages[index] = e]: an index past the end lengthens the array, the
    positions in between are holes. *)
Definition store (index : nat) (e : Entry) (l : list Entry) : list Entry :=
  if bool_decide (index < List.length l)%nat then <[index := e]> l
  else l ++ replicate (index - List.length l) Undefined ++ [e].

(** [{ ...img, processing: p }] *)
Definition with_processing (p : bool) (img : CompressedImage) : CompressedImage :=
  mkImage (file img) (preview img) (compressedPreview img) (compressed img)
          (originalSize img) (compressedSize img) (Some p) (dimensions img)
          (quality img) (width img) (height img).

(** [{ ...img, quality: value }] *)
Definition with_quality (value : number) (img : CompressedImage) : CompressedImage :=
  mkImage (file img) (preview img) (compressedPreview img) (compressed img)
          (originalSize img) (compressedSize img) (processing img) (dimensions img)
          (Some value) (width img) (height img).

(** [{ ...img, width: value }] *)
Definition with_width (value : string) (img : CompressedImage) : CompressedImage :=
  mkImage (file img) (preview img) (compressedPreview img) (compressed img)
          (originalSize img) (compressedSize img) (processing img) (dimensions img)
          (quality img) (Some value) (height img).

(** [{ ...img, height: value }] *)
Definition with_height (value : string) (img : CompressedImage) : CompressedImage :=
  mkImage (file img) (preview img) (compressedPreview img) (compressed img)
          (originalSize img) (compressedSize img) (processing img) (dimensions img)
          (quality img) (width img) (Some value).

(** [{ ...img, compressedPreview, compressedSize: blob.size, processing: false }] *)
Definition with_preview (url : URL) (blob : Blob) (img : CompressedImage) : CompressedImage :=
  mkImage (file img) (preview img) (Some url) (compressed img)
          (originalSize img) (Some (blob_size blob)) (Some false) (dimensions img)
          (quality img) (width img) (height img).

(** [{ ...img, compressed: blob, compressedSize: blob.size, compressedPreview,
       processing: false }] *)
Definition with_compressed (url : URL) (blob : Blob) (img : CompressedImage) : CompressedImage :=
  mkImage (file img) (preview img) (Some url) (Some blob)
          (originalSize img) (Some (blob_size blob)) (Some false) (dimensions img)
          (quality img) (width img) (height img).

(** [{ ...img, file, preview: newPreview, originalSize: blob.size, dimensions,
       compressedPreview: undefined, compressed: undefined,
       compressedSize: undefined }] *)
Definition with_crop (f : File) (newPreview : URL) (blob : Blob) (d : Dim.t)
    (img : CompressedImage) : CompressedImage :=
  mkImage (Some f) (Some newPreview) None None
          (Some (blob_size blob)) None (processing img) (Some d)
          (quality img) (width img) (height img).

(** The item [handleDrop] and [handleFileInput] build for a file. *)
Definition new_image (f : File) (url : URL) (d : Dim.t) : CompressedImage :=
  mkImage (Some f) (Some url) None None (Some (file_size f)) None None (Some d)
          (Some (of_Z 75)) (Some ""%string) (Some ""%string).

(** ** The dimension resolver *)

Definition calculateFinalDimensions (img : CompressedImage) : option Dim.t :=
  match dimensions img with
  | None => None
  | Some dims =>
      let targetWidth := parse_target (width img) in
      let targetHeight := parse_target (height img) in
      if negb (truthy_opt targetWidth) && negb (truthy_opt targetHeight) then Some dims
      else if truthy_opt targetWidth && truthy_opt targetHeight then
        Some (Dim.mk (default NaN targetWidth) (default NaN targetHeight))
      else
        let aspectRatio := js_div (Dim.width dims) (Dim.height dims) in
        if truthy_opt targetWidth then
          let tw := default NaN targetWidth in
          Some (Dim.mk tw (Math_round (js_div tw aspectRatio)))
        else if truthy_opt targetHeight then
          let th := default NaN targetHeight in
          Some (Dim.mk (Math_round (js_mul th aspectRatio)) th)
        else Some dims
  end.

(** ** The size formatter *)

(** [Math.floor(Math.log(bytes) / Math.log(k))] in exact arithmetic, for
    [bytes >= 1] and [k >= 2]: how often [bytes] can be divided by [k]. *)
Fixpoint floor_log_fuel (fuel : nat) (k bytes : N) : nat :=
  match fuel with
  | O => O
  | S fuel =>
      if bool_decide (bytes < k)%N then O
      else S (floor_log_fuel fuel k (bytes / k)%N)
  end.

Definition floor_log (k bytes : N) : nat :=
  floor_log_fuel (N.to_nat (N.size bytes)) k bytes.

Definition sizes : list string := ["Bytes"; "KB"; "MB"]%string.

(** [x + " " + sizes[i]]: a missing element is [undefined]. *)
Definition unit_suffix (i : nat) : string :=
  match sizes !! i with
  | Some s => s
  | None => "undefined"
  end.

Definition formatSize (bytes : N) : string :=
  if bool_decide (bytes = 0%N) then "0 Bytes"
  else
    let k := 1024%N in
    let i := floor_log k bytes in
    let scaled := js_div (of_N bytes) (of_N (k ^ N.of_nat i)) in
    (number_toString (js_div (Math_round (js_mul scaled (of_Z 100))) (of_Z 100))
       +:+ " " +:+ unit_suffix i)%string.

(** ** The encode pipeline *)

(** [compressImageWithJSquash(file, targetQuality, targetWidth, targetHeight,
    isPreview)]: [inl] is the rejection of the promise.  The callers pass
    [img.file] and [img.quality]; [createImageBitmap(undefined)] rejects. *)
Definition compressImageWithJSquash (b : Browser) (file : option File)
    (targetQuality : option number) (targetWidth targetHeight : option number)
    (isPreview : bool) : EncodeError + Blob * Dim.t :=
  match file ≫= (λ file, createImageBitmap b (file_blob file)) with
  | None => inl DecodeFailure
  | Some img =>
      let '(finalWidth, finalHeight, drawn) :=
        if truthy_opt targetWidth || truthy_opt targetHeight then
          let '(finalWidth, finalHeight) :=
            if truthy_opt targetWidth && truthy_opt targetHeight then
              (default NaN targetWidth, default NaN targetHeight)
            else if truthy_opt targetWidth then
              let tw := default NaN targetWidth in
              (tw, Math_round (js_mul (js_div (bitmap_height img) (bitmap_width img)) tw))
            else
              let th := default NaN targetHeight in
              (Math_round (js_mul (js_div (bitmap_width img) (bitmap_height img)) th), th) in
          (finalWidth, finalHeight,
           drawImage5 (bitmap_of img) (of_Z 0) (of_Z 0) finalWidth finalHeight)
        else
          (bitmap_width img, bitmap_height img,
           drawImage3 (bitmap_of img) (of_Z 0) (of_Z 0)) in
      if negb (context2d b) then inl NoCanvasContext
      else
        let imageData := mkImageData finalWidth finalHeight drawn in
        match encoded b with
        | None => inl CodecFailure
        | Some n =>
            let speed := if isPreview then of_Z 8 else of_Z 4 in
            let avif := Avif (data_width imageData) (data_height imageData)
                             (data_drawn imageData) targetQuality speed in
            inr (mkBlob avif n "image/avif", Dim.mk finalWidth finalHeight)
        end
  end.

(** ** The crop transform *)

(** react-easy-crop's [Area]. *)
Record Area : Type := mkArea {
  area_x : number;
  area_y : number;
  area_width : number;
  area_height : number;
}.

Inductive CropError : Type :=
| FetchFailed            (* fetch(imageSrc) gave no image: the URL is not live *)
| CropDecodeFailure      (* createImageBitmap rejected *)
| CropNoCanvasContext    (* new Error("No se pudo obtener el contexto del canvas") *)
| CropNoBlob.            (* new Error("Error al crear la imagen recortada") *)

(** [createCroppedImage(imageSrc, croppedAreaPixels)]; [fetched] is what
    [fetch(imageSrc)] resolved to. *)
Definition createCroppedImage (b : Browser) (fetched : option Blob)
    (croppedAreaPixels : Area) : CropError + File * Blob :=
  match fetched with
  | None => inl FetchFailed
  | Some source =>
      match createImageBitmap b source with
      | None => inl CropDecodeFailure
      | Some image =>
          if negb (context2d b) then inl CropNoCanvasContext
          else
            let canvas_width := area_width croppedAreaPixels in
            let canvas_height := area_height croppedAreaPixels in
            let drawn :=
              drawImage9 (bitmap_of image)
                (area_x croppedAreaPixels) (area_y croppedAreaPixels)
                (area_width croppedAreaPixels) (area_height croppedAreaPixels)
                (of_Z 0) (of_Z 0)
                (area_width croppedAreaPixels) (area_height croppedAreaPixels) in
            match png b with
            | None => inl CropNoBlob
            | Some n =>
                let blob := mkBlob (Png canvas_width canvas_height drawn) n "image/png" in
                let file := mkFile (mkBlob (blob_content blob) (blob_size blob) "image/png")
                                   "cropped-image.png" in
                inr (file, blob)
            end
      end
  end.

(** ** The component's state *)

(** A pending [setTimeout(() => { updatePreview(index) }, 1500)]: the
    callback calls the [updatePreview] of the render that armed it, which
    reads that render's [images]. *)
Record Timeout : Type := mkTimeout {
  timeout_id : nat;
  timeout_deadline : nat;
  timeout_index : nat;
  timeout_render : list Entry;
}.

(** An asynchronous call suspended at an [await]. *)
Inductive Task : Type :=
| IngestTask (newImages : list CompressedImage)
| PreviewTask (index : nat) (img : CompressedImage)
| CompressTask (index : nat) (img : CompressedImage)
| CropTask (currentCropIndex : nat) (fetched : option Blob) (croppedAreaPixels : Area).

Inductive Description : Type :=
| Text (s : string)
| MessageOf (e : EncodeError).     (* error.message *)

Record Toast : Type := mkToast {
  toast_title : string;
  toast_description : Description;
  toast_destructive : bool;
}.

Inductive ConsoleError : Type :=
| ErrorAlComprimir (e : EncodeError)
| ErrorEnPreview (e : EncodeError)
| ErrorAlRecortar (e : CropError).

(** A state updater that threw: it read a property of [newImages[index]],
    which is undefined.  The state keeps the array it had. *)
Inductive Fault : Type :=
| TypeErrorInUpdater.

Record World : Type := mkWorld {
  images : list Entry;                        (* useState *)
  previewTimeoutRefs : gmap nat nat;          (* useRef(new Map()): index to timer id *)
  cropModalOpen : bool;                       (* useState *)
  currentCropIndex : option nat;              (* useState *)
  croppedAreaPixels : option Area;            (* cropState.croppedAreaPixels *)
  timeouts : list Timeout;                    (* the browser's pending timers *)
  nextTimeout : nat;
  clock : nat;                                (* milliseconds *)
  objectURLs : list (option Blob);            (* entry [u]: the blob behind URL [u], None once revoked *)
  inflight : list Task;
  toasts : list Toast;
  console : list ConsoleError;
  fault : option Fault;
}.

Definition set_images (l : list Entry) (w : World) : World :=
  mkWorld l (previewTimeoutRefs w) (cropModalOpen w) (currentCropIndex w)
          (croppedAreaPixels w) (timeouts w) (nextTimeout w) (clock w)
          (objectURLs w) (inflight w) (toasts w) (console w) (fault w).

Definition set_previewTimeoutRefs (m : gmap nat nat) (w : World) : World :=
  mkWorld (images w) m (cropModalOpen w) (currentCropIndex w)
          (croppedAreaPixels w) (timeouts w) (nextTimeout w) (clock w)
          (objectURLs w) (inflight w) (toasts w) (console w) (fault w).

Definition set_crop_modal (open : bool) (index : option nat) (area : option Area)
    (w : World) : World :=
  mkWorld (images w) (previewTimeoutRefs w) open index area
          (timeouts w) (nextTimeout w) (clock w)
          (objectURLs w) (inflight w) (toasts w) (console w) (fault w).

Definition set_timeouts (l : list Timeout) (next : nat) (w : World) : World :=
  mkWorld (images w) (previewTimeoutRefs w) (cropModalOpen w) (currentCropIndex w)
          (croppedAreaPixels w) l next (clock w)
          (objectURLs w) (inflight w) (toasts w) (console w) (fault w).

Definition set_clock (t : nat) (w : World) : World :=
  mkWorld (images w) (previewTimeoutRefs w) (cropModalOpen w) (currentCropIndex w)
          (croppedAreaPixels w) (timeouts w) (nextTimeout w) t
          (objectURLs w) (inflight w) (toasts w) (console w) (fault w).

Definition set_objectURLs (l : list (option Blob)) (w : World) : World :=
  mkWorld (images w) (previewTimeoutRefs w) (cropModalOpen w) (currentCropIndex w)
          (croppedAreaPixels w) (timeouts w) (nextTimeout w) (clock w)
          l (inflight w) (toasts w) (console w) (fault w).

Definition set_inflight (l : list Task) (w : World) : World :=
  mkWorld (images w) (previewTimeoutRefs w) (cropModalOpen w) (currentCropIndex w)
          (croppedAreaPixels w) (timeouts w) (nextTimeout w) (clock w)
          (objectURLs w) l (toasts w) (console w) (fault w).

Definition toast (t : Toast) (w : World) : World :=
  mkWorld (images w) (previewTimeoutRefs w) (cropModalOpen w) (currentCropIndex w)
          (croppedAreaPixels w) (timeouts w) (nextTimeout w) (clock w)
          (objectURLs w) (inflight w) (toasts w ++ [t]) (console w) (fault w).

Definition console_error (e : ConsoleError) (w : World) : World :=
  mkWorld (images w) (previewTimeoutRefs w) (cropModalOpen w) (currentCropIndex w)
          (croppedAreaPixels w) (timeouts w) (nextTimeout w) (clock w)
          (objectURLs w) (inflight w) (toasts w) (console w ++ [e]) (fault w).

Definition raise (f : Fault) (w : World) : World :=
  mkWorld (images w) (previewTimeoutRefs w) (cropModalOpen w) (currentCropIndex w)
          (croppedAreaPixels w) (timeouts w) (nextTimeout w) (clock w)
          (objectURLs w) (inflight w) (toasts w) (console w)
          (match fault w with Some f0 => Some f0 | None => Some f end).

Definition spawn (t : Task) (w : World) : World :=
  set_inflight (inflight w ++ [t]) w.

(** *** Object URLs *)

Definition createObjectURL (blob : Blob) (w : World) : URL * World :=
  (List.length (objectURLs w), set_objectURLs (objectURLs w ++ [Some blob]) w).

Definition revokeObjectURL (url : URL) (w : World) : World :=
  set_objectURLs (<[url := None]> (objectURLs w)) w.

(** [URL.revokeObjectURL(u)] for a property [u] that can be missing: nothing
    is registered under [undefined]. *)
Definition revoke (u : option URL) (w : World) : World :=
  match u with
  | Some url => revokeObjectURL url w
  | None => w
  end.

(** What [fetch(url)] resolves to; [None]: it gives no blob of the store. *)
Definition fetch (url : URL) (w : World) : option Blob :=
  mjoin (objectURLs w !! url).

Definition live (url : URL) (w : World) : bool :=
  bool_decide (is_Some (fetch url w)).

(** [getImageDimensions(file)]: the object URL it creates is never revoked. *)
Definition getImageDimensions (f : File) (w : World) : Dim.t * World :=
  (natural_size (blob_content (file_blob f)), snd (createObjectURL (file_blob f) w)).

(** *** Timers *)

Definition setTimeout (index : nat) (render : list Entry) (delay : nat)
    (w : World) : nat * World :=
  let id := nextTimeout w in
  (id, set_timeouts (timeouts w ++ [mkTimeout id (clock w + delay) index render])
                    (S id) w).

Definition clearTimeout (id : nat) (w : World) : World :=
  set_timeouts (filter (λ t, timeout_id t ≠ id) (timeouts w)) (nextTimeout w) w.

(** *** State updaters *)

(** [setImages(prev => { const newImages = [...prev];
      newImages[index] = { ...newImages[index], ...change }; return newImages })]:
    where [prev] has no object at [index], the object stored has the
    properties of [change] only. *)
Definition update_item (index : nat) (change : CompressedImage → CompressedImage)
    (w : World) : World :=
  set_images (store index (Object (change (spread (images w !! index)))) (images w)) w.

(** The updater of a finished encode: the previous occupant of the preview
    slot is revoked, then the item is replaced.  It reads
    [newImages[index].compressedPreview] first, which throws where there is
    no object. *)
Definition assign_preview (index : nat) (change : CompressedImage → CompressedImage)
    (w : World) : World :=
  match images w !! index with
  | Some (Object img) =>
      let w := revoke (compressedPreview img) w in
      set_images (<[index := Object (change img)]> (images w)) w
  | Some Undefined | None => raise TypeErrorInUpdater w
  end.

(** ** The handlers

    A handler that reads [images] takes the [images] of the render that
    created it as [render]; the updaters it passes to [setImages] act on the
    committed state of the world.  An asynchronous handler is split at its
    [await]: the first part spawns a task, [settle_task] resumes it. *)

(** [files.map(async (file) => ({ file, preview: URL.createObjectURL(file),
      originalSize: file.size, dimensions: await getImageDimensions(file),
      quality: 75, width: "", height: "" }))], up to the [await]s. *)
Fixpoint build_images (files : list File) (w : World) : list CompressedImage * World :=
  match files with
  | [] => ([], w)
  | f :: rest =>
      let '(url, w) := createObjectURL (file_blob f) w in
      let '(d, w) := getImageDimensions f w in
      let '(imgs, w) := build_images rest w in
      (new_image f url d :: imgs, w)
  end.

Definition handleFileInput (files : list File) (w : World) : World :=
  let '(newImages, w) := build_images files w in
  spawn (IngestTask newImages) w.

Definition handleDrop (dropped : list File) (w : World) : World :=
  let files := List.filter (λ f, String.prefix "image/" (file_type f)) dropped in
  match files with
  | [] => toast (mkToast "Error" (Text "Por favor, sube solo archivos de imagen") true) w
  | _ => handleFileInput files w
  end.

Definition removeImage (index : nat) (w : World) : World :=
  match images w !! index with
  | Some (Object img) =>
      let w := revoke (preview img) w in
      let w := revoke (compressedPreview img) w in
      set_images (delete index (images w)) w
  | Some Undefined | None => raise TypeErrorInUpdater w
  end.

(** [const img = images[index]; if (!img) return] *)
Definition compressImage (render : list Entry) (index : nat) (w : World) : World :=
  match render !! index with
  | Some (Object img) =>
      spawn (CompressTask index img) (update_item index (with_processing true) w)
  | Some Undefined | None => w
  end.

(** [compressImage] from its [await] on: the [try] block's rest, or [catch]. *)
Definition compressImage_resume (b : Browser) (index : nat) (img : CompressedImage)
    (w : World) : World :=
  let targetWidth := parse_target (width img) in
  let targetHeight := parse_target (height img) in
  match compressImageWithJSquash b (file img) (quality img) targetWidth targetHeight false with
  | inr (blob, _) =>
      let '(compressedPreview, w) := createObjectURL blob w in
      let w := assign_preview index (with_compressed compressedPreview blob) w in
      toast (mkToast "¡Éxito!" (Text "Imagen comprimida correctamente") false) w
  | inl error =>
      let w := console_error (ErrorAlComprimir error) w in
      let w := toast (mkToast "Error" (MessageOf error) true) w in
      update_item index (with_processing false) w
  end.

Definition updatePreview (render : list Entry) (index : nat) (w : World) : World :=
  match render !! index with
  | Some (Object img) =>
      spawn (PreviewTask index img) (update_item index (with_processing true) w)
  | Some Undefined | None => w
  end.

(** [updatePreview] from its [await] on. *)
Definition updatePreview_resume (b : Browser) (index : nat) (img : CompressedImage)
    (w : World) : World :=
  let targetWidth := parse_target (width img) in
  let targetHeight := parse_target (height img) in
  match compressImageWithJSquash b (file img) (quality img) targetWidth targetHeight true with
  | inr (blob, _) =>
      let '(compressedPreview, w) := createObjectURL blob w in
      assign_preview index (with_preview compressedPreview blob) w
  | inl error =>
      let w := console_error (ErrorEnPreview error) w in
      update_item index (with_processing false) w
  end.

(** The second and third argument of [updateImageSettings]. *)
Inductive Setting : Type :=
| Quality (value : number)
| Width (value : string)
| Height (value : string).

Definition apply_setting (s : Setting) (img : CompressedImage) : CompressedImage :=
  match s with
  | Quality value => with_quality value img
  | Width value => with_width value img
  | Height value => with_height value img
  end.

Definition updateImageSettings (render : list Entry) (index : nat) (s : Setting)
    (w : World) : World :=
  let w := update_item index (apply_setting s) w in
  let w := match previewTimeoutRefs w !! index with
           | Some timeoutId =>
               if bool_decide (timeoutId = 0%nat) then w else clearTimeout timeoutId w
           | None => w
           end in
  let '(newTimeoutId, w) := setTimeout index render 1500 w in
  set_previewTimeoutRefs (<[index := newTimeoutId]> (previewTimeoutRefs w)) w.

Definition openCropModal (index : nat) (w : World) : World :=
  set_crop_modal true (Some index) None w.

(** [onCropComplete] of the cropper. *)
Definition onCropComplete (area : Area) (w : World) : World :=
  set_crop_modal (cropModalOpen w) (currentCropIndex w) (Some area) w.

(** [setCropModalOpen(false)]: the Cancel button and the dialog's close. *)
Definition closeCropModal (w : World) : World :=
  set_crop_modal false (currentCropIndex w) (croppedAreaPixels w) w.

(** [applyCrop] up to its first [await]: the fetch of [img.preview] is
    started; that of a missing preview gives no image. *)
Definition applyCrop (render : list Entry) (w : World) : World :=
  match currentCropIndex w, croppedAreaPixels w with
  | Some index, Some area =>
      match render !! index with
      | Some (Object img) =>
          spawn (CropTask index (preview img ≫= (λ url, fetch url w)) area) w
      | Some Undefined | None => w
      end
  | _, _ => w
  end.

(** The updater of a finished crop. *)
Definition replace_source (index : nat) (f : File) (newPreview : URL) (blob : Blob)
    (d : Dim.t) (w : World) : World :=
  match images w !! index with
  | Some (Object img) =>
      let w := revoke (preview img) w in
      let w := revoke (compressedPreview img) w in
      set_images (<[index := Object (with_crop f newPreview blob d img)]> (images w)) w
  | Some Undefined | None => raise TypeErrorInUpdater w
  end.

(** [applyCrop] from its first [await] on. *)
Definition applyCrop_resume (b : Browser) (index : nat) (fetched : option Blob)
    (area : Area) (w : World) : World :=
  match createCroppedImage b fetched area with
  | inr (f, blob) =>
      let '(newPreview, w) := createObjectURL blob w in
      let '(d, w) := getImageDimensions f w in
      let w := replace_source index f newPreview blob d w in
      let w := set_crop_modal false None (croppedAreaPixels w) w in
      toast (mkToast "¡Éxito!" (Text "Imagen recortada correctamente") false) w
  | inl error =>
      let w := console_error (ErrorAlRecortar error) w in
      toast (mkToast "Error" (Text "Hubo un problema al recortar la imagen") true) w
  end.

Definition settle_task (b : Browser) (t : Task) (w : World) : World :=
  match t with
  | IngestTask newImages => set_images (images w ++ (Object <$> newImages)) w
  | PreviewTask index img => updatePreview_resume b index img w
  | CompressTask index img => compressImage_resume b index img w
  | CropTask index fetched area => applyCrop_resume b index fetched area w
  end.

(** ** Time *)

(** The pending timer to run first: the earliest deadline, the older timer
    on a tie. *)
Fixpoint earliest (l : list Timeout) : option Timeout :=
  match l with
  | [] => None
  | t :: rest =>
      match earliest rest with
      | Some t' =>
          if bool_decide (timeout_deadline t' < timeout_deadline t)%nat
          then Some t' else Some t
      | None => Some t
      end
  end.

Definition fire (t : Timeout) (w : World) : World :=
  updatePreview (timeout_render t) (timeout_index t) (clearTimeout (timeout_id t) w).

Fixpoint run_timers (fuel : nat) (until : nat) (w : World) : World :=
  match fuel with
  | O => w
  | S fuel =>
      match earliest (filter (λ t, timeout_deadline t ≤ until)%nat (timeouts w)) with
      | Some t => run_timers fuel until (fire t w)
      | None => w
      end
  end.

(** [ms] milliseconds pass: every timer due by then runs. *)
Definition elapse (ms : nat) (w : World) : World :=
  let until := (clock w + ms)%nat in
  set_clock until (run_timers (List.length (timeouts w)) until w).

(** ** Events

    What the rendering layer and the browser can make the component do.  The
    rendering layer calls the handlers of the latest render, and only through
    the controls that render shows and enables: a card, with its controls, is
    rendered for every object of [images].  A position without an object
    gives no card: [images.map] skips a hole, and rendering an [undefined]
    element throws.  The model lets the cards of the objects go on after
    that, so the statements on all runs cover more runs than a browser
    shows. *)

Inductive Event : Type :=
| SelectFiles (files : list File)
| DropFiles (files : list File)
| ClickRemove (index : nat)
| ClickCompress (index : nat)
| ChangeSetting (index : nat) (s : Setting)
| ClickCrop (index : nat)
| CropComplete (area : Area)
| ClickCancelCrop
| ClickApplyCrop
| Elapse (ms : nat)
| Settle (k : nat) (b : Browser).

(** [disabled={img.processing}] *)
Definition is_processing (img : CompressedImage) : bool :=
  default false (processing img).

(** The Compress button is shown for [!img.compressed], enabled unless
    [img.processing]. *)
Definition can_compress (img : CompressedImage) : bool :=
  negb (bool_decide (is_Some (compressed img))) && negb (is_processing img).

Definition step (e : Event) (w : World) : World :=
  match e with
  | SelectFiles files => handleFileInput files w
  | DropFiles files => handleDrop files w
  | ClickRemove index =>
      match images w !! index with
      | Some (Object _) => removeImage index w
      | _ => w
      end
  | ClickCompress index =>
      match images w !! index with
      | Some (Object img) => if can_compress img then compressImage (images w) index w else w
      | _ => w
      end
  | ChangeSetting index s =>
      match images w !! index with
      | Some (Object _) => updateImageSettings (images w) index s w
      | _ => w
      end
  | ClickCrop index =>
      match images w !! index with
      | Some (Object img) => if is_processing img then w else openCropModal index w
      | _ => w
      end
  | CropComplete area =>
      match cropModalOpen w, currentCropIndex w with
      | true, Some index =>
          match images w !! index with
          | Some (Object _) => onCropComplete area w
          | _ => w
          end
      | _, _ => w
      end
  | ClickCancelCrop => if cropModalOpen w then closeCropModal w else w
  | ClickApplyCrop => if cropModalOpen w then applyCrop (images w) w else w
  | Elapse ms => elapse ms w
  | Settle k b =>
      match inflight w !! k with
      | Some t => settle_task b t (set_inflight (delete k (inflight w)) w)
      | None => w
      end
  end.

Definition run (events : list Event) (w : World) : World :=
  foldl (λ w e, step e w) w events.

Definition initial : World :=
  mkWorld [] ∅ false None None [] 1 0 [] [] [] [] None.

(** ** The download handler *)

(** The click on the anchor [downloadImage] builds: what its [href]
    resolves to at that moment, and its [download] attribute. *)
Record Download : Type := mkDownload {
  download_href : option Blob;
  download_name : string;
}.

(** [`compressed-${index + 1}.avif`]; [index] is a position of an array, where
    the sum is exact. *)
Definition download_filename (index : nat) : string :=
  ("compressed-" +:+ number_toString (of_Z (Z.of_nat index + 1)) +:+ ".avif")%string.

(** [downloadImage(img, index)] *)
Definition downloadImage (img : CompressedImage) (index : nat) (w : World)
    : option Download * World :=
  match compressed img with
  | None => (None, w)
  | Some blob =>
      let '(url, w) := createObjectURL blob w in
      let click := mkDownload (fetch url w) (download_filename index) in
      (Some click, revokeObjectURL url w)
  end.

(** ** The size rows of a card *)

(** A byte count that can be missing, as a number: [undefined] in arithmetic
    is [NaN]. *)
Definition size_number (n : option N) : number :=
  match n with
  | Some n => of_N n
  | None => NaN
  end.

(** What [{img.compressedSize && (<> ... </>)}] renders: nothing for
    [undefined], the number itself for [0], and otherwise the two rows with
    [formatSize(img.compressedSize)] and
    [Math.round((1 - img.compressedSize / img.originalSize) * 100)]. *)
Inductive SizeRows : Type :=
| NoRows
| BareZero
| Rows (peso : string) (reduccion : number).

Definition size_rows (img : CompressedImage) : SizeRows :=
  match compressedSize img with
  | None => NoRows
  | Some c =>
      if truthy (of_N c) then
        Rows (formatSize c)
             (Math_round
                (js_mul (js_sub (of_Z 1) (js_div (of_N c) (size_number (originalSize img))))
                        (of_Z 100)))
      else BareZero
  end.

(** ** Vocabulary of the statements *)

Arguments binary64 : simpl never.
Arguments truthy : simpl never.
Arguments of_Z : simpl never.
Arguments js_div : simpl never.
Arguments js_mul : simpl never.
Arguments js_sub : simpl never.
Arguments Math_round : simpl never.
Arguments parse_target : simpl never.
Arguments download_filename : simpl never.
Arguments store : simpl never.

(** *** Rounding *)

(** [(2 n + d) / (2 d)], the floor of [n / d + 1 / 2]. *)
Definition round_div (n d : Z) : Z := (2 * n + d) / (2 * d).

(** [z] is the integer nearest to [n / d], the upper one of two. *)
Definition nearest (z n d : Z) : Prop := - d < 2 * (z * d - n) ≤ d.

(** [z] is an integer nearest to [n / d]: either one of the two when [n / d]
    lies halfway between them. *)
Definition closest (z n d : Z) : Prop := - d ≤ 2 * (z * d - n) ≤ d.

(** [n / d] lies halfway between two integers. *)
Definition halfway (n d : Z) : Prop := (2 * n + d) mod (2 * d) = 0.

(** A pixel count the statements on rounding range over: a positive integer
    below [2^24]. *)
Definition pixels (z : Z) : Prop := 0 < z < 2 ^ 24.

(** Half a unit in the last place, relative to the number rounded: [2^-53]. *)
Definition half_ulp : Q := 1 # 9007199254740992.

(** What two roundings in a row can change: three times [2^-53]. *)
Definition two_roundings : Q := 3 # 9007199254740992.

(** Writes out the powers of two the bounds are stated with. *)
Ltac write_out_powers :=
  change (inject_Z (2 ^ 50)) with (1125899906842624 # 1)%Q in *;
  change (inject_Z (2 ^ 100)) with (1267650600228229401496703205376 # 1)%Q in *;
  change (2 ^ 50)%positive with 1125899906842624%positive in *;
  change (2 ^ 100)%positive with 1267650600228229401496703205376%positive in *.

(** *** Items and targets *)

(** The object at a position of the list, if there is one. *)
Definition object_at (index : nat) (l : list Entry) : option CompressedImage :=
  match l !! index with
  | Some (Object img) => Some img
  | Some Undefined | None => None
  end.

(** The objects of a list: its entries that are not [undefined]. *)
Definition objects (l : list Entry) : list CompressedImage :=
  l ≫= (λ e, match e with Object img => [img] | Undefined => [] end).

(** A target field as the spec has it and within the pixel range: nothing
    given, or a positive integer below [2^24]. *)
Definition target_ok (s : option string) : Prop :=
  parse_target s = None ∨ ∃ t, pixels t ∧ parse_target s = Some (of_Z t).

(** The same item with other original dimensions. *)
Definition with_dimensions (d : option Dim.t) (img : CompressedImage) : CompressedImage :=
  mkImage (file img) (preview img) (compressedPreview img) (compressed img)
          (originalSize img) (compressedSize img) (processing img) d
          (quality img) (width img) (height img).

(** The same item with another file. *)
Definition with_file (f : File) (img : CompressedImage) : CompressedImage :=
  mkImage (Some f) (preview img) (compressedPreview img) (compressed img)
          (originalSize img) (compressedSize img) (processing img) (dimensions img)
          (quality img) (width img) (height img).

(** The call both [updatePreview] and [compressImage] make for an item. *)
Definition encode_result (b : Browser) (img : CompressedImage) (isPreview : bool)
    : EncodeError + Blob * Dim.t :=
  compressImageWithJSquash b (file img) (quality img)
    (parse_target (width img)) (parse_target (height img)) isPreview.


(** The blob an encode task ends with, when it does not fail. *)
Definition task_blob (b : Browser) (t : Task) : option Blob :=
  match t with
  | PreviewTask _ img =>
      match encode_result b img true with
      | inr (blob, _) => Some blob
      | inl _ => None
      end
  | CompressTask _ img =>
      match encode_result b img false with
      | inr (blob, _) => Some blob
      | inl _ => None
      end
  | _ => None
  end.



(** The blob behind the preview the item shows. *)
Definition displayed (index : nat) (w : World) : option Blob :=
  img ← object_at index (images w); url ← compressedPreview img; fetch url w.

(** The error the pipeline raises, for a file, under the answers [b]. *)
Definition failure_of (b : Browser) : EncodeError :=
  if negb (decodable b) then DecodeFailure
  else if negb (context2d b) then NoCanvasContext
  else CodecFailure.

(** The canvas [createCroppedImage] fills: as large as the area, the area of
    the source drawn onto all of it. *)
Definition cropped (source : Content) (area : Area) : Content :=
  Png (area_width area) (area_height area)
      (drawImage9 source (area_x area) (area_y area) (area_width area) (area_height area)
                  (of_Z 0) (of_Z 0) (area_width area) (area_height area)).

(** *** Settings *)

(** A quality the slider ([min={1} max={100} step={1}]) can show. *)
Definition slider_value (q : number) : Prop := ∃ z : Z, q = of_Z z ∧ 1 ≤ z ≤ 100.

(** The quality of the object, if it has one, is a slider value. *)
Definition quality_in_range (img : CompressedImage) : Prop :=
  ∀ q, quality img = Some q → slider_value q.

Definition entry_in_range (e : Entry) : Prop :=
  match e with
  | Object img => quality_in_range img
  | Undefined => True
  end.

Definition task_in_range (t : Task) : Prop :=
  match t with
  | IngestTask newImages => Forall quality_in_range newImages
  | _ => True
  end.

Definition settings_in_range (w : World) : Prop :=
  Forall entry_in_range (images w) ∧ Forall task_in_range (inflight w).

(** What the quality slider can pass. *)
Definition from_slider (e : Event) : Prop :=
  match e with
  | ChangeSetting _ (Quality value) => slider_value value
  | _ => True
  end.

(** The spec's invariant on the requested width and height: no negative
    target. *)
Definition requested_nonnegative (img : CompressedImage) : Prop :=
  ∀ z, parse_target (width img) = Some (of_Z z) ∨ parse_target (height img) = Some (of_Z z) →
       0 ≤ z.

Definition keeps_quality (change : CompressedImage → CompressedImage) : Prop :=
  ∀ img, quality_in_range img → quality_in_range (change img).

(** *** Bursts of edits *)

(** Edits of item [index], each followed by a wait. *)
Definition burst (index : nat) (edits : list (Setting * nat)) : list Event :=
  flat_map (λ e, [ChangeSetting index e.1; Elapse e.2]) edits.

Definition apply_settings (settings : list Setting) (img : CompressedImage)
    : CompressedImage :=
  foldl (λ img s, apply_setting s img) img settings.

(** At most the timer [previewTimeoutRefs] knows for [index] is pending, and
    it is not due. *)
Definition quiet (index : nat) (w : World) : Prop :=
  (0 < nextTimeout w)%nat
  ∧ (timeouts w = []
     ∨ ∃ t, timeouts w = [t]
            ∧ previewTimeoutRefs w !! index = Some (timeout_id t)
            ∧ timeout_id t ≠ 0%nat
            ∧ (clock w < timeout_deadline t)%nat).

(** *** Timer bookkeeping *)

(** The pending timers agree with [previewTimeoutRefs]: every pending timer
    is the one recorded for its index, timer ids are positive, below
    [nextTimeout] and pairwise distinct, and no id is recorded for two
    indices. *)
Definition timers_consistent (w : World) : Prop :=
  (0 < nextTimeout w)%nat
  ∧ (∀ t, t ∈ timeouts w →
       (0 < timeout_id t < nextTimeout w)%nat
       ∧ previewTimeoutRefs w !! timeout_index t = Some (timeout_id t))
  ∧ NoDup (timeout_id <$> timeouts w)
  ∧ (∀ i j id, previewTimeoutRefs w !! i = Some id →
               previewTimeoutRefs w !! j = Some id → i = j)
  ∧ (∀ i id, previewTimeoutRefs w !! i = Some id → (id < nextTimeout w)%nat).

(** [w'] has the timers of [w]. *)
Definition same_timers (w w' : World) : Prop :=
  timeouts w' = timeouts w ∧ nextTimeout w' = nextTimeout w
  ∧ previewTimeoutRefs w' = previewTimeoutRefs w.

(** *** Handles nothing refers to *)

(** The object holds the URL [u] in one of its two handle fields. *)
Definition mentions (u : URL) (img : CompressedImage) : Prop :=
  preview img = Some u ∨ compressedPreview img = Some u.

(** [P] holds of the entry if it is an object. *)
Definition for_object (P : CompressedImage → Prop) (e : Entry) : Prop :=
  match e with
  | Object img => P img
  | Undefined => True
  end.

(** No object of the list, and no item about to be ingested, holds [u]. *)
Definition unreferenced (u : URL) (w : World) : Prop :=
  Forall (for_object (λ img, ¬ mentions u img)) (images w)
  ∧ Forall (λ t, match t with
                 | IngestTask newImages => Forall (λ img, ¬ mentions u img) newImages
                 | _ => True
                 end) (inflight w).

(** [u] is live and nothing the component will look at refers to it. *)
Definition leaked (u : URL) (w : World) : Prop :=
  live u w = true ∧ unreferenced u w.

Definition keeps_handles (change : CompressedImage → CompressedImage) : Prop :=
  ∀ img, preview (change img) = preview img
         ∧ compressedPreview (change img) = compressedPreview img.

(** *** The handles the screen holds *)

(** The object URLs an object holds. *)
Definition handles (img : CompressedImage) : list URL :=
  option_list (preview img) ++ option_list (compressedPreview img).

(** The items a task will add to the list. *)
Definition ingested (t : Task) : list CompressedImage :=
  match t with
  | IngestTask newImages => newImages
  | _ => []
  end.

Definition pending_items (w : World) : list CompressedImage :=
  inflight w ≫= ingested.

(** The object URLs an entry of the list holds. *)
Definition entry_handles (e : Entry) : list URL :=
  match e with
  | Object img => handles img
  | Undefined => []
  end.

(** The object URLs held by the objects listed and by those about to be. *)
Definition held (w : World) : list URL :=
  (images w ≫= entry_handles) ++ (pending_items w ≫= handles).

(** No URL is held twice, and every URL held is live. *)
Definition handles_sound (w : World) : Prop :=
  NoDup (held w) ∧ ∀ u, u ∈ held w → live u w = true.

Definition keeps_held (w w' : World) : Prop :=
  held w' = held w ∧ objectURLs w' = objectURLs w.

(** What [removeImage] and the updater of a finished crop revoke. *)
Definition release (img : CompressedImage) (w : World) : World :=
  revoke (compressedPreview img) (revoke (preview img) w).

(** *** Ingest *)

(** [file.type.startsWith("image/")] *)
Definition is_image (f : File) : bool := String.prefix "image/" (file_type f).

(** The items built for [files] when the URL store has issued [first] URLs:
    each file takes two URLs, the first of them its preview. *)
Fixpoint fresh_items (first : nat) (files : list File) : list CompressedImage :=
  match files with
  | [] => []
  | f :: rest =>
      new_image f first (natural_size (blob_content (file_blob f)))
      :: fresh_items (S (S first)) rest
  end.

(** The URLs [build_images] creates for [files]. *)
Definition fresh_urls (files : list File) : list (option Blob) :=
  flat_map (λ f, [Some (file_blob f); Some (file_blob f)]) files.

(** *** Decimal numerals *)

(** [rest] cannot continue a decimal numeral. *)
Definition ends_numeral (rest : string) : Prop :=
  match rest with
  | EmptyString => True
  | String c _ => digit_value 10 c = None
  end.

(** [s] does not start with the [x] that turns a leading "0" into the prefix
    of a hexadecimal numeral. *)
Definition no_hex_mark (s : string) : Prop :=
  match s with
  | EmptyString => True
  | String c _ => c ≠ "x"%char ∧ c ≠ "X"%char
  end.

(** The value of the digits [d] read after digits of value [acc]. *)
Fixpoint uint_value (d : Decimal.uint) (acc : Z) : Z :=
  match d with
  | Decimal.Nil => acc
  | Decimal.D0 d => uint_value d (acc * 10 + 0)
  | Decimal.D1 d => uint_value d (acc * 10 + 1)
  | Decimal.D2 d => uint_value d (acc * 10 + 2)
  | Decimal.D3 d => uint_value d (acc * 10 + 3)
  | Decimal.D4 d => uint_value d (acc * 10 + 4)
  | Decimal.D5 d => uint_value d (acc * 10 + 5)
  | Decimal.D6 d => uint_value d (acc * 10 + 6)
  | Decimal.D7 d => uint_value d (acc * 10 + 7)
  | Decimal.D8 d => uint_value d (acc * 10 + 8)
  | Decimal.D9 d => uint_value d (acc * 10 + 9)
  end.

(** ** Sample data *)

(** A browser in which every call succeeds, the encoders giving [n] bytes. *)
Definition answers (n : N) : Browser := mkBrowser true true (Some n) (Some n).

(** A browser whose codec rejects. *)
Definition codec_fails : Browser := mkBrowser true true None None.

Definition photo : File :=
  mkFile (mkBlob (Uploaded 0%nat (Dim.mk (of_Z 1000) (of_Z 500))) 123456 "image/jpeg")
         "photo.jpg".

Definition photo_item : CompressedImage :=
  new_image photo 0%nat (Dim.mk (of_Z 1000) (of_Z 500)).

Definition chart : File :=
  mkFile (mkBlob (Uploaded 1%nat (Dim.mk (of_Z 640) (of_Z 480))) 20000 "image/png")
         "chart.png".

Definition chart_item : CompressedImage :=
  new_image chart 2%nat (Dim.mk (of_Z 640) (of_Z 480)).

(** An item of the given original size and target texts. *)
Definition sized (w h : Z) (tw th : string) : CompressedImage :=
  with_height th (with_width tw
    (with_dimensions (Some (Dim.mk (of_Z w) (of_Z h))) photo_item)).

(** An uploaded file of the given natural size. *)
Definition upload (w h : Z) : File :=
  mkFile (mkBlob (Uploaded 0%nat (Dim.mk (of_Z w) (of_Z h))) 123456 "image/jpeg")
         "photo.jpg".

(** One image loaded, nothing pending. *)
Definition loaded : World :=
  run [SelectFiles [photo]; Settle 0%nat (answers 0)] initial.

(** Two images loaded, nothing pending. *)
Definition gallery : World :=
  run [SelectFiles [photo; chart]; Settle 0%nat (answers 0)] initial.

(** Two images loaded, then the quality of the first one edited. *)
Definition edit_first : list Event :=
  [SelectFiles [photo; chart]; Settle 0%nat (answers 0);
   ChangeSetting 0%nat (Quality (of_Z 60))].

(** The spec's example: quality 75, then 60, then 80 within the quiet window,
    then the window elapses. *)
Definition two_edits : list Event :=
  [ChangeSetting 0%nat (Quality (of_Z 60)); Elapse 1000;
   ChangeSetting 0%nat (Quality (of_Z 80)); Elapse 1500].



Definition corner : Area := mkArea (of_Z 100) (of_Z 50) (of_Z 300) (of_Z 200).

(** A crop of the only item, opened before and applied after the item's
    regeneration started. *)
Definition crop_while_pending : list Event :=
  [ChangeSetting 0%nat (Quality (of_Z 60)); ClickCrop 0%nat; CropComplete corner;
   Elapse 1500; ClickApplyCrop; Settle 1%nat (answers 5000)].

(** A crop of the first of two items is applied, the dialog is cancelled and
    the first item removed while the crop is still being made. *)
Definition crop_then_remove : list Event :=
  [ClickCrop 0%nat; CropComplete corner; ClickApplyCrop; ClickCancelCrop;
   ClickRemove 0%nat; Settle 0%nat (answers 5000)].

(** Both items are edited, both regenerations start, and the first item is
    removed while they run. *)
Definition edit_both_remove_first : list Event :=
  [ChangeSetting 1%nat (Quality (of_Z 60)); ChangeSetting 0%nat (Quality (of_Z 50));
   Elapse 1500; ClickRemove 0%nat].

(** The only item is edited and removed before its timer fires. *)
Definition edit_then_remove : list Event :=
  [ChangeSetting 0%nat (Quality (of_Z 60)); ClickRemove 0%nat; Elapse 1500].


(** * Properties of the component *)

(** ** Rounding to a double *)

Local Open Scope Z_scope.

Lemma of_Z_eq (z : Z) : of_Z z = Num (Qc_of_Z z).
Proof. unfold of_Z. f_equal. apply Qc_is_canon. simpl. apply Qred_correct. Qed.

Lemma pow2_pos (k : Z) : 0 < pow2 k.
Proof. unfold pow2. apply Z.pow_pos_nonneg; lia. Qed.

Lemma pow2_Qpower (k : Z) :
  (inject_Z (pow2 k) / inject_Z (pow2 (- k)) == 2 ^ k)%Q.
Proof.
  unfold pow2. destruct (Z.le_gt_cases 0 k) as [Hk | Hk].
  - rewrite (Z.max_r 0 k), (Z.max_l 0 (- k)) by lia.
    change (inject_Z (2 ^ 0)) with 1%Q. rewrite Zpower_Qpower by lia.
    change (inject_Z 2) with 2%Q. generalize (2 ^ k)%Q. intros x. field.
  - rewrite (Z.max_l 0 k), (Z.max_r 0 (- k)) by lia.
    change (inject_Z (2 ^ 0)) with 1%Q. rewrite Zpower_Qpower by lia.
    change (inject_Z 2) with 2%Q.
    assert (Hx : (2 ^ k == / 2 ^ (- k))%Q).
    { rewrite <- Qpower_opp. by rewrite Z.opp_involutive. }
    rewrite Hx. pose proof (Qpower_0_lt 2 (- k) ltac:(reflexivity)) as Hp.
    revert Hp. generalize (2 ^ (- k))%Q. intros x Hp. field. lra.
Qed.

Lemma Qpower2_pos (k : Z) : (0 < 2 ^ k)%Q.
Proof. apply Qpower_0_lt. reflexivity. Qed.

Lemma Qpower2_succ (k : Z) : (2 ^ (k + 1) == 2 * 2 ^ k)%Q.
Proof. rewrite Qpower_plus by discriminate. rewrite Qpower_1_r. ring. Qed.

Lemma Qpower2_pred (k : Z) : (2 ^ (k - 1) == 2 ^ k * (1 # 2))%Q.
Proof. rewrite Qpower_minus by discriminate. rewrite Qpower_1_r. reflexivity. Qed.

Lemma inject_Z_pos (z : Z) : 0 < z → (0 < inject_Z z)%Q.
Proof. intros H. change 0%Q with (inject_Z 0). by rewrite <- Zlt_Qlt. Qed.

(** [round_half_even n d] is within one half of [n / d]. *)
Lemma round_half_even_spec (n d : Z) :
  0 < d →
  let m := round_half_even n d in
  - d ≤ 2 * (m * d - n) ≤ d.
Proof.
  intros Hd. cbv zeta. unfold round_half_even.
  pose proof (Z.div_mod n d ltac:(lia)) as Hdm.
  pose proof (Z.mod_pos_bound n d Hd) as Hr.
  repeat case_bool_decide; [nia | nia |].
  destruct (Z.even (n / d)); nia.
Qed.

Lemma round_half_even_exact (y d : Z) : 0 < d → round_half_even (y * d) d = y.
Proof.
  intros Hd. unfold round_half_even.
  rewrite Z.div_mul, Z.mod_mul by lia.
  rewrite bool_decide_eq_true_2 by lia. done.
Qed.

Lemma round_half_even_Q (n d : Z) :
  0 < d →
  (inject_Z n / inject_Z d - (1 # 2) <= inject_Z (round_half_even n d)
   ∧ inject_Z (round_half_even n d) <= inject_Z n / inject_Z d + (1 # 2))%Q.
Proof.
  intros Hd. pose proof (round_half_even_spec n d Hd) as H. cbv zeta in H.
  set (m := round_half_even n d) in *. clearbody m.
  pose proof (inject_Z_pos d Hd) as HdQ.
  assert (H1 : 2 * n ≤ 2 * (m * d) + d) by lia.
  assert (H2 : 2 * (m * d) ≤ 2 * n + d) by lia.
  rewrite Zle_Qle in H1, H2.
  rewrite !inject_Z_plus, !inject_Z_mult in H1, H2.
  change (inject_Z 2) with 2%Q in H1, H2. clear H.
  set (D := inject_Z d) in *. set (N := inject_Z n) in *. set (M := inject_Z m) in *.
  clearbody D N M.
  assert (Hx : (N == (N / D) * D)%Q) by (field; lra).
  set (x := (N / D)%Q) in *. clearbody x.
  split; nra.
Qed.

Lemma Zlog2_Q (n : Z) :
  0 < n → (2 ^ Z.log2 n <= inject_Z n ∧ inject_Z n < 2 * 2 ^ Z.log2 n)%Q.
Proof.
  intros Hn. pose proof (Z.log2_spec n Hn) as [H1 H2].
  pose proof (Z.log2_nonneg n) as H0.
  rewrite Z.pow_succ_r in H2 by done.
  rewrite Zle_Qle in H1. rewrite Zlt_Qlt in H2.
  rewrite inject_Z_mult in H2.
  rewrite Zpower_Qpower in H1, H2 by done.
  done.
Qed.

(** The comparison [floor_log2] and [binary64] make on integers, read on
    rationals. *)
Lemma pow2_le (n d a b : Z) (k : Z) :
  0 < d → 0 < b →
  d * (a * pow2 k) ≤ n * (b * pow2 (- k))
  ↔ (inject_Z a / inject_Z b * 2 ^ k <= inject_Z n / inject_Z d)%Q.
Proof.
  intros Hd Hb.
  pose proof (pow2_Qpower k) as HP.
  pose proof (inject_Z_pos _ (pow2_pos k)) as Hp1.
  pose proof (inject_Z_pos _ (pow2_pos (- k))) as Hp2.
  pose proof (inject_Z_pos _ Hd) as HD. pose proof (inject_Z_pos _ Hb) as HB.
  rewrite Zle_Qle, !inject_Z_mult.
  revert HP Hp1 Hp2 HD HB.
  generalize (inject_Z (pow2 k)) (inject_Z (pow2 (- k))) (inject_Z d) (inject_Z n)
             (inject_Z a) (inject_Z b) (2 ^ k)%Q.
  intros P P' D N A B y HP Hp1 Hp2 HD HB.
  assert (HPy : (P == y * P')%Q) by (rewrite <- HP; field; lra).
  assert (Hx : (N == (N / D) * D)%Q) by (field; lra).
  assert (Hz : (A == (A / B) * B)%Q) by (field; lra).
  set (x := (N / D)%Q) in *. set (z := (A / B)%Q) in *. clearbody x z.
  rewrite HPy, Hx, Hz.
  assert (Hpos : (0 < D * B * P')%Q) by (repeat apply Qmult_lt_0_compat; done).
  split; intros H.
  - apply Qnot_lt_le. intros Hlt.
    assert (Hm : (0 < (z * y - x) * (D * B * P'))%Q) by (apply Qmult_lt_0_compat; lra).
    lra.
  - assert (Hm : (0 <= (x - z * y) * (D * B * P'))%Q) by (apply Qmult_le_0_compat; lra).
    lra.
Qed.

Lemma pow2_le_1 (n d : Z) (k : Z) :
  0 < d →
  d * pow2 k ≤ n * pow2 (- k) ↔ (2 ^ k <= inject_Z n / inject_Z d)%Q.
Proof.
  intros Hd. pose proof (pow2_le n d 1 1 k Hd ltac:(lia)) as H.
  rewrite !Z.mul_1_l in H. rewrite H.
  change (inject_Z 1) with 1%Q.
  assert (He : (1 / 1 * 2 ^ k == 2 ^ k)%Q) by field. rewrite He. done.
Qed.

Lemma floor_log2_spec (n d : Z) :
  0 < n → 0 < d →
  let e := floor_log2 n d in
  (2 ^ e <= inject_Z n / inject_Z d ∧ inject_Z n / inject_Z d < 2 ^ (e + 1))%Q.
Proof.
  intros Hn Hd. cbv zeta. unfold floor_log2.
  pose proof (Zlog2_Q n Hn) as [Hn1 Hn2]. pose proof (Zlog2_Q d Hd) as [Hd1 Hd2].
  pose proof (inject_Z_pos _ Hd) as HD.
  pose proof (Qpower2_pos (Z.log2 n)) as Ha. pose proof (Qpower2_pos (Z.log2 d)) as Hb.
  set (e0 := Z.log2 n - Z.log2 d).
  assert (He0 : (2 ^ e0 == 2 ^ Z.log2 n / 2 ^ Z.log2 d)%Q).
  { unfold e0. apply Qpower_minus. discriminate. }
  pose proof (pow2_le_1 n d e0 Hd) as Htest.
  pose proof (Qpower2_pos e0) as Hc.
  pose proof (Qpower2_succ e0) as Hs. pose proof (Qpower2_pred e0) as Hp.
  assert (Hfrac : ∀ N D : Q, (0 < D)%Q → (N == (N / D) * D)%Q) by (intros; field; lra).
  pose proof (Hfrac (inject_Z n) _ HD) as Hx.
  pose proof (Hfrac (2 ^ Z.log2 n)%Q _ Hb) as Hy. rewrite <- He0 in Hy.
  set (x := (inject_Z n / inject_Z d)%Q) in *. clearbody x.
  case_bool_decide as Ht.
  - apply Htest in Ht. rewrite Hs. split; [done|].
    revert Hn1 Hn2 Hd1 Hd2 HD Ha Hb Hx Hy Hc Ht.
    generalize (inject_Z n) (inject_Z d) (2 ^ Z.log2 n)%Q (2 ^ Z.log2 d)%Q (2 ^ e0)%Q.
    intros N D A B C Hn1 Hn2 Hd1 Hd2 HD Ha Hb Hx Hy Hc Ht.
    apply Qnot_le_lt. intros Hle.
    assert ((0 <= (x - 2 * C) * D)%Q) by (apply Qmult_le_0_compat; lra).
    assert ((0 <= C * (D - B))%Q) by (apply Qmult_le_0_compat; lra).
    lra.
  - assert (Hlt : (x < 2 ^ e0)%Q).
    { apply Qnot_le_lt. intros Hle. apply Ht, Htest, Hle. }
    replace (e0 - 1 + 1) with e0 by lia. rewrite Hp. split; [|done].
    revert Hn1 Hn2 Hd1 Hd2 HD Ha Hb Hx Hy Hc Hlt.
    generalize (inject_Z n) (inject_Z d) (2 ^ Z.log2 n)%Q (2 ^ Z.log2 d)%Q (2 ^ e0)%Q.
    intros N D A B C Hn1 Hn2 Hd1 Hd2 HD Ha Hb Hx Hy Hc Hlt.
    apply Qnot_lt_le. intros Hle.
    assert ((0 < (C * (1 # 2) - x) * D)%Q) by (apply Qmult_lt_0_compat; lra).
    assert ((0 < C * (B - D * (1 # 2)))%Q) by (apply Qmult_lt_0_compat; lra).
    lra.
Qed.

Lemma Qpower2_unique (q : Q) (e e' : Z) :
  (2 ^ e <= q)%Q → (q < 2 ^ (e + 1))%Q → (2 ^ e' <= q)%Q → (q < 2 ^ (e' + 1))%Q → e = e'.
Proof.
  intros H1 H2 H3 H4.
  assert (e < e' + 1).
  { apply (Qpower_lt_compat_l_inv 2); [|reflexivity].
    eapply Qle_lt_trans; [exact H1 | exact H4]. }
  assert (e' < e + 1).
  { apply (Qpower_lt_compat_l_inv 2); [|reflexivity].
    eapply Qle_lt_trans; [exact H3 | exact H2]. }
  lia.
Qed.

Lemma Qc_as_fraction (q : Qc) : (q == inject_Z (Qnum q) / inject_Z (Z.pos (Qden q)))%Q.
Proof.
  destruct q as [[n d] Hc]. simpl. unfold Qeq, Qdiv, Qmult, Qinv, inject_Z. simpl.
  lia.
Qed.

Lemma Q2Qc_fraction (a b : Z) :
  0 < b → (Q2Qc (Qmake a (Z.to_pos b)) == inject_Z a / inject_Z b)%Q.
Proof.
  intros Hb. simpl. rewrite Qred_correct.
  unfold Qeq, Qdiv, Qmult, Qinv, inject_Z. simpl.
  destruct b as [|b|b]; try lia. simpl. lia.
Qed.

Lemma Qc_pos_num (q : Qc) : (0 < q)%Q → 0 < Qnum q.
Proof. destruct q as [[n d] Hc]. unfold Qlt. simpl. lia. Qed.

(** [binary64] on a positive rational whose binary exponent is known. *)
Lemma binary64_unfold (q : Qc) (e : Z) :
  (2 ^ e <= q)%Q → (q < 2 ^ (e + 1))%Q → -1022 ≤ e →
  let s := e - 52 in
  let m := round_half_even (Qnum q * pow2 (- s)) (Z.pos (Qden q) * pow2 s) in
  binary64 q
  = if bool_decide (2 ^ 1024 * pow2 (- s) ≤ m * pow2 s) then Infinity
    else Num (Q2Qc (Qred (Qmake (m * pow2 s) (Z.to_pos (pow2 (- s)))))).
Proof.
  intros H1 H2 He. cbv zeta.
  assert (Hq : (0 < q)%Q) by (eapply Qlt_le_trans; [apply (Qpower2_pos e) | done]).
  pose proof (Qc_pos_num q Hq) as Hn.
  unfold binary64. rewrite Z.abs_eq by lia.
  rewrite bool_decide_eq_false_2 by lia.
  pose proof (floor_log2_spec (Qnum q) (Z.pos (Qden q)) Hn ltac:(lia)) as Hf.
  cbv zeta in Hf. rewrite <- Qc_as_fraction in Hf. destruct Hf as [Hf1 Hf2].
  rewrite <- (Qpower2_unique q e _ H1 H2 Hf1 Hf2).
  rewrite Z.max_l by lia.
  rewrite (bool_decide_eq_true_2 (0 < Qnum q)) by done.
  rewrite Z.sgn_pos by done. rewrite Z.mul_1_l. done.
Qed.

(** The significand [binary64] rounds to is within one half of [q / 2^s]. *)
Lemma significand_Q (q : Qc) (s : Z) :
  let m := round_half_even (Qnum q * pow2 (- s)) (Z.pos (Qden q) * pow2 s) in
  (q - (1 # 2) * 2 ^ s <= inject_Z m * 2 ^ s
   ∧ inject_Z m * 2 ^ s <= q + (1 # 2) * 2 ^ s)%Q.
Proof.
  cbv zeta.
  pose proof (pow2_pos s) as Hp. pose proof (pow2_pos (- s)) as Hp'.
  pose proof (round_half_even_Q (Qnum q * pow2 (- s)) (Z.pos (Qden q) * pow2 s)
                ltac:(lia)) as [Hlo Hhi].
  set (m := round_half_even _ _) in *. clearbody m.
  rewrite !inject_Z_mult in Hlo, Hhi.
  pose proof (Qc_as_fraction q) as Hq. pose proof (pow2_Qpower s) as Hs.
  pose proof (inject_Z_pos _ Hp) as HP. pose proof (inject_Z_pos _ Hp') as HP'.
  pose proof (inject_Z_pos (Z.pos (Qden q)) ltac:(lia)) as HD.
  set (N := inject_Z (Qnum q)) in *. set (D := inject_Z (Z.pos (Qden q))) in *.
  clearbody N D.
  revert Hlo Hhi Hq Hs HP HP' HD.
  generalize (inject_Z (pow2 s)) (inject_Z (pow2 (- s)))
             (inject_Z m) (2 ^ s)%Q (this q).
  intros P P' M Y x Hlo Hhi Hq Hs HP HP' HD.
  assert (HPy : (P == Y * P')%Q) by (rewrite <- Hs; field; lra).
  assert (Hx : (N == x * D)%Q) by (rewrite Hq; field; lra).
  assert (HY : (0 < Y)%Q).
  { rewrite <- Hs. apply Qlt_shift_div_l; lra. }
  assert (He : (N * P' / (D * P) * Y == x)%Q).
  { rewrite HPy, Hx. field. repeat split; lra. }
  assert (Hlo' : (0 <= (M - (N * P' / (D * P) - (1 # 2))) * Y)%Q)
    by (apply Qmult_le_0_compat; lra).
  assert (Hhi' : (0 <= (N * P' / (D * P) + (1 # 2) - M) * Y)%Q)
    by (apply Qmult_le_0_compat; lra).
  revert He Hlo' Hhi'. generalize (N * P' / (D * P))%Q. intros t He Hlo' Hhi'.
  split; lra.
Qed.

Lemma overflow_test (m s : Z) :
  2 ^ 1024 * pow2 (- s) ≤ m * pow2 s ↔ (inject_Z (2 ^ 1024) <= inject_Z m * 2 ^ s)%Q.
Proof.
  pose proof (pow2_pos s) as Hp. pose proof (pow2_pos (- s)) as Hp'.
  pose proof (pow2_Qpower s) as Hs.
  pose proof (inject_Z_pos _ Hp) as HP. pose proof (inject_Z_pos _ Hp') as HP'.
  rewrite Zle_Qle, !inject_Z_mult.
  revert Hs HP HP'.
  generalize (inject_Z (pow2 s)) (inject_Z (pow2 (- s))) (inject_Z m)
             (inject_Z (2 ^ 1024)) (2 ^ s)%Q.
  intros P P' M B Y Hs HP HP'.
  assert (HPy : (P == Y * P')%Q) by (rewrite <- Hs; field; lra).
  rewrite HPy. split; intros H.
  - apply Qnot_lt_le. intros Hlt.
    assert ((0 < (B - M * Y) * P')%Q) by (apply Qmult_lt_0_compat; lra). lra.
  - assert ((0 <= (M * Y - B) * P')%Q) by (apply Qmult_le_0_compat; lra). lra.
Qed.

Lemma rounded_value (m s : Z) :
  (Q2Qc (Qred (Qmake (m * pow2 s) (Z.to_pos (pow2 (- s))))) == inject_Z m * 2 ^ s)%Q.
Proof.
  assert (He : (Q2Qc (Qred (Qmake (m * pow2 s) (Z.to_pos (pow2 (- s)))))
                == Q2Qc (Qmake (m * pow2 s) (Z.to_pos (pow2 (- s)))))%Q).
  { simpl. by rewrite !Qred_correct. }
  rewrite He.
  rewrite (Q2Qc_fraction _ _ (pow2_pos (- s))). rewrite inject_Z_mult.
  rewrite <- (pow2_Qpower s).
  pose proof (inject_Z_pos _ (pow2_pos (- s))) as HP'.
  field. lra.
Qed.

(** A positive rational in the range of the normal doubles rounds to a double
    of the same binade, within half a unit in the last place. *)
Lemma binary64_normal (q : Qc) (e : Z) :
  (2 ^ e <= q)%Q → (q < 2 ^ (e + 1))%Q → -1022 ≤ e ≤ 1022 →
  ∃ r : Qc, binary64 q = Num r
    ∧ (2 ^ e <= r)%Q ∧ (r <= 2 ^ (e + 1))%Q
    ∧ (r - q <= 2 ^ (e - 53))%Q ∧ (q - r <= 2 ^ (e - 53))%Q.
Proof.
  intros H1 H2 He.
  rewrite (binary64_unfold q e H1 H2) by lia. cbv zeta.
  pose proof (significand_Q q (e - 52)) as Hm. cbv zeta in Hm.
  set (m := round_half_even _ _) in *. clearbody m.
  assert (Hs1 : (2 ^ e == inject_Z (2 ^ 52) * 2 ^ (e - 52))%Q).
  { replace e with (52 + (e - 52)) at 1 by lia.
    rewrite Qpower_plus by discriminate. reflexivity. }
  assert (Hs2 : (2 ^ (e + 1) == inject_Z (2 ^ 53) * 2 ^ (e - 52))%Q).
  { replace (e + 1) with (53 + (e - 52)) by lia.
    rewrite Qpower_plus by discriminate. reflexivity. }
  assert (Hs3 : (2 ^ (e - 53) == (1 # 2) * 2 ^ (e - 52))%Q).
  { replace (e - 53) with (e - 52 - 1) by lia. rewrite Qpower2_pred. ring. }
  assert (Hs4 : (inject_Z (2 ^ 1024) == inject_Z (2 ^ 53) * 2 ^ 971)%Q) by reflexivity.
  assert (Hmono : (2 ^ (e - 52) <= 2 ^ 970)%Q).
  { apply Qpower_le_compat_l; [lia | discriminate]. }
  pose proof (Qpower2_pos (e - 52)) as HY.
  (* the significand lies between 2^52 and 2^53 *)
  assert (Hm52 : 2 ^ 52 ≤ m ≤ 2 ^ 53).
  { split.
    - apply Z.lt_pred_le. apply Z.nle_gt. intros Hle. rewrite Zle_Qle in Hle.
      rewrite Hs1 in H1. destruct Hm as [Hm _].
      assert ((0 <= (inject_Z (Z.pred (2 ^ 52)) - inject_Z m) * 2 ^ (e - 52))%Q)
        by (apply Qmult_le_0_compat; lra).
      change (inject_Z (Z.pred (2 ^ 52))) with (inject_Z (2 ^ 52) - 1)%Q in *.
      revert H1 Hm H HY. generalize (2 ^ (e - 52))%Q (this q) (inject_Z m).
      intros Y x M. lra.
    - apply Z.lt_succ_r. apply Z.nle_gt. intros Hle. rewrite Zle_Qle in Hle.
      rewrite Hs2 in H2. destruct Hm as [_ Hm].
      assert ((0 <= (inject_Z m - inject_Z (Z.succ (2 ^ 53))) * 2 ^ (e - 52))%Q)
        by (apply Qmult_le_0_compat; lra).
      change (inject_Z (Z.succ (2 ^ 53))) with (inject_Z (2 ^ 53) + 1)%Q in *.
      revert H2 Hm H HY. generalize (2 ^ (e - 52))%Q (this q) (inject_Z m).
      intros Y x M. lra. }
  destruct Hm52 as [Hlo Hhi]. rewrite Zle_Qle in Hlo, Hhi.
  assert (Hlo' : (0 <= (inject_Z m - inject_Z (2 ^ 52)) * 2 ^ (e - 52))%Q)
    by (apply Qmult_le_0_compat; lra).
  assert (Hhi' : (0 <= (inject_Z (2 ^ 53) - inject_Z m) * 2 ^ (e - 52))%Q)
    by (apply Qmult_le_0_compat; lra).
  rewrite bool_decide_eq_false_2.
  2:{ rewrite overflow_test. rewrite Hs4. apply Qlt_not_le.
      assert (Hlt : (2 ^ (e - 52) < 2 ^ 971)%Q).
      { apply Qpower_lt_compat_l; [lia | reflexivity]. }
      assert ((0 < inject_Z (2 ^ 53) * (2 ^ 971 - 2 ^ (e - 52)))%Q)
        by (apply Qmult_lt_0_compat; [reflexivity | lra]).
      revert Hhi' H. generalize (2 ^ (e - 52))%Q (inject_Z m) (2 ^ 971)%Q.
      intros Y M Z. lra. }
  eexists. split; [reflexivity|].
  rewrite !rounded_value, Hs1, Hs2, Hs3.
  revert Hm Hlo' Hhi'. generalize (2 ^ (e - 52))%Q (this q) (inject_Z m).
  intros Y x M Hm Hlo' Hhi'. repeat split; lra.
Qed.

Lemma binary64_exponent (q : Qc) :
  (0 < q)%Q → ∃ e : Z, (2 ^ e <= q)%Q ∧ (q < 2 ^ (e + 1))%Q.
Proof.
  intros Hq. exists (floor_log2 (Qnum q) (Z.pos (Qden q))).
  pose proof (floor_log2_spec (Qnum q) (Z.pos (Qden q)) (Qc_pos_num q Hq) ltac:(lia)) as H.
  cbv zeta in H. by rewrite <- Qc_as_fraction in H.
Qed.

(** Rounding a rational between [2^-100] and [2^100] changes it by at most
    [2^-53] of itself. *)
Lemma binary64_relative (q : Qc) :
  ((1 # 2 ^ 100) <= q)%Q → (q <= inject_Z (2 ^ 100))%Q →
  ∃ r : Qc, binary64 q = Num r
    ∧ ((1 - half_ulp) * q <= r)%Q ∧ (r <= (1 + half_ulp) * q)%Q.
Proof.
  intros Hlo Hhi.
  assert (Hq : (0 < q)%Q) by (eapply Qlt_le_trans; [|exact Hlo]; reflexivity).
  destruct (binary64_exponent q Hq) as (e & H1 & H2).
  assert (He : -101 ≤ e ≤ 100).
  { split.
    - assert (-100 < e + 1); [|lia].
      apply (Qpower_lt_compat_l_inv 2); [|reflexivity].
      eapply Qle_lt_trans; [|exact H2]. exact Hlo.
    - assert (e < 101); [|lia].
      apply (Qpower_lt_compat_l_inv 2); [|reflexivity].
      eapply Qle_lt_trans; [exact H1|]. eapply Qle_lt_trans; [exact Hhi|]. reflexivity. }
  destruct (binary64_normal q e H1 H2 ltac:(lia)) as (r & Hr & _ & _ & Hd1 & Hd2).
  exists r. split; [done|].
  assert (Hs : (2 ^ (e - 53) == half_ulp * 2 ^ e)%Q).
  { replace (e - 53) with (e + -53) by lia. rewrite Qpower_plus by discriminate.
    rewrite Qmult_comm. apply Qmult_comp; [reflexivity | reflexivity]. }
  rewrite Hs in Hd1, Hd2. unfold half_ulp in *.
  revert H1 Hd1 Hd2. generalize (2 ^ e)%Q (this q) (this r). intros Y x y H1 Hd1 Hd2.
  split; lra.
Qed.

Lemma Qc_of_Z_Q (z : Z) : (Qc_of_Z z == inject_Z z)%Q.
Proof. reflexivity. Qed.

Lemma Qcdiv_Q (a b : Qc) : ((a / b)%Qc == this a / this b)%Q.
Proof.
  unfold Qcdiv, Qcmult, Qcinv, Qdiv. simpl. rewrite !Qred_correct. reflexivity.
Qed.

Lemma Qcmult_Q (a b : Qc) : ((a * b)%Qc == this a * this b)%Q.
Proof. unfold Qcmult. simpl. apply Qred_correct. Qed.

Lemma Qc_nonzero (a : Qc) : (0 < a)%Q → a ≠ 0%Qc.
Proof. intros H ->. by apply Qlt_irrefl in H. Qed.

(** [t / a] on doubles, for [t] and [a] between [2^-50] and [2^50]: the
    result times [a] is [t], up to [2^-53] of it. *)
Lemma js_div_relative (t a : Qc) :
  ((1 # 2 ^ 50) <= t)%Q → (t <= inject_Z (2 ^ 50))%Q →
  ((1 # 2 ^ 50) <= a)%Q → (a <= inject_Z (2 ^ 50))%Q →
  ∃ r : Qc, js_div (Num t) (Num a) = Num r
    ∧ ((1 - half_ulp) * t <= r * a)%Q ∧ (r * a <= (1 + half_ulp) * t)%Q.
Proof.
  intros Ht1 Ht2 Ha1 Ha2.
  assert (Ha : (0 < a)%Q) by (eapply Qlt_le_trans; [|exact Ha1]; reflexivity).
  write_out_powers.
  assert (Ht : (0 < t)%Q) by (eapply Qlt_le_trans; [|exact Ht1]; reflexivity).
  unfold js_div. rewrite bool_decide_eq_false_2 by (by apply Qc_nonzero).
  pose proof (Qcdiv_Q t a) as Hq.
  assert (Hx : (this t == (this t / this a) * this a)%Q) by (field; lra).
  rewrite <- Hq in Hx.
  destruct (binary64_relative (t / a)%Qc) as (r & Hr & H1 & H2); write_out_powers.
  - revert Hx Ht1 Ht2 Ha1 Ha2 Ha Ht.
    generalize (this (t / a)%Qc) (this t) (this a). intros x T A Hx Ht1 Ht2 Ha1 Ha2 Ha Ht.
    apply Qnot_lt_le. intros Hlt.
    assert ((0 < ((1 # 2 ^ 100) - x) * A)%Q) by (write_out_powers; apply Qmult_lt_0_compat; lra).
    assert ((0 <= (1 # 2 ^ 100) * (inject_Z (2 ^ 50) - A))%Q)
      by (write_out_powers; apply Qmult_le_0_compat; lra).
    write_out_powers. lra.
  - revert Hx Ht1 Ht2 Ha1 Ha2 Ha Ht.
    generalize (this (t / a)%Qc) (this t) (this a). intros x T A Hx Ht1 Ht2 Ha1 Ha2 Ha Ht.
    apply Qnot_lt_le. intros Hlt.
    assert ((0 < (x - inject_Z (2 ^ 100)) * A)%Q) by (write_out_powers; apply Qmult_lt_0_compat; lra).
    assert ((0 <= inject_Z (2 ^ 100) * (A - (1 # 2 ^ 50)))%Q)
      by (write_out_powers; apply Qmult_le_0_compat; lra).
    write_out_powers. lra.
  - exists r. split; [done|].
    revert Hx H1 H2 Ha. unfold half_ulp.
    generalize (this (t / a)%Qc) (this t) (this a) (this r). intros x T A y Hx H1 H2 Ha.
    assert ((0 <= (y - (1 - (1 # 9007199254740992)) * x) * A)%Q)
      by (write_out_powers; apply Qmult_le_0_compat; lra).
    assert ((0 <= ((1 + (1 # 9007199254740992)) * x - y) * A)%Q)
      by (write_out_powers; apply Qmult_le_0_compat; lra).
    split; lra.
Qed.

(** [a * t] on doubles, for [a] and [t] between [2^-50] and [2^50]. *)
Lemma js_mul_relative (a t : Qc) :
  ((1 # 2 ^ 50) <= t)%Q → (t <= inject_Z (2 ^ 50))%Q →
  ((1 # 2 ^ 50) <= a)%Q → (a <= inject_Z (2 ^ 50))%Q →
  ∃ r : Qc, js_mul (Num a) (Num t) = Num r
    ∧ ((1 - half_ulp) * (a * t) <= r)%Q ∧ (r <= (1 + half_ulp) * (a * t))%Q.
Proof.
  intros Ht1 Ht2 Ha1 Ha2.
  assert (Ha : (0 < a)%Q) by (eapply Qlt_le_trans; [|exact Ha1]; reflexivity).
  write_out_powers.
  assert (Ht : (0 < t)%Q) by (eapply Qlt_le_trans; [|exact Ht1]; reflexivity).
  unfold js_mul.
  pose proof (Qcmult_Q a t) as Hq.
  destruct (binary64_relative (a * t)%Qc) as (r & Hr & H1 & H2); write_out_powers.
  - rewrite Hq. revert Ht1 Ht2 Ha1 Ha2 Ha Ht.
    generalize (this t) (this a). intros T A Ht1 Ht2 Ha1 Ha2 Ha Ht.
    assert ((0 <= (A - (1 # 2 ^ 50)) * (T - (1 # 2 ^ 50)))%Q)
      by (write_out_powers; apply Qmult_le_0_compat; lra).
    write_out_powers. lra.
  - rewrite Hq. revert Ht1 Ht2 Ha1 Ha2 Ha Ht.
    generalize (this t) (this a). intros T A Ht1 Ht2 Ha1 Ha2 Ha Ht.
    assert ((0 <= (inject_Z (2 ^ 50) - A) * T)%Q) by (write_out_powers; apply Qmult_le_0_compat; lra).
    write_out_powers. lra.
  - exists r. split; [done|]. by rewrite <- Hq.
Qed.

Lemma Math_round_Num (x : Qc) : Math_round (Num x) = of_Z (Qfloor (x + (1 # 2))%Q).
Proof.
  unfold Math_round. f_equal. apply Qfloor_comp.
  unfold Qcplus. simpl. rewrite !Qred_correct. reflexivity.
Qed.

(** [Math.round] of a double that is [p / d] up to two roundings is an
    integer nearest to [p / d], as long as [p] is below [2^50]. *)
Lemma Math_round_closest (x : Qc) (p d : Z) :
  0 < d → 0 ≤ p < 2 ^ 50 →
  ((1 - two_roundings) * inject_Z p <= x * inject_Z d)%Q →
  (x * inject_Z d <= (1 + two_roundings) * inject_Z p)%Q →
  ∃ z, Math_round (Num x) = of_Z z ∧ closest z p d.
Proof.
  intros Hd Hp H1 H2. rewrite Math_round_Num. eexists. split; [reflexivity|].
  set (z := Qfloor (x + (1 # 2))%Q).
  pose proof (Qfloor_le (x + (1 # 2))%Q) as Hz1.
  pose proof (Qlt_floor (x + (1 # 2))%Q) as Hz2.
  fold z in Hz1, Hz2. clearbody z. rewrite inject_Z_plus in Hz2.
  change (inject_Z 1) with 1%Q in Hz2.
  pose proof (inject_Z_pos d Hd) as HD.
  assert (HP : (0 <= inject_Z p)%Q) by (change 0%Q with (inject_Z 0); rewrite <- Zle_Qle; lia).
  assert (HP2 : (inject_Z p < 1125899906842624 # 1)%Q).
  { change (1125899906842624 # 1)%Q with (inject_Z (2 ^ 50)). rewrite <- Zlt_Qlt. lia. }
  assert (Ha : (0 <= (x + (1 # 2) - inject_Z z) * inject_Z d)%Q)
    by (apply Qmult_le_0_compat; lra).
  assert (Hb : (0 < (inject_Z z + 1 - (x + (1 # 2))) * inject_Z d)%Q)
    by (apply Qmult_lt_0_compat; lra).
  unfold closest. unfold two_roundings in *.
  assert (Hlt1 : 2 * (z * d) < 2 * p + d + 1).
  { rewrite Zlt_Qlt. rewrite !inject_Z_plus, !inject_Z_mult.
    change (inject_Z 2) with 2%Q. change (inject_Z 1) with 1%Q.
    revert H1 H2 HD HP HP2 Ha Hb.
    generalize (inject_Z p) (inject_Z d) (inject_Z z) (this x). intros P D Z X. lra. }
  assert (Hlt2 : 2 * p < 2 * (z * d) + d + 1).
  { rewrite Zlt_Qlt. rewrite !inject_Z_plus, !inject_Z_mult.
    change (inject_Z 2) with 2%Q. change (inject_Z 1) with 1%Q.
    revert H1 H2 HD HP HP2 Ha Hb.
    generalize (inject_Z p) (inject_Z d) (inject_Z z) (this x). intros P D Z X. lra. }
  lia.
Qed.

Lemma inject_Z_bounds (z : Z) :
  0 < z ≤ 2 ^ 49 →
  ((1 # 2 ^ 50) <= Qc_of_Z z)%Q ∧ (Qc_of_Z z <= inject_Z (2 ^ 50))%Q
  ∧ (1 <= inject_Z z)%Q ∧ (inject_Z z <= 562949953421312 # 1)%Q.
Proof.
  intros Hz. rewrite Qc_of_Z_Q.
  assert (H1 : (1 <= inject_Z z)%Q)
    by (change 1%Q with (inject_Z 1); rewrite <- Zle_Qle; lia).
  assert (H2 : (inject_Z z <= 562949953421312 # 1)%Q).
  { change (562949953421312 # 1)%Q with (inject_Z (2 ^ 49)). rewrite <- Zle_Qle. lia. }
  write_out_powers. repeat split; lra.
Qed.

(** [n / d] on integers up to [2^49]. *)
Lemma ratio_relative (n d : Z) :
  0 < n ≤ 2 ^ 49 → 0 < d ≤ 2 ^ 49 →
  ∃ a : Qc, js_div (of_Z n) (of_Z d) = Num a
    ∧ ((1 - half_ulp) * inject_Z n <= a * inject_Z d)%Q
    ∧ (a * inject_Z d <= (1 + half_ulp) * inject_Z n)%Q
    ∧ ((1 # 2 ^ 50) <= a)%Q ∧ (a <= inject_Z (2 ^ 50))%Q.
Proof.
  intros Hn Hd.
  destruct (inject_Z_bounds n Hn) as (Hn1 & Hn2 & Hn3 & Hn4).
  destruct (inject_Z_bounds d Hd) as (Hd1 & Hd2 & Hd3 & Hd4).
  destruct (js_div_relative (Qc_of_Z n) (Qc_of_Z d) Hn1 Hn2 Hd1 Hd2) as (a & Ha & H1 & H2).
  exists a. split; [by rewrite !of_Z_eq|]. rewrite !Qc_of_Z_Q in H1, H2. split; [done|]. split; [done|].
  unfold half_ulp in *. write_out_powers.
  revert H1 H2 Hn3 Hn4 Hd3 Hd4. generalize (inject_Z n) (inject_Z d) (this a).
  intros N D A H1 H2 Hn3 Hn4 Hd3 Hd4.
  split.
  - apply Qnot_lt_le. intros Hlt.
    assert ((0 < ((1 # 1125899906842624) - A) * D)%Q) by (apply Qmult_lt_0_compat; lra).
    lra.
  - apply Qnot_lt_le. intros Hlt.
    assert ((0 < (A - (1125899906842624 # 1)) * D)%Q) by (apply Qmult_lt_0_compat; lra).
    lra.
Qed.

(** [(n / d) * t]: what the pipeline computes before rounding. *)
Lemma scaled_by_ratio (t n d : Z) :
  0 < t ≤ 2 ^ 49 → 0 < n ≤ 2 ^ 49 → 0 < d ≤ 2 ^ 49 →
  ∃ r : Qc, js_mul (js_div (of_Z n) (of_Z d)) (of_Z t) = Num r
    ∧ ((1 - two_roundings) * inject_Z (t * n) <= r * inject_Z d)%Q
    ∧ (r * inject_Z d <= (1 + two_roundings) * inject_Z (t * n))%Q.
Proof.
  intros Ht Hn Hd.
  destruct (ratio_relative n d Hn Hd) as (a & -> & Ha1 & Ha2 & Ha3 & Ha4).
  destruct (inject_Z_bounds t Ht) as (Ht1 & Ht2 & Ht3 & Ht4).
  destruct (js_mul_relative a (Qc_of_Z t) Ht1 Ht2 Ha3 Ha4) as (r & Hr & H1 & H2).
  exists r. split; [by rewrite of_Z_eq|]. rewrite !Qc_of_Z_Q in H1, H2. rewrite inject_Z_mult.
  destruct (inject_Z_bounds d Hd) as (_ & _ & Hd3 & _).
  unfold half_ulp, two_roundings in *. write_out_powers.
  revert H1 H2 Ha1 Ha2 Ha3 Ht3 Hd3.
  generalize (inject_Z n) (inject_Z d) (inject_Z t) (this a) (this r).
  intros N D T A R H1 H2 Ha1 Ha2 Ha3 Ht3 Hd3.
  assert ((0 <= (R - (1 - (1 # 9007199254740992)) * (A * T)) * D)%Q)
    by (apply Qmult_le_0_compat; lra).
  assert ((0 <= ((1 + (1 # 9007199254740992)) * (A * T) - R) * D)%Q)
    by (apply Qmult_le_0_compat; lra).
  assert ((0 <= (A * D - (1 - (1 # 9007199254740992)) * N) * T)%Q)
    by (apply Qmult_le_0_compat; lra).
  assert ((0 <= ((1 + (1 # 9007199254740992)) * N - A * D) * T)%Q)
    by (apply Qmult_le_0_compat; lra).
  assert ((0 <= T * N)%Q) by (apply Qmult_le_0_compat; lra).
  split; lra.
Qed.

(** [t / (n / d)]: what the resolver computes before rounding. *)
Lemma divided_by_ratio (t n d : Z) :
  0 < t ≤ 2 ^ 49 → 0 < n ≤ 2 ^ 49 → 0 < d ≤ 2 ^ 49 →
  ∃ r : Qc, js_div (of_Z t) (js_div (of_Z n) (of_Z d)) = Num r
    ∧ ((1 - two_roundings) * inject_Z (t * d) <= r * inject_Z n)%Q
    ∧ (r * inject_Z n <= (1 + two_roundings) * inject_Z (t * d))%Q.
Proof.
  intros Ht Hn Hd.
  destruct (ratio_relative n d Hn Hd) as (a & -> & Ha1 & Ha2 & Ha3 & Ha4).
  destruct (inject_Z_bounds t Ht) as (Ht1 & Ht2 & Ht3 & Ht4).
  destruct (js_div_relative (Qc_of_Z t) a Ht1 Ht2 Ha3 Ha4) as (r & Hr & H1 & H2).
  exists r. split; [by rewrite of_Z_eq|]. rewrite !Qc_of_Z_Q in H1, H2. rewrite inject_Z_mult.
  destruct (inject_Z_bounds d Hd) as (_ & _ & Hd3 & _).
  destruct (inject_Z_bounds n Hn) as (_ & _ & Hn3 & _).
  unfold half_ulp, two_roundings in *. write_out_powers.
  revert H1 H2 Ha1 Ha2 Ha3 Ht3 Hd3 Hn3.
  generalize (inject_Z n) (inject_Z d) (inject_Z t) (this a) (this r).
  intros N D T A R H1 H2 Ha1 Ha2 Ha3 Ht3 Hd3 Hn3.
  assert (HR : (0 < R)%Q).
  { apply Qnot_le_lt. intros Hle.
    assert ((0 <= (- R) * A)%Q) by (apply Qmult_le_0_compat; lra). lra. }
  assert ((0 <= ((1 + (1 # 9007199254740992)) * T - R * A) * D)%Q)
    by (apply Qmult_le_0_compat; lra).
  assert ((0 <= (R * A - (1 - (1 # 9007199254740992)) * T) * D)%Q)
    by (apply Qmult_le_0_compat; lra).
  assert ((0 <= R * (A * D - (1 - (1 # 9007199254740992)) * N))%Q)
    by (apply Qmult_le_0_compat; lra).
  assert ((0 <= R * ((1 + (1 # 9007199254740992)) * N - A * D))%Q)
    by (apply Qmult_le_0_compat; lra).
  assert ((0 <= T * D)%Q) by (apply Qmult_le_0_compat; lra).
  assert ((0 <= R * N)%Q) by (apply Qmult_le_0_compat; lra).
  split; lra.
Qed.

(** A rational [M * 2^k] with a significand [M] below [2^53] is a double. *)
Lemma binary64_exact (q : Qc) (M k : Z) :
  0 < M < 2 ^ 53 → -1022 ≤ k ≤ 970 →
  (q == inject_Z M * 2 ^ k)%Q →
  binary64 q = Num q.
Proof.
  intros HM Hk Hq.
  pose proof (inject_Z_pos M ltac:(lia)) as HMQ.
  pose proof (Qpower2_pos k) as HK.
  assert (Hpos : (0 < q)%Q) by (rewrite Hq; apply Qmult_lt_0_compat; done).
  destruct (binary64_exponent q Hpos) as (e & H1 & H2).
  assert (HM1 : (1 <= inject_Z M)%Q)
    by (change 1%Q with (inject_Z 1); rewrite <- Zle_Qle; lia).
  assert (HM2 : (inject_Z M < inject_Z (2 ^ 53))%Q) by (rewrite <- Zlt_Qlt; lia).
  assert (He : k ≤ e ≤ 52 + k).
  { split.
    - assert (k < e + 1); [|lia].
      apply (Qpower_lt_compat_l_inv 2); [|reflexivity].
      eapply Qle_lt_trans; [|exact H2]. rewrite Hq.
      assert ((0 <= (inject_Z M - 1) * 2 ^ k)%Q) by (apply Qmult_le_0_compat; lra).
      revert H. generalize (2 ^ k)%Q (inject_Z M). intros Y m H. lra.
    - assert (e < 53 + k); [|lia].
      apply (Qpower_lt_compat_l_inv 2); [|reflexivity].
      eapply Qle_lt_trans; [exact H1|]. rewrite Hq.
      rewrite Qpower_plus by discriminate.
      change (2 ^ 53)%Q with (inject_Z (2 ^ 53)).
      assert ((0 < (inject_Z (2 ^ 53) - inject_Z M) * 2 ^ k)%Q)
        by (apply Qmult_lt_0_compat; lra).
      revert H. generalize (2 ^ k)%Q (inject_Z M) (inject_Z (2 ^ 53)). intros Y m B H. lra. }
  rewrite (binary64_unfold q e H1 H2) by lia. cbv zeta.
  pose proof (significand_Q q (e - 52)) as Hm. cbv zeta in Hm.
  set (m := round_half_even _ _) in *. clearbody m.
  (* the significand is M * 2^(k - s) *)
  set (Y := M * 2 ^ (k - (e - 52))).
  assert (HY : (q == inject_Z Y * 2 ^ (e - 52))%Q).
  { unfold Y. rewrite inject_Z_mult, Zpower_Qpower by lia.
    change (inject_Z 2) with 2%Q. rewrite Hq, <- Qmult_assoc.
    rewrite <- Qpower_plus by discriminate.
    replace (k - (e - 52) + (e - 52)) with k by lia. reflexivity. }
  pose proof (Qpower2_pos (e - 52)) as HS.
  assert (Hmy : m = Y).
  { destruct Hm as [Hm1 Hm2]. rewrite HY in Hm1, Hm2.
    assert (Ha : (inject_Z Y - 1 < inject_Z m)%Q).
    { apply Qnot_le_lt. intros Hle.
      assert ((0 <= (inject_Z Y - 1 - inject_Z m) * 2 ^ (e - 52))%Q)
        by (apply Qmult_le_0_compat; lra).
      revert Hm1 H HS. generalize (2 ^ (e - 52))%Q (inject_Z m) (inject_Z Y).
      intros S a b. lra. }
    assert (Hb : (inject_Z m < inject_Z Y + 1)%Q).
    { apply Qnot_le_lt. intros Hle.
      assert ((0 <= (inject_Z m - inject_Z Y - 1) * 2 ^ (e - 52))%Q)
        by (apply Qmult_le_0_compat; lra).
      revert Hm2 H HS. generalize (2 ^ (e - 52))%Q (inject_Z m) (inject_Z Y).
      intros S a b. lra. }
    change 1%Q with (inject_Z 1) in Ha, Hb.
    rewrite <- inject_Z_plus in Hb.
    assert (Ha' : (inject_Z Y < inject_Z m + inject_Z 1)%Q) by lra.
    rewrite <- inject_Z_plus in Ha'.
    rewrite <- Zlt_Qlt in Hb, Ha'. lia. }
  subst m.
  rewrite bool_decide_eq_false_2.
  2:{ rewrite overflow_test, <- HY, Hq. apply Qlt_not_le.
      assert (Hlt : (2 ^ k < 2 ^ 971)%Q) by (apply Qpower_lt_compat_l; [lia | reflexivity]).
      change (inject_Z (2 ^ 1024)) with (inject_Z (2 ^ 53) * 2 ^ 971)%Q.
      assert ((0 < (inject_Z (2 ^ 53) - inject_Z M) * 2 ^ k)%Q)
        by (apply Qmult_lt_0_compat; lra).
      assert ((0 < inject_Z (2 ^ 53) * (2 ^ 971 - 2 ^ k))%Q)
        by (apply Qmult_lt_0_compat; [reflexivity | lra]).
      revert H H0. generalize (2 ^ k)%Q (inject_Z M) (inject_Z (2 ^ 53)) (2 ^ 971)%Q.
      intros a b c d. lra. }
  f_equal. apply Qc_is_canon. rewrite rounded_value. by rewrite HY.
Qed.

(** The integers below [2^53] are doubles. *)
Lemma binary64_of_Z (z : Z) : 0 ≤ z < 2 ^ 53 → binary64 (Qc_of_Z z) = of_Z z.
Proof.
  intros Hz. rewrite of_Z_eq. destruct (decide (z = 0)) as [-> | Hne].
  { unfold binary64. simpl. f_equal. by apply Qc_is_canon. }
  apply (binary64_exact _ z 0); [lia | lia |].
  rewrite Qc_of_Z_Q. change (2 ^ 0)%Q with 1%Q. ring.
Qed.

(** A quotient of an integer below [2^53] by a power of two is computed
    exactly. *)
Lemma js_div_pow2 (n j : Z) :
  0 < n < 2 ^ 53 → 0 ≤ j ≤ 1000 →
  js_div (of_Z n) (of_Z (2 ^ j)) = Num (Qc_of_Z n / Qc_of_Z (2 ^ j))%Qc.
Proof.
  intros Hn Hj. rewrite !of_Z_eq. unfold js_div.
  assert (H2 : 0 < 2 ^ j) by (apply Z.pow_pos_nonneg; lia).
  rewrite bool_decide_eq_false_2.
  2:{ rewrite <- Z2Qc_inj_0. intros E. apply Z2Qc_inj in E. lia. }
  apply (binary64_exact _ n (- j)); [lia | lia |].
  rewrite Qcdiv_Q, !Qc_of_Z_Q, Zpower_Qpower by lia. change (inject_Z 2) with 2%Q.
  rewrite Qpower_opp. reflexivity.
Qed.

(** So is such a quotient times an integer, when the product of the
    integers is below [2^53]. *)
Lemma js_mul_pow2 (n j c : Z) :
  0 < n → 0 < c → n * c < 2 ^ 53 → 0 ≤ j ≤ 1000 →
  js_mul (Num (Qc_of_Z n / Qc_of_Z (2 ^ j))%Qc) (of_Z c)
  = Num (Qc_of_Z (n * c) / Qc_of_Z (2 ^ j))%Qc.
Proof.
  intros Hn Hc Hnc Hj. rewrite of_Z_eq. unfold js_mul.
  assert (H2 : 0 < 2 ^ j) by (apply Z.pow_pos_nonneg; lia).
  assert (Hne : Qc_of_Z (2 ^ j) ≠ 0%Qc).
  { rewrite <- Z2Qc_inj_0. intros E. apply Z2Qc_inj in E. lia. }
  assert (Heq : (Qc_of_Z n / Qc_of_Z (2 ^ j) * Qc_of_Z c
                 = Qc_of_Z (n * c) / Qc_of_Z (2 ^ j))%Qc).
  { rewrite Z2Qc_inj_mul. field. done. }
  rewrite Heq.
  apply (binary64_exact _ (n * c) (- j)); [lia | lia |].
  rewrite Qcdiv_Q, !Qc_of_Z_Q, Zpower_Qpower by lia. change (inject_Z 2) with 2%Q.
  rewrite Qpower_opp. reflexivity.
Qed.

(** ** Arithmetic of the number model *)

Local Open Scope Z_scope.

Lemma Qc_of_Z_eq_0 (z : Z) : Qc_of_Z z = 0%Qc ↔ z = 0.
Proof. rewrite <- Z2Qc_inj_0. apply Z2Qc_inj_iff. Qed.

Lemma truthy_of_Z (z : Z) : truthy (of_Z z) = negb (bool_decide (z = 0)).
Proof.
  rewrite of_Z_eq. unfold truthy. f_equal. apply bool_decide_ext, Qc_of_Z_eq_0.
Qed.

Lemma truthy_of_Z_pos (z : Z) : 0 < z → truthy (of_Z z) = true.
Proof. intros. rewrite truthy_of_Z, bool_decide_eq_false_2; [done | lia]. Qed.

Lemma of_Z_inj (a b : Z) : of_Z a = of_Z b → a = b.
Proof.
  rewrite !of_Z_eq. intros H.
  assert (Qc_of_Z a = Qc_of_Z b) by congruence. by apply Z2Qc_inj.
Qed.

(** The floor of a quotient of integers is their Euclidean quotient. *)
Lemma Qfloor_Qc_frac (n d : Z) :
  Qfloor (Qc_of_Z n / Qc_of_Z d)%Qc = n / d.
Proof.
  rewrite Zdiv_Qdiv. apply Qfloor_comp.
  unfold Qcdiv, Qcmult, Qcinv, Qc_of_Z. simpl.
  rewrite !Qred_correct. reflexivity.
Qed.

Lemma Math_round_frac (n d : Z) :
  d ≠ 0 →
  Math_round (Num (Qc_of_Z n / Qc_of_Z d)%Qc) = of_Z ((2 * n + d) / (2 * d)).
Proof.
  intros Hd. unfold Math_round. f_equal.
  rewrite <- Qfloor_Qc_frac. f_equal. f_equal.
  rewrite Z2Qc_inj_add, !Z2Qc_inj_mul, Z2Qc_inj_2.
  assert (Qc_of_Z d ≠ 0%Qc) by (rewrite Qc_of_Z_eq_0; done).
  assert (Q2Qc (1 # 2) = (1 / 2)%Qc) as -> by (apply Qc_is_canon; reflexivity).
  field. split; [done|]. discriminate.
Qed.

Lemma round_div_nearest (n d : Z) :
  0 < d → - d < 2 * (round_div n d * d - n) ≤ d.
Proof.
  intros Hd. unfold round_div.
  pose proof (Z.mul_div_le (2 * n + d) (2 * d) ltac:(lia)).
  pose proof (Z.mul_succ_div_gt (2 * n + d) (2 * d) ltac:(lia)).
  lia.
Qed.

Lemma js_mul_comm (x y : number) : js_mul x y = js_mul y x.
Proof.
  destruct x, y; unfold js_mul; try done. by rewrite Qcmult_comm.
Qed.

(** An integer nearest to [n / d] is the rounded quotient, unless [n / d]
    lies halfway between two integers. *)
Lemma closest_not_halfway (z n d : Z) :
  0 < d → closest z n d → ¬ halfway n d → z = round_div n d.
Proof.
  unfold closest, halfway, round_div. intros Hd Hz Hh.
  pose proof (Z.div_mod (2 * n + d) (2 * d) ltac:(lia)) as Hdm.
  pose proof (Z.mod_pos_bound (2 * n + d) (2 * d) ltac:(lia)) as Hr.
  nia.
Qed.

Lemma pixels_bound (z : Z) : pixels z → 0 < z ≤ 2 ^ 49.
Proof. unfold pixels. lia. Qed.

(** [tw / (w / h)], rounded: what the resolver shows for a width target. *)
Lemma round_width_target (tw w h : Z) :
  pixels tw → pixels w → pixels h →
  ∃ rh, Math_round (js_div (of_Z tw) (js_div (of_Z w) (of_Z h))) = of_Z rh
        ∧ closest rh (tw * h) w.
Proof.
  intros Ht Hw Hh.
  destruct (divided_by_ratio tw w h (pixels_bound _ Ht) (pixels_bound _ Hw)
              (pixels_bound _ Hh)) as (r & -> & H1 & H2).
  apply Math_round_closest; [unfold pixels in *; lia | | done | done].
  unfold pixels in *. split; [nia|].
  assert (tw * h < 2 ^ 24 * 2 ^ 24) by nia. lia.
Qed.

(** [(w / h) * th], rounded: what the resolver and the pipeline compute for a
    height target, and the pipeline, with [w] and [h] exchanged, for a width
    target. *)
Lemma round_scaled (t n d : Z) :
  pixels t → pixels n → pixels d →
  ∃ r, Math_round (js_mul (js_div (of_Z n) (of_Z d)) (of_Z t)) = of_Z r
       ∧ closest r (t * n) d.
Proof.
  intros Ht Hn Hd.
  destruct (scaled_by_ratio t n d (pixels_bound _ Ht) (pixels_bound _ Hn)
              (pixels_bound _ Hd)) as (r & -> & H1 & H2).
  apply Math_round_closest; [unfold pixels in *; lia | | done | done].
  unfold pixels in *. split; [nia|].
  assert (t * n < 2 ^ 24 * 2 ^ 24) by nia. lia.
Qed.

Lemma parse_target_cases (s : option string) :
  parse_target s = None ∨ ∃ t, s = Some t ∧ t ≠ EmptyString ∧ parse_target s = Some (parseInt t).
Proof.
  unfold parse_target. destruct s as [t|]; [|by left].
  case_bool_decide; [by left|]. right. eauto.
Qed.

(** ** The dimension resolver *)

(** The resolver, case by case. *)
Lemma calculateFinalDimensions_spec (img : CompressedImage) (w h : Z) :
  pixels w → pixels h →
  dimensions img = Some (Dim.mk (of_Z w) (of_Z h)) →
  (parse_target (width img) = None → parse_target (height img) = None →
     calculateFinalDimensions img = Some (Dim.mk (of_Z w) (of_Z h)))
  ∧ (∀ tw th, 0 < tw → 0 < th →
       parse_target (width img) = Some (of_Z tw) →
       parse_target (height img) = Some (of_Z th) →
       calculateFinalDimensions img = Some (Dim.mk (of_Z tw) (of_Z th)))
  ∧ (∀ tw, pixels tw →
       parse_target (width img) = Some (of_Z tw) → parse_target (height img) = None →
       ∃ rh, calculateFinalDimensions img = Some (Dim.mk (of_Z tw) (of_Z rh))
             ∧ closest rh (tw * h) w)
  ∧ (∀ th, pixels th →
       parse_target (width img) = None → parse_target (height img) = Some (of_Z th) →
       ∃ rw, calculateFinalDimensions img = Some (Dim.mk (of_Z rw) (of_Z th))
             ∧ closest rw (th * w) h
             ∧ Math_round (js_mul (js_div (of_Z w) (of_Z h)) (of_Z th)) = of_Z rw).
Proof.
  intros Hw Hh Hd. split_and!.
  - intros Hx Hy. unfold calculateFinalDimensions. by rewrite Hd, Hx, Hy.
  - intros tw th Htw Hth Hx Hy. unfold calculateFinalDimensions.
    rewrite Hd, Hx, Hy. simpl. by rewrite !truthy_of_Z_pos.
  - intros tw Htw Hx Hy. unfold calculateFinalDimensions.
    rewrite Hd, Hx, Hy. simpl.
    rewrite truthy_of_Z_pos by (unfold pixels in Htw; lia). simpl.
    destruct (round_width_target tw w h Htw Hw Hh) as (rh & -> & Hrh). eauto.
  - intros th Hth Hx Hy. unfold calculateFinalDimensions.
    rewrite Hd, Hx, Hy. simpl.
    rewrite truthy_of_Z_pos by (unfold pixels in Hth; lia). simpl.
    rewrite js_mul_comm.
    destruct (round_scaled th w h Hth Hw Hh) as (rw & -> & Hrw). eauto.
Qed.

(** C4.  For an item whose original dimensions [w] and [h] are positive
    integers below [2^24]: with no target given the resolver returns the
    original; with both targets given (positive integers) it returns exactly
    them; with one target given, below [2^24], it returns that target and,
    for the other dimension, an integer nearest to the value that keeps the
    original aspect ratio: the quotient is computed in doubles, and where the
    exact value lies halfway between two integers either of them can come
    out.  The encode pipeline, run on a file of that size with the same
    targets, resolves the same width; it resolves the same height as well,
    except for a width target alone, where its height is again an integer
    nearest to the exact value: the resolver's, unless the exact value is
    halfway. *)
Theorem calculateFinalDimensions_correct (img : CompressedImage) (w h : Z) :
  pixels w → pixels h →
  dimensions img = Some (Dim.mk (of_Z w) (of_Z h)) →
  (parse_target (width img) = None → parse_target (height img) = None →
     calculateFinalDimensions img = Some (Dim.mk (of_Z w) (of_Z h)))
  ∧ (∀ tw th, 0 < tw → 0 < th →
       parse_target (width img) = Some (of_Z tw) →
       parse_target (height img) = Some (of_Z th) →
       calculateFinalDimensions img = Some (Dim.mk (of_Z tw) (of_Z th)))
  ∧ (∀ tw, pixels tw →
       parse_target (width img) = Some (of_Z tw) → parse_target (height img) = None →
       ∃ rh, calculateFinalDimensions img = Some (Dim.mk (of_Z tw) (of_Z rh))
             ∧ closest rh (tw * h) w)
  ∧ (∀ th, pixels th →
       parse_target (width img) = None → parse_target (height img) = Some (of_Z th) →
       ∃ rw, calculateFinalDimensions img = Some (Dim.mk (of_Z rw) (of_Z th))
             ∧ closest rw (th * w) h)
  ∧ (∀ b f q isPreview blob d,
       natural_size (blob_content (file_blob f)) = Dim.mk (of_Z w) (of_Z h) →
       target_ok (width img) → target_ok (height img) →
       compressImageWithJSquash b (Some f) q (parse_target (width img))
         (parse_target (height img)) isPreview = inr (blob, d) →
       ∃ rd, calculateFinalDimensions img = Some rd
             ∧ Dim.width d = Dim.width rd
             ∧ (parse_target (width img) = None ∨ parse_target (height img) ≠ None →
                d = rd)
             ∧ ∀ tw, parse_target (width img) = Some (of_Z tw) →
                     parse_target (height img) = None →
                     ∃ rh ph, Dim.height rd = of_Z rh ∧ Dim.height d = of_Z ph
                              ∧ closest rh (tw * h) w ∧ closest ph (tw * h) w
                              ∧ (¬ halfway (tw * h) w → d = rd)).
Proof.
  intros Hw Hh Hd.
  assert (Hw0 : 0 < w) by (unfold pixels in Hw; lia).
  destruct (calculateFinalDimensions_spec img w h Hw Hh Hd)
    as (Hnone & Hboth & Hwidth & Hheight).
  split_and!; try done.
  - intros th Hth Hx Hy. destruct (Hheight th Hth Hx Hy) as (rw & ? & ? & _). eauto.
  - intros b f q isPreview blob d Hnat Hx Hy.
    unfold compressImageWithJSquash, createImageBitmap. simpl.
    destruct (decodable b); [|done]. rewrite Hnat. simpl.
    destruct Hx as [Hx | (tw & Htw & Hx)], Hy as [Hy | (th & Hth & Hy)].
    + rewrite (Hnone Hx Hy), Hx, Hy. simpl.
      destruct (context2d b), (encoded b); simpl; try done.
      intros [= <- <-]. eexists. split; [done|]. split; [done|]. split; [done|].
      by intros tw Htw.
    + destruct (Hheight th Hth Hx Hy) as (rw & -> & Hrw & Hround).
      rewrite Hx, Hy. simpl.
      rewrite truthy_of_Z_pos by (unfold pixels in Hth; lia). simpl.
      rewrite Hround.
      destruct (context2d b), (encoded b); simpl; try done.
      intros [= <- <-]. eexists. split; [done|]. split; [done|]. split; [done|].
      by intros tw Htw.
    + destruct (Hwidth tw Htw Hx Hy) as (rh & -> & Hrh).
      rewrite Hx, Hy. simpl.
      rewrite truthy_of_Z_pos by (unfold pixels in Htw; lia). simpl.
      destruct (round_scaled tw h w Htw Hh Hw) as (ph & -> & Hph).
      destruct (context2d b), (encoded b); simpl; try done.
      intros [= <- <-]. eexists. split; [done|]. split; [done|]. split.
      { intros [? | ?]; congruence. }
      intros tw' Htw' _. assert (tw' = tw) as -> by (apply of_Z_inj; congruence).
      exists rh, ph. split_and!; try done.
      intros Hnh.
      rewrite (closest_not_halfway rh _ _ Hw0 Hrh Hnh).
      by rewrite (closest_not_halfway ph _ _ Hw0 Hph Hnh).
    + unfold pixels in Htw, Hth.
      rewrite (Hboth tw th ltac:(lia) ltac:(lia) Hx Hy), Hx, Hy. simpl.
      rewrite !truthy_of_Z_pos by lia. simpl.
      destruct (context2d b), (encoded b); simpl; try done.
      intros [= <- <-]. eexists. split; [done|]. split; [done|]. split; [done|].
      by intros tw' _ Hy'.
Qed.

Lemma js_div_by_zero (z : Z) : 0 < z → js_div (of_Z z) (of_Z 0) = Infinity.
Proof.
  intros Hz. rewrite !of_Z_eq. unfold js_div.
  rewrite (bool_decide_eq_true_2 (Qc_of_Z 0 = 0%Qc)) by exact Z2Qc_inj_0.
  rewrite (bool_decide_eq_false_2 (Qc_of_Z z = 0%Qc)) by (rewrite Qc_of_Z_eq_0; lia).
  rewrite bool_decide_eq_true_2; [done|].
  rewrite <- Z2Qc_inj_0. apply (proj1 (Z2Qc_inj_lt 0 z)). lia.
Qed.

Lemma js_div_by_Infinity (z : Z) : js_div (of_Z z) Infinity = Num 0%Qc.
Proof. done. Qed.

Lemma binary64_zero (q : Qc) : q = 0%Qc → binary64 q = Num 0%Qc.
Proof. intros ->. done. Qed.

Lemma js_div_zero_by (z : Z) : 0 < z → js_div (of_Z 0) (of_Z z) = Num 0%Qc.
Proof.
  intros Hz. rewrite !of_Z_eq. unfold js_div.
  assert (Hne : Qc_of_Z z ≠ 0%Qc) by (rewrite Qc_of_Z_eq_0; lia).
  rewrite bool_decide_eq_false_2 by done.
  apply binary64_zero. rewrite Z2Qc_inj_0. field. done.
Qed.

Lemma js_mul_by_zero (z : Z) : js_mul (of_Z z) (Num 0%Qc) = Num 0%Qc.
Proof.
  rewrite of_Z_eq. unfold js_mul. apply binary64_zero. ring.
Qed.

Lemma Math_round_zero : Math_round (Num 0%Qc) = of_Z 0.
Proof. vm_compute. reflexivity. Qed.

Lemma closest_range (z t n d : Z) :
  pixels t → pixels n → pixels d → closest z (t * n) d → 0 ≤ z ≤ 2 ^ 49.
Proof.
  unfold pixels, closest. intros Ht Hn Hd Hz.
  assert (t * n < 2 ^ 24 * 2 ^ 24) by nia.
  split; [nia|].
  destruct (decide (z ≤ 0)) as [|Hpos]; [lia|].
  assert (2 * z - 1 ≤ d * (2 * z - 1)) by nia. lia.
Qed.

(** One side of a product bound, divided by the positive factor. *)
Lemma Qmult_le_cancel (a b t : Q) : (0 < t)%Q → (a * t <= b * t)%Q → (a <= b)%Q.
Proof.
  intros Ht H. apply Qnot_lt_le. intros Hlt.
  assert ((0 < (a - b) * t)%Q) by (apply Qmult_lt_0_compat; lra). lra.
Qed.

Lemma closest_integer (z p : Z) : closest z p 1 → z = p.
Proof. unfold closest. lia. Qed.

(** Resolving a height from a width target, then again from the result. *)
Lemma round_width_again (tw rh : Z) :
  pixels tw → 0 ≤ rh ≤ 2 ^ 49 →
  Math_round (js_div (of_Z tw) (js_div (of_Z tw) (of_Z rh))) = of_Z rh.
Proof.
  intros Ht Hr. pose proof (pixels_bound _ Ht) as Ht'.
  destruct (decide (rh = 0)) as [-> | Hne].
  { rewrite js_div_by_zero by lia. rewrite js_div_by_Infinity. apply Math_round_zero. }
  destruct (divided_by_ratio tw tw rh Ht' Ht' ltac:(lia)) as (r & -> & H1 & H2).
  rewrite inject_Z_mult in H1, H2.
  pose proof (inject_Z_pos tw ltac:(lia)) as HT.
  destruct (Math_round_closest r rh 1) as (z & -> & Hz); [lia | lia | | |].
  - change (inject_Z 1) with 1%Q. apply (Qmult_le_cancel _ _ (inject_Z tw)); [done|].
    revert H1. generalize (inject_Z tw) (inject_Z rh) (this r) two_roundings.
    intros T R x c H1. lra.
  - change (inject_Z 1) with 1%Q. apply (Qmult_le_cancel _ _ (inject_Z tw)); [done|].
    revert H2. generalize (inject_Z tw) (inject_Z rh) (this r) two_roundings.
    intros T R x c H2. lra.
  - by rewrite (closest_integer _ _ Hz).
Qed.

(** Resolving a width from a height target, then again from the result. *)
Lemma round_height_again (th rw : Z) :
  pixels th → 0 ≤ rw ≤ 2 ^ 49 →
  Math_round (js_mul (of_Z th) (js_div (of_Z rw) (of_Z th))) = of_Z rw.
Proof.
  intros Ht Hr. pose proof (pixels_bound _ Ht) as Ht'.
  destruct (decide (rw = 0)) as [-> | Hne].
  { rewrite js_div_zero_by by lia. rewrite js_mul_by_zero. apply Math_round_zero. }
  rewrite js_mul_comm.
  destruct (scaled_by_ratio th rw th Ht' ltac:(lia) Ht') as (r & -> & H1 & H2).
  rewrite inject_Z_mult in H1, H2.
  pose proof (inject_Z_pos th ltac:(lia)) as HT.
  destruct (Math_round_closest r rw 1) as (z & -> & Hz); [lia | lia | | |].
  - change (inject_Z 1) with 1%Q. apply (Qmult_le_cancel _ _ (inject_Z th)); [done|].
    revert H1. generalize (inject_Z th) (inject_Z rw) (this r) two_roundings.
    intros T R x c H1. lra.
  - change (inject_Z 1) with 1%Q. apply (Qmult_le_cancel _ _ (inject_Z th)); [done|].
    revert H2. generalize (inject_Z th) (inject_Z rw) (this r) two_roundings.
    intros T R x c H2. lra.
  - by rewrite (closest_integer _ _ Hz).
Qed.

(** C9.  The resolver returns a result exactly when the item has dimensions.
    For original dimensions and targets that are positive integers below
    [2^24] (a target can also be absent), resolving again from the resolved
    dimensions, with the same targets, gives the same result. *)
Theorem calculateFinalDimensions_idempotent (img : CompressedImage) (w h : Z) :
  pixels w → pixels h →
  dimensions img = Some (Dim.mk (of_Z w) (of_Z h)) →
  target_ok (width img) → target_ok (height img) →
  (∀ other, calculateFinalDimensions other = None ↔ dimensions other = None)
  ∧ ∃ d, calculateFinalDimensions img = Some d
         ∧ calculateFinalDimensions (with_dimensions (Some d) img) = Some d.
Proof.
  intros Hw Hh Hd Hx Hy. split.
  { intros other. unfold calculateFinalDimensions. destruct (dimensions other); [|done].
    repeat case_match; naive_solver. }
  destruct (calculateFinalDimensions_spec img w h Hw Hh Hd) as (Hnone & Hboth & Hwidth & Hheight).
  destruct Hx as [Hx | (tw & Htw & Hx)], Hy as [Hy | (th & Hth & Hy)].
  - eexists. split; [by apply Hnone|].
    unfold calculateFinalDimensions. simpl. by rewrite Hx, Hy.
  - destruct (Hheight th Hth Hx Hy) as (rw & -> & Hrw & _). eexists. split; [done|].
    unfold calculateFinalDimensions. simpl. rewrite Hx, Hy. simpl.
    rewrite truthy_of_Z_pos by (unfold pixels in Hth; lia). simpl.
    rewrite (round_height_again th rw Hth); [done|].
    by apply (closest_range rw th w h).
  - destruct (Hwidth tw Htw Hx Hy) as (rh & -> & Hrh). eexists. split; [done|].
    unfold calculateFinalDimensions. simpl. rewrite Hx, Hy. simpl.
    rewrite truthy_of_Z_pos by (unfold pixels in Htw; lia). simpl.
    rewrite (round_width_again tw rh Htw); [done|].
    by apply (closest_range rh tw h w).
  - unfold pixels in Htw, Hth.
    eexists. split; [apply (Hboth tw th); [lia | lia | done | done]|].
    unfold calculateFinalDimensions. simpl. rewrite Hx, Hy. simpl.
    by rewrite !truthy_of_Z_pos by lia.
Qed.

(** ** The size formatter *)

Lemma floor_log_fuel_spec (fuel : nat) (k b : N) :
  (2 ≤ k)%N → (1 ≤ b)%N → (b < 2 ^ N.of_nat fuel)%N →
  let i := N.of_nat (floor_log_fuel fuel k b) in
  (k ^ i ≤ b < k ^ (i + 1))%N.
Proof.
  intros Hk. revert b. induction fuel as [|fuel IH]; intros b Hb Hlt.
  { simpl in Hlt. lia. }
  cbn [floor_log_fuel]. case_bool_decide as Hbk.
  { simpl. rewrite N.pow_1_r. lia. }
  assert (Hq : (1 ≤ b / k)%N).
  { apply N.div_le_lower_bound; lia. }
  assert (Hq2 : (b / k < 2 ^ N.of_nat fuel)%N).
  { apply N.Div0.div_lt_upper_bound.
    rewrite Nat2N.inj_succ, N.pow_succ_r' in Hlt. nia. }
  specialize (IH (b / k)%N Hq Hq2). cbv zeta in IH.
  set (i := N.of_nat (floor_log_fuel fuel k (b / k))) in *.
  rewrite Nat2N.inj_succ. cbv zeta.
  rewrite <- !N.add_1_r in *. rewrite !N.pow_add_r, !N.pow_1_r in *.
  pose proof (N.Div0.mul_div_le b k).
  pose proof (N.mul_succ_div_gt b k ltac:(lia)).
  destruct IH as [IH1 IH2].
  pose proof (N.mul_le_mono_l _ _ k IH1).
  assert (b / k + 1 ≤ k ^ i * k)%N as IH3 by lia.
  pose proof (N.mul_le_mono_l _ _ k IH3).
  fold i. clear Hlt Hq2. generalize dependent (k ^ i)%N. generalize dependent (b / k)%N.
  intros. lia.
Qed.

Lemma floor_log_spec (k b : N) :
  (2 ≤ k)%N → (1 ≤ b)%N →
  let i := N.of_nat (floor_log k b) in
  (k ^ i ≤ b < k ^ (i + 1))%N.
Proof.
  intros Hk Hb. apply floor_log_fuel_spec; [done..|].
  rewrite N2Nat.id. apply N.size_gt.
Qed.

Lemma floor_log_lt (k b : N) (n : nat) :
  (2 ≤ k)%N → (1 ≤ b)%N →
  (floor_log k b < n)%nat ↔ (b < k ^ N.of_nat n)%N.
Proof.
  intros Hk Hb. pose proof (floor_log_spec k b Hk Hb) as [H1 H2]. cbv zeta in *.
  split.
  - intros Hlt. eapply N.lt_le_trans; [exact H2|].
    apply N.pow_le_mono_r; lia.
  - intros Hlt. destruct (decide (floor_log k b < n)%nat) as [|Hge]; [done|].
    exfalso. assert (k ^ N.of_nat n ≤ k ^ N.of_nat (floor_log k b))%N.
    { apply N.pow_le_mono_r; lia. }
    lia.
Qed.

(** The number [formatSize] prints: below [2^53 / 100] bytes the division by
    the power of 1024 and the multiplication by 100 are exact, and
    [Math.round((bytes / Math.pow(k, i)) * 100)] is the integer nearest to
    [100 * bytes / k ^ i]. *)
Lemma scaled_hundredths (b i : Z) :
  0 < b → 100 * b < 2 ^ 53 → 0 ≤ i ≤ 100 →
  Math_round (js_mul (js_div (of_Z b) (of_Z (1024 ^ i))) (of_Z 100))
  = of_Z (round_div (100 * b) (1024 ^ i)).
Proof.
  intros Hb Hb2 Hi.
  assert (Hp : 1024 ^ i = 2 ^ (10 * i)).
  { change 1024 with (2 ^ 10). by rewrite <- Z.pow_mul_r by lia. }
  rewrite Hp.
  rewrite js_div_pow2 by lia. rewrite js_mul_pow2 by lia.
  rewrite Math_round_frac by (apply Z.pow_nonzero; lia).
  unfold round_div. by rewrite (Z.mul_comm b 100).
Qed.

(** For any size the scaled value is a number that rounds to an integer. *)
Lemma scaled_hundredths_exist (b p : Z) :
  0 < p → p ≤ b < 1024 * p →
  ∃ hundredths, Math_round (js_mul (js_div (of_Z b) (of_Z p)) (of_Z 100)) = of_Z hundredths.
Proof.
  intros Hp Hb. rewrite !of_Z_eq. unfold js_div.
  assert (Hne : Qc_of_Z p ≠ 0%Qc) by (rewrite Qc_of_Z_eq_0; lia).
  rewrite bool_decide_eq_false_2 by done.
  pose proof (inject_Z_pos p Hp) as HP.
  assert (Hq : (1 <= (Qc_of_Z b / Qc_of_Z p)%Qc)%Q
               ∧ ((Qc_of_Z b / Qc_of_Z p)%Qc <= 1024 # 1)%Q).
  { rewrite Qcdiv_Q, !Qc_of_Z_Q.
    assert (H1 : (inject_Z p <= inject_Z b)%Q) by (rewrite <- Zle_Qle; lia).
    assert (H2 : (inject_Z b <= (1024 # 1) * inject_Z p)%Q).
    { change (1024 # 1)%Q with (inject_Z 1024). rewrite <- inject_Z_mult, <- Zle_Qle. lia. }
    assert (Hx : (inject_Z b == (inject_Z b / inject_Z p) * inject_Z p)%Q) by (field; lra).
    revert H1 H2 Hx HP. generalize (inject_Z b / inject_Z p)%Q (inject_Z b) (inject_Z p).
    intros x B P H1 H2 Hx HP. split.
    - apply (Qmult_le_cancel _ _ P); [done | lra].
    - apply (Qmult_le_cancel _ _ P); [done | lra]. }
  destruct Hq as [Hq1 Hq2].
  destruct (binary64_relative (Qc_of_Z b / Qc_of_Z p)%Qc) as (r & -> & Hr1 & Hr2).
  { eapply Qle_trans; [|exact Hq1]. discriminate. }
  { eapply Qle_trans; [exact Hq2|]. discriminate. }
  destruct (js_mul_relative r (Qc_of_Z 100)) as (r' & Hr' & _).
  - discriminate.
  - discriminate.
  - unfold half_ulp in *. revert Hq1 Hr1. generalize (this (Qc_of_Z b / Qc_of_Z p)%Qc) (this r).
    intros x y Hq1 Hr1. write_out_powers. lra.
  - unfold half_ulp in *. revert Hq2 Hr2. generalize (this (Qc_of_Z b / Qc_of_Z p)%Qc) (this r).
    intros x y Hq2 Hr2. write_out_powers. lra.
  - rewrite Hr'. rewrite Math_round_Num. eauto.
Qed.

Lemma formatSize_nonzero (b : N) :
  (1 ≤ b)%N →
  let i := floor_log 1024 b in
  formatSize b
  = (number_toString
       (js_div (Math_round (js_mul (js_div (of_Z (Z.of_N b)) (of_Z (1024 ^ Z.of_nat i)))
                                   (of_Z 100)))
               (of_Z 100))
       +:+ " " +:+ unit_suffix i)%string.
Proof.
  intros Hb i. unfold formatSize. rewrite bool_decide_eq_false_2 by lia.
  fold i. unfold of_N. rewrite N2Z.inj_pow, nat_N_Z.
  reflexivity.
Qed.

(** C10.  [formatSize 0] is "0 Bytes".  For [1 <= b < 1024^3] the unit index
    [i], the exact floor of the logarithm of [b] in base 1024, lies within
    [sizes], and the result is [b / 1024^i] rounded to hundredths, a space and
    the unit.  From [1024^3] on the index is outside [sizes] and the suffix
    reads "undefined". *)
Theorem formatSize_units :
  formatSize 0 = "0 Bytes"
  ∧ (∀ b : N, (1 ≤ b < 1024 ^ 3)%N →
       ∃ (i : nat) (unit : string) (hundredths : Z),
         i = floor_log 1024 b
         ∧ (1024 ^ N.of_nat i ≤ b < 1024 ^ (N.of_nat i + 1))%N
         ∧ sizes !! i = Some unit
         ∧ nearest hundredths (100 * Z.of_N b) (1024 ^ Z.of_nat i)
         ∧ formatSize b
           = (number_toString (js_div (of_Z hundredths) (of_Z 100))
                +:+ " " +:+ unit)%string)
  ∧ (∀ b : N, (1024 ^ 3 ≤ b)%N →
       ∃ hundredths : Z,
         sizes !! floor_log 1024 b = None
         ∧ formatSize b
           = (number_toString (js_div (of_Z hundredths) (of_Z 100))
                +:+ " undefined")%string).
Proof.
  split_and!; [reflexivity| |].
  - intros b [Hb1 Hb2].
    pose proof (floor_log_spec 1024 b ltac:(lia) Hb1) as Hspec. cbv zeta in Hspec.
    assert (Hi : (floor_log 1024 b < 3)%nat) by (apply floor_log_lt; [lia | done | done]).
    destruct (lookup_lt_is_Some_2 sizes (floor_log 1024 b) Hi) as [unit Hunit].
    exists (floor_log 1024 b), unit, (round_div (100 * Z.of_N b) (1024 ^ Z.of_nat (floor_log 1024 b))).
    split; [reflexivity|]. split; [exact Hspec|]. split; [exact Hunit|]. split.
    + apply round_div_nearest. apply Z.pow_pos_nonneg; lia.
    + rewrite formatSize_nonzero by done. cbv zeta.
      rewrite scaled_hundredths by lia. unfold unit_suffix. by rewrite Hunit.
  - intros b Hb.
    assert (Hi : ¬ (floor_log 1024 b < 3)%nat).
    { rewrite floor_log_lt by lia. change (N.of_nat 3) with 3%N. lia. }
    assert (Hnone : sizes !! floor_log 1024 b = None).
    { apply lookup_ge_None_2. change (List.length sizes) with 3%nat. lia. }
    pose proof (floor_log_spec 1024 b ltac:(lia) ltac:(lia)) as Hspec. cbv zeta in Hspec.
    destruct (scaled_hundredths_exist (Z.of_N b) (1024 ^ Z.of_nat (floor_log 1024 b)))
      as (hundredths & Hh).
    { apply Z.pow_pos_nonneg; lia. }
    { rewrite N.pow_add_r, N.pow_1_r in Hspec.
      rewrite <- nat_N_Z, <- (N2Z.inj_pow 1024). lia. }
    exists hundredths. split; [exact Hnone|].
    rewrite formatSize_nonzero by lia. cbv zeta. rewrite Hh.
    unfold unit_suffix. by rewrite Hnone.
Qed.

(** ** The rounding claims on concrete sizes *)

(** C4 fails on the code where the aspect-preserving value is halfway
    between two integers, and for large targets.  An image of 123 by 300
    with the height target 150 resolves to the width 61, the exact value
    being 61.5; an image of 128 by 300 with the width target 400 resolves to
    the height 937 on the card and is encoded 938 pixels high, the exact
    value being 937.5; an image of 1 by 4034 with the width target
    1011200465718 resolves to a height one above the exact value, which is
    an integer. *)
Lemma halfway_and_large_targets :
  calculateFinalDimensions (sized 123 300 "" "150")
  = Some (Dim.mk (of_Z 61) (of_Z 150))
  ∧ ¬ nearest 61 (150 * 123) 300
  ∧ calculateFinalDimensions (sized 128 300 "400" "")
    = Some (Dim.mk (of_Z 400) (of_Z 937))
  ∧ (∃ blob, encode_result (answers 10)
               (with_file (upload 128 300) (sized 128 300 "400" "")) true
             = inr (blob, Dim.mk (of_Z 400) (of_Z 938)))
  ∧ calculateFinalDimensions (sized 1 4034 "1011200465718" "")
    = Some (Dim.mk (of_Z 1011200465718) (of_Z 4079182678706413))
  ∧ 1011200465718 * 4034 = 4079182678706412 * 1
  ∧ ¬ closest 4079182678706413 (1011200465718 * 4034) 1.
Proof.
  split_and!.
  - vm_compute. reflexivity.
  - unfold nearest. lia.
  - vm_compute. reflexivity.
  - eexists. vm_compute. reflexivity.
  - vm_compute. reflexivity.
  - reflexivity.
  - unfold closest. lia.
Qed.

(** C9 fails on the code for large targets.  An image of 4624 by 4377 with
    the width target 3185237619192926 resolves to the height
    3015091924569083; resolved again from that result, with the same target,
    to the height 3015091924569084. *)
Lemma resolving_twice_differs :
  let img := sized 4624 4377 "3185237619192926" "" in
  let once := Dim.mk (of_Z 3185237619192926) (of_Z 3015091924569083) in
  let twice := Dim.mk (of_Z 3185237619192926) (of_Z 3015091924569084) in
  calculateFinalDimensions img = Some once
  ∧ calculateFinalDimensions (with_dimensions (Some once) img) = Some twice
  ∧ once ≠ twice.
Proof.
  split_and!.
  - vm_compute. reflexivity.
  - vm_compute. reflexivity.
  - intros H. apply (f_equal Dim.height) in H. simpl in H. apply of_Z_inj in H. lia.
Qed.

(** ** Instances *)

Lemma calculateFinalDimensions_correct_witness :
  calculateFinalDimensions (sized 1000 500 "400" "")
  = Some (Dim.mk (of_Z 400) (of_Z 200)).
Proof.
  destruct (calculateFinalDimensions_correct (sized 1000 500 "400" "") 1000 500
              ltac:(unfold pixels; lia) ltac:(unfold pixels; lia) eq_refl)
    as (_ & _ & H & _).
  destruct (H 400%Z ltac:(unfold pixels; lia) ltac:(vm_compute; reflexivity) eq_refl)
    as (rh & -> & Hrh).
  unfold closest in Hrh. assert (rh = 200%Z) as -> by lia. reflexivity.
Defined.

Lemma calculateFinalDimensions_idempotent_witness :
  ∃ d, calculateFinalDimensions (sized 1000 500 "400" "") = Some d
       ∧ calculateFinalDimensions (with_dimensions (Some d) (sized 1000 500 "400" ""))
         = Some d.
Proof.
  refine (proj2 (calculateFinalDimensions_idempotent (sized 1000 500 "400" "") 1000 500
                   _ _ eq_refl _ _)).
  - unfold pixels; lia.
  - unfold pixels; lia.
  - right. exists 400%Z. split; [unfold pixels; lia | vm_compute; reflexivity].
  - left. reflexivity.
Defined.

Lemma formatSize_units_witness : formatSize 1536 = "1.5 KB"%string.
Proof.
  destruct formatSize_units as (_ & H & _).
  destruct (H 1536%N ltac:(lia)) as (i & unit & h & -> & _ & Hunit & Hh & ->).
  change (floor_log 1024 1536) with 1%nat in *.
  injection Hunit as <-. unfold nearest in Hh.
  assert (h = 150%Z) as -> by lia. vm_compute. reflexivity.
Defined.

(** ** Object URLs and finished encodes *)

Local Open Scope nat_scope.

Lemma live_spec (u : URL) (w : World) :
  live u w = true ↔ ∃ blob, objectURLs w !! u = Some (Some blob).
Proof.
  unfold live, fetch. rewrite bool_decide_eq_true.
  destruct (objectURLs w !! u) as [[blob|]|]; simpl; split;
    try (intros [? ?]; done); eauto.
Qed.










Lemma compressImageWithJSquash_fails (b : Browser) (f : File) (q : option number)
    (tw th : option number) (isPreview : bool) :
  decodable b = false ∨ context2d b = false ∨ encoded b = None →
  compressImageWithJSquash b (Some f) q tw th isPreview = inl (failure_of b).
Proof.
  intros H. unfold compressImageWithJSquash, createImageBitmap, failure_of. simpl.
  destruct (decodable b); [|done]. simpl.
  destruct (context2d b); simpl.
  - destruct (encoded b); [by destruct H as [? | [? | ?]]|].
    by destruct (truthy_opt tw), (truthy_opt th).
  - by destruct (truthy_opt tw), (truthy_opt th).
Qed.


Lemma createCroppedImage_fails (b : Browser) (fetched : option Blob) (area : Area) :
  context2d b = false ∨ png b = None →
  ∃ e, createCroppedImage b fetched area = inl e.
Proof.
  intros H. unfold createCroppedImage.
  destruct fetched; [|eauto]. destruct (createImageBitmap b _); [|eauto].
  destruct (context2d b); simpl; [|eauto].
  destruct (png b); [by destruct H | eauto].
Qed.

(** C6.  When the canvas gives no context or [toBlob] gives no blob, the
    crop reports an error toast and changes nothing else: the items, the URL
    store, the tasks, the timers and the crop modal are as before. *)
Theorem crop_failure_leaves_item (w : World) (index : nat) (fetched : option Blob)
    (area : Area) (b : Browser) :
  context2d b = false ∨ png b = None →
  let w' := applyCrop_resume b index fetched area w in
  images w' = images w
  ∧ toasts w'
    = toasts w ++ [mkToast "Error" (Text "Hubo un problema al recortar la imagen") true]
  ∧ (∃ e, console w' = console w ++ [ErrorAlRecortar e])
  ∧ objectURLs w' = objectURLs w
  ∧ inflight w' = inflight w
  ∧ timeouts w' = timeouts w
  ∧ cropModalOpen w' = cropModalOpen w
  ∧ currentCropIndex w' = currentCropIndex w
  ∧ croppedAreaPixels w' = croppedAreaPixels w
  ∧ fault w' = fault w.
Proof.
  intros H. destruct (createCroppedImage_fails b fetched area H) as [e He].
  cbv zeta. unfold applyCrop_resume. rewrite He. simpl.
  split_and!; eauto.
Qed.

(** ** The settings of an item *)

Local Open Scope Z_scope.

Lemma store_lookup {index : nat} {e : Entry} {l : list Entry} :
  store index e l !! index = Some e.
Proof.
  unfold store. case_bool_decide as Hlt.
  - by apply list_lookup_insert_eq.
  - rewrite lookup_app_r by lia. rewrite lookup_app_r by (rewrite length_replicate; lia).
    rewrite length_replicate. by replace (_ - _ - _)%nat with 0%nat by lia.
Qed.

Lemma store_in_range (index : nat) (e : Entry) (l : list Entry) :
  (index < List.length l)%nat → store index e l = <[index := e]> l.
Proof. intros H. unfold store. by rewrite bool_decide_eq_true_2. Qed.

Lemma store_Forall (P : Entry → Prop) (index : nat) (e : Entry) (l : list Entry) :
  P Undefined → P e → Forall P l → Forall P (store index e l).
Proof.
  intros Hu He Hl. unfold store. case_bool_decide.
  - by apply Forall_insert.
  - apply Forall_app_2; [done|]. apply Forall_app_2; [|by constructor].
    by apply Forall_replicate.
Qed.

Lemma spread_in_range (l : list Entry) (index : nat) :
  Forall entry_in_range l → quality_in_range (spread (l !! index)).
Proof.
  intros Hl. destruct (l !! index) as [[img|]|] eqn:E; simpl; try by intros q.
  by apply (Forall_lookup_1 _ _ _ _ Hl E).
Qed.

Lemma update_item_in_range index change w :
  keeps_quality change → settings_in_range w → settings_in_range (update_item index change w).
Proof.
  intros Hc [Hi Ht]. unfold update_item. split; [|done]. simpl.
  apply store_Forall; [done | | done]. simpl. by apply Hc, spread_in_range.
Qed.

Lemma revoke_in_range u w : settings_in_range w → settings_in_range (revoke u w).
Proof. by destruct u. Qed.

Lemma assign_preview_in_range index change w :
  keeps_quality change → settings_in_range w → settings_in_range (assign_preview index change w).
Proof.
  intros Hc [Hi Ht]. unfold assign_preview.
  destruct (images w !! index) as [[img|]|] eqn:E; [|done..].
  assert (quality_in_range (change img)).
  { apply Hc. by apply (Forall_lookup_1 _ _ _ _ Hi E). }
  split; destruct (compressedPreview img); simpl; try done; by apply Forall_insert.
Qed.

Lemma spawn_in_range t w :
  task_in_range t → settings_in_range w → settings_in_range (spawn t w).
Proof.
  intros Ht [Hi Hts]. split; [done|]. simpl. apply Forall_app_2; [done|].
  by constructor.
Qed.

Lemma new_image_in_range f url d : quality_in_range (new_image f url d).
Proof. intros q [= <-]. exists 75. done. Qed.

Lemma build_images_spec files : ∀ w,
  Forall quality_in_range (build_images files w).1
  ∧ images (build_images files w).2 = images w
  ∧ inflight (build_images files w).2 = inflight w.
Proof.
  induction files as [|f rest IH]; intros w; [done|].
  simpl. specialize (IH (getImageDimensions f (createObjectURL (file_blob f) w).2).2).
  destruct (build_images rest _) as [imgs w'] eqn:E. simpl in *.
  destruct IH as (IH1 & IH2 & IH3). split_and!; [|done..].
  constructor; [|done]. apply new_image_in_range.
Qed.

Lemma handleFileInput_in_range files w :
  settings_in_range w → settings_in_range (handleFileInput files w).
Proof.
  intros [Hi Ht]. unfold handleFileInput.
  pose proof (build_images_spec files w) as (H1 & H2 & H3).
  destruct (build_images files w) as [imgs w']. simpl in *.
  apply spawn_in_range; [done|]. split; congruence.
Qed.

Lemma fire_in_range t w : settings_in_range w → settings_in_range (fire t w).
Proof.
  intros H. unfold fire, updatePreview.
  destruct (timeout_render t !! timeout_index t) as [[img|]|]; [|done..].
  apply spawn_in_range; [done|]. apply update_item_in_range; [|done].
  by intros img'.
Qed.

Lemma run_timers_in_range fuel until : ∀ w,
  settings_in_range w → settings_in_range (run_timers fuel until w).
Proof.
  induction fuel as [|fuel IH]; intros w H; [done|].
  simpl. destruct (earliest _); [|done]. by apply IH, fire_in_range.
Qed.

Lemma settle_task_in_range b t w :
  task_in_range t → settings_in_range w → settings_in_range (settle_task b t w).
Proof.
  intros Ht H. destruct t as [newImages | index img | index img | index fetched area]; simpl.
  - destruct H as [Hi Hts]. split; [|done]. simpl. apply Forall_app_2; [done|].
    apply Forall_fmap. by eapply Forall_impl.
  - unfold updatePreview_resume.
    destruct (compressImageWithJSquash _ _ _ _ _ _) as [e | [blob d]].
    + apply update_item_in_range; [by intros ?|done].
    + apply assign_preview_in_range; [by intros ?|done].
  - unfold compressImage_resume.
    destruct (compressImageWithJSquash _ _ _ _ _ _) as [e | [blob d]].
    + apply update_item_in_range; [by intros ?|done].
    + apply (assign_preview_in_range index _ (createObjectURL blob w).2); [by intros ?|done].
  - unfold applyCrop_resume.
    destruct (createCroppedImage _ _ _) as [e | [f blob]]; [done|].
    simpl. unfold replace_source. simpl.
    destruct H as [Hi Hts].
    destruct (images w !! index) as [[img|]|] eqn:E; [|done..].
    assert (quality_in_range img) by (by apply (Forall_lookup_1 _ _ _ _ Hi E)).
    split; destruct (preview img), (compressedPreview img); simpl; try done;
      by apply Forall_insert.
Qed.

Lemma step_in_range e w :
  from_slider e → settings_in_range w → settings_in_range (step e w).
Proof.
  intros He H. destruct e as [files|files|index|index|index s|index|area| | |ms|k b]; simpl.
  - by apply handleFileInput_in_range.
  - unfold handleDrop. destruct (List.filter _ files); [done|].
    by apply handleFileInput_in_range.
  - destruct (images w !! index) as [[img|]|] eqn:E; [|done..].
    unfold removeImage. rewrite E. destruct H as [Hi Ht].
    split; destruct (preview img), (compressedPreview img); simpl; try done;
      by apply Forall_delete.
  - destruct (images w !! index) as [[img|]|] eqn:E; [|done..].
    destruct (can_compress img); [|done].
    unfold compressImage. rewrite E.
    apply spawn_in_range; [done|]. apply update_item_in_range; [by intros ?|done].
  - destruct (images w !! index) as [[img|]|] eqn:E; [|done..].
    unfold updateImageSettings.
    assert (H' : settings_in_range (update_item index (apply_setting s) w)).
    { apply update_item_in_range; [|done]. intros img' Hq.
      destruct s as [value|value|value]; simpl; [|done..].
      intros q [= <-]. done. }
    destruct (previewTimeoutRefs _ !! index) as [id|]; [|done].
    by case_bool_decide.
  - destruct (images w !! index) as [[img|]|]; [|done..]. by destruct (is_processing img).
  - destruct (cropModalOpen w), (currentCropIndex w) as [index|]; try done.
    by destruct (images w !! index) as [[img|]|].
  - by destruct (cropModalOpen w).
  - destruct (cropModalOpen w); [|done]. unfold applyCrop.
    destruct (currentCropIndex w) as [index|], (croppedAreaPixels w); try done.
    destruct (images w !! index) as [[img|]|]; [|done..]. by apply spawn_in_range.
  - unfold elapse.
    pose proof (run_timers_in_range (List.length (timeouts w)) (clock w + ms)%nat w H)
      as [Hi Ht].
    by split.
  - destruct (inflight w !! k) as [t|] eqn:E; [|done].
    destruct H as [Hi Ht].
    apply settle_task_in_range; [by eapply Forall_lookup_1|].
    split; [done|]. simpl. by apply Forall_delete.
Qed.

Lemma run_in_range events : ∀ w,
  Forall from_slider events → settings_in_range w → settings_in_range (run events w).
Proof.
  induction events as [|e events IH]; intros w He H; [done|].
  apply Forall_cons_1 in He as [He Hes].
  simpl. apply IH; [done|]. by apply step_in_range.
Qed.

Lemma both_empty_keeps_dimensions (img : CompressedImage) :
  parse_target (width img) = None → parse_target (height img) = None →
  calculateFinalDimensions img = dimensions img.
Proof.
  intros Hx Hy. unfold calculateFinalDimensions. rewrite Hx, Hy.
  by destruct (dimensions img).
Qed.

Lemma updateImageSettings_images (render : list Entry) (index : nat)
    (s : Setting) (w : World) :
  images (updateImageSettings render index s w)
  = images (update_item index (apply_setting s) w).
Proof.
  unfold updateImageSettings.
  destruct (previewTimeoutRefs _ !! index) as [id|]; [|done].
  by case_bool_decide.
Qed.

(** C8, as the code has it.  From a state in which every quality that is set
    is an integer within 1..100, any sequence of events in which the quality
    slider passes integers within 1..100 leads to such a state: ingestion,
    setting updates, crops, compresses, removals, timers and task completions
    keep it, and the initial state has it.  A new item has quality 75 and
    empty width and height; an object with no target resolves to its original
    dimensions.  The width and height fields hold whatever text was entered
    last: no sign check is made. *)
Theorem settings_stay_in_range (events : list Event) (w : World) :
  settings_in_range w → Forall from_slider events →
  settings_in_range initial
  ∧ settings_in_range (run events w)
  ∧ (∀ img, Object img ∈ images (run events w) →
       quality_in_range img
       ∧ (parse_target (width img) = None → parse_target (height img) = None →
          calculateFinalDimensions img = dimensions img))
  ∧ (∀ f url d, quality (new_image f url d) = Some (of_Z 75)
                ∧ width (new_image f url d) = Some EmptyString
                ∧ height (new_image f url d) = Some EmptyString)
  ∧ (∀ (index : nat) (value : string) (w0 : World) (img : CompressedImage),
       images w0 !! index = Some (Object img) →
       object_at index (images (step (ChangeSetting index (Width value)) w0))
       = Some (with_width value img)
       ∧ object_at index (images (step (ChangeSetting index (Height value)) w0))
         = Some (with_height value img)).
Proof.
  intros Hw He.
  pose proof (run_in_range events w He Hw) as Hrun.
  refine (conj _ (conj Hrun (conj _ (conj _ _)))).
  - unfold settings_in_range. simpl. split; apply Forall_nil_2.
  - intros img Hin. split; [|apply both_empty_keeps_dimensions].
    destruct Hrun as [Hi _]. rewrite Forall_forall in Hi.
    by apply (Hi (Object img)), list_elem_of_In.
  - done.
  - intros index value w0 img Himg.
    pose proof (lookup_lt_Some _ _ _ Himg) as Hlt. simpl. rewrite Himg.
    rewrite !updateImageSettings_images. unfold update_item, object_at. rewrite Himg. simpl.
    by rewrite !store_lookup.
Qed.

(** ** The debounce scheduler *)

(** C1 on the spec's example.  Quality goes 75, 60, 80 within the quiet
    window and the window elapses: one preview regeneration is dispatched,
    and it takes the settings of the render that armed the last timer, the
    quality 60 of before the last edit, while the item's quality is 80; the
    preview then shown was encoded at quality 60. *)
Theorem debounce_encodes_stale_settings :
  (quality <$> object_at 0%nat (images (run two_edits loaded))) = Some (Some (of_Z 80))
  ∧ (∃ img, inflight (run two_edits loaded) = [PreviewTask 0%nat img]
            ∧ quality img = Some (of_Z 60))
  ∧ (blob_content <$> displayed 0%nat (run (two_edits ++ [Settle 0%nat (answers 1000)]) loaded))
    = Some (Avif (of_Z 1000) (of_Z 500)
                 (drawImage3 (Uploaded 0%nat (Dim.mk (of_Z 1000) (of_Z 500)))
                             (of_Z 0) (of_Z 0))
                 (Some (of_Z 60)) (of_Z 8)).
Proof.
  split_and!.
  - vm_compute. reflexivity.
  - eexists. split; vm_compute; reflexivity.
  - vm_compute. reflexivity.
Qed.

(** ** The claims on concrete runs *)

Local Open Scope nat_scope.


(** C5 fails on the code: a crop does not keep to the item it was made of, nor
    does it return the item to an editable state, when other work is pending.
    - The quality of the only item is edited, the crop dialog opened and an
      area chosen; the quiet window elapses, so a regeneration starts; then
      the crop is applied and completes.  The item is cropped to 300 by 200
      and its preview is unset, but it is still processing and its Compress
      button disabled; when the regeneration completes, the cropped item
      shows a preview encoded from the uncropped 1000 by 500 upload.
    - With two items, the crop of the first is applied, the dialog cancelled
      and the first item removed before the crop completes: the crop of the
      first item's image then replaces the source of the second item, which
      has moved to the first position. *)
Theorem crop_races_with_pending_work :
  (∃ img,
     object_at 0 (images (run crop_while_pending loaded)) = Some img
     ∧ dimensions img = Some (Dim.mk (of_Z 300) (of_Z 200))
     ∧ compressedPreview img = None ∧ compressed img = None ∧ compressedSize img = None
     ∧ processing img = Some true
     ∧ can_compress img = false)
  ∧ (∃ img blob,
       object_at 0 (images (run (crop_while_pending ++ [Settle 0 (answers 1000)]) loaded))
       = Some img
       ∧ dimensions img = Some (Dim.mk (of_Z 300) (of_Z 200))
       ∧ displayed 0 (run (crop_while_pending ++ [Settle 0 (answers 1000)]) loaded)
         = Some blob
       ∧ blob_content blob
         = Avif (of_Z 1000) (of_Z 500)
                (drawImage3 (Uploaded 0 (Dim.mk (of_Z 1000) (of_Z 500))) (of_Z 0) (of_Z 0))
                (Some (of_Z 75)) (of_Z 8))
  ∧ images (run [ClickCrop 0; CropComplete corner; ClickApplyCrop; ClickCancelCrop;
                 ClickRemove 0] gallery)
    = [Object chart_item]
  ∧ (∃ img,
       images (run crop_then_remove gallery) = [Object img]
       ∧ (blob_content <$> (file_blob <$> file img))
         = Some (cropped (blob_content (file_blob photo)) corner)
       ∧ dimensions img = Some (Dim.mk (of_Z 300) (of_Z 200))
       ∧ fetch 2 (run crop_then_remove gallery) = None).
Proof.
  split_and!.
  - eexists. split; [vm_compute; reflexivity|]. split_and!; vm_compute; reflexivity.
  - do 2 eexists. split; [vm_compute; reflexivity|]. split_and!; vm_compute; reflexivity.
  - vm_compute. reflexivity.
  - eexists. split; [vm_compute; reflexivity|]. split_and!; vm_compute; reflexivity.
Qed.

(** C7 fails on the code: the failure of one item's encode can be recorded on
    another item.  Both of two items are edited and both regenerations
    start; the first item is removed, so the second moves to the first
    position; then the codec rejects the regeneration that was started for
    the removed item.  The failure handler clears [processing] at the
    position the task was started for: the remaining item stops showing as
    processing, and its Compress button is enabled, while its own
    regeneration is still in flight. *)
Theorem encode_failure_marks_another_item :
  let w := run edit_both_remove_first gallery in
  let w' := step (Settle 1 codec_fails) w in
  inflight w = [PreviewTask 1 chart_item; PreviewTask 0 photo_item]
  ∧ images w = [Object (with_processing true (with_quality (of_Z 60) chart_item))]
  ∧ images w' = [Object (with_processing false (with_quality (of_Z 60) chart_item))]
  ∧ inflight w' = [PreviewTask 1 chart_item]
  ∧ console w' = [ErrorEnPreview CodecFailure]
  ∧ can_compress (with_processing false (with_quality (of_Z 60) chart_item)) = true.
Proof.
  cbv zeta. split_and!; vm_compute; reflexivity.
Qed.

(** C8 fails on the code for the requested width, and for the quality of an
    object a late updater creates.  The text "-5" typed into the width field
    is stored as it is, parses to the target -5, and the item resolves to -5
    by -2.  When the only item is edited and removed within the quiet
    window, the timer's updater stores an object at the vacated position
    that has [processing] and nothing else: no file, no quality. *)
Lemma negative_width_is_kept :
  settings_in_range loaded
  ∧ Forall requested_nonnegative (objects (images loaded))
  ∧ ¬ Forall requested_nonnegative
        (objects (images (run [ChangeSetting 0 (Width "-5")] loaded)))
  ∧ (calculateFinalDimensions
       <$> object_at 0 (images (run [ChangeSetting 0 (Width "-5")] loaded)))
    = Some (Some (Dim.mk (of_Z (-5)) (of_Z (-2))))
  ∧ images (run edit_then_remove loaded) = [Object (with_processing true empty_object)]
  ∧ quality (with_processing true empty_object) = None.
Proof.
  split_and!.
  - split; [|apply Forall_nil_2].
    apply Forall_cons_2; [|apply Forall_nil_2]. apply new_image_in_range.
  - apply Forall_cons_2; [|apply Forall_nil_2].
    intros z [H | H]; vm_compute in H; discriminate.
  - intros H. apply Forall_cons_1 in H as [H _].
    assert (0 ≤ -5)%Z; [|lia]. apply H. left. vm_compute. reflexivity.
  - vm_compute. reflexivity.
  - vm_compute. reflexivity.
  - reflexivity.
Qed.

(** ** Instances *)



Lemma crop_failure_leaves_item_witness :
  images (applyCrop_resume (mkBrowser true true None None) 0
            (fetch 0 loaded) corner loaded)
  = images loaded.
Proof.
  destruct (crop_failure_leaves_item loaded 0 (fetch 0 loaded) corner
              (mkBrowser true true None None) (or_intror eq_refl)) as (H & _).
  exact H.
Defined.

Lemma settings_stay_in_range_witness :
  settings_in_range
    (run [SelectFiles [photo]; Settle 0 (answers 0);
          ChangeSetting 0 (Quality (of_Z 40)); ChangeSetting 0 (Width "-5");
          Elapse 1500; Settle 0 (answers 900); ClickCompress 0] initial).
Proof.
  refine (proj1 (proj2 (settings_stay_in_range _ initial _ _))).
  - split; apply Forall_nil_2.
  - repeat apply Forall_cons_2; try apply Forall_nil_2; try exact I.
    exists 40%Z. split; [reflexivity | lia].
Defined.

(** * Further properties *)

(** ** The debounce scheduler on bursts of edits *)

Local Open Scope nat_scope.

(** The updater of a property on a position that holds an object. *)
Lemma update_item_found (index : nat) (change : CompressedImage → CompressedImage)
    (img : CompressedImage) (w : World) :
  images w !! index = Some (Object img) →
  update_item index change w
  = set_images (<[index := Object (change img)]> (images w)) w.
Proof.
  intros H. unfold update_item. rewrite H. simpl.
  by rewrite store_in_range by (by eapply lookup_lt_Some).
Qed.

Lemma change_setting_effect (index : nat) (s : Setting) (img : CompressedImage) (w : World) :
  images w !! index = Some (Object img) → quiet index w →
  let w' := step (ChangeSetting index s) w in
  images w' = <[index := Object (apply_setting s img)]> (images w)
  ∧ timeouts w' = [mkTimeout (nextTimeout w) (clock w + 1500) index (images w)]
  ∧ previewTimeoutRefs w' !! index = Some (nextTimeout w)
  ∧ nextTimeout w' = S (nextTimeout w)
  ∧ clock w' = clock w
  ∧ inflight w' = inflight w.
Proof.
  intros Himg [Hnext Ht]. cbv zeta. simpl. rewrite Himg.
  unfold updateImageSettings. rewrite (update_item_found index _ img w Himg). simpl.
  destruct Ht as [Ht | (t & Ht & Href & Hid & _)].
  - destruct (previewTimeoutRefs w !! index) as [id|]; [case_bool_decide|];
      unfold setTimeout, clearTimeout; simpl; rewrite Ht; simpl;
      by rewrite lookup_insert_eq.
  - rewrite Href. rewrite bool_decide_eq_false_2 by done.
    unfold setTimeout, clearTimeout. simpl. rewrite Ht.
    rewrite filter_cons_False by (intros H; by apply H).
    rewrite filter_nil. simpl. by rewrite lookup_insert_eq.
Qed.

Lemma elapse_idle (g : nat) (w : World) :
  Forall (λ t, clock w + g < timeout_deadline t) (timeouts w) →
  step (Elapse g) w = set_clock (clock w + g) w.
Proof.
  intros H. simpl. unfold elapse. f_equal.
  destruct (timeouts w) as [|t0 l] eqn:Ht; [done|].
  simpl. rewrite Ht.
  assert (filter (λ t, timeout_deadline t ≤ clock w + g) (t0 :: l) = []) as ->; [|done].
  clear Ht. induction H as [|t l' Ht Hl IH]; [done|].
  rewrite filter_cons_False by lia. done.
Qed.

Lemma elapse_fires (g : nat) (t : Timeout) (w : World) :
  timeouts w = [t] → timeout_deadline t ≤ clock w + g →
  step (Elapse g) w = set_clock (clock w + g) (fire t w).
Proof.
  intros Ht Hd. simpl. unfold elapse. rewrite Ht. simpl.
  rewrite Ht. rewrite filter_cons_True by done. done.
Qed.

Lemma run_app (es1 es2 : list Event) (w : World) :
  run (es1 ++ es2) w = run es2 (run es1 w).
Proof. unfold run. apply foldl_app. Qed.

Lemma burst_effect (index : nat) (edits : list (Setting * nat)) :
  ∀ (w : World) (img : CompressedImage),
  images w !! index = Some (Object img) → quiet index w →
  Forall (λ e, e.2 < 1500) edits →
  let w' := run (burst index edits) w in
  images w' = <[index := Object (apply_settings edits.*1 img)]> (images w)
  ∧ quiet index w'
  ∧ inflight w' = inflight w.
Proof.
  induction edits as [|[s g] rest IH]; intros w img Himg Hq Hg; cbv zeta.
  { simpl. split_and!; [|done..]. by rewrite list_insert_id. }
  apply Forall_cons_1 in Hg as [Hg Hrest]. simpl in Hg.
  destruct (change_setting_effect index s img w Himg Hq)
    as (Hi1 & Ht1 & Hr1 & Hn1 & Hc1 & Hf1).
  set (w1 := step (ChangeSetting index s) w) in *.
  assert (He : step (Elapse g) w1 = set_clock (clock w1 + g) w1).
  { apply elapse_idle. rewrite Ht1. apply Forall_cons_2; [|apply Forall_nil_2].
    simpl. lia. }
  pose proof (lookup_lt_Some _ _ _ Himg) as Hlt.
  change (run (burst index ((s, g) :: rest)) w)
    with (run (burst index rest) (step (Elapse g) w1)).
  rewrite He.
  destruct (IH (set_clock (clock w1 + g) w1) (apply_setting s img)) as (IH1 & IH2 & IH3).
  - simpl. rewrite Hi1. by apply list_lookup_insert_eq.
  - destruct Hq as [Hnext _]. split; [simpl; lia|]. right.
    eexists. simpl. split; [exact Ht1|]. simpl. split_and!; [done|lia|lia].
  - done.
  - split_and!; [|done|by rewrite IH3].
    rewrite IH1. simpl. rewrite Hi1. by rewrite list_insert_insert_eq.
Qed.

(** X1.  A burst of edits of one item, each less than 1500 ms after the one
    before, followed by a quiet 1500 ms: exactly one preview regeneration is
    dispatched and no timer is left.  The regeneration encodes the item as it
    was before the last edit of the burst, while the item holds all of them. *)
Theorem debounce_coalesces (index : nat) (edits : list (Setting * nat)) (last : Setting)
    (w : World) (img : CompressedImage) :
  images w !! index = Some (Object img) →
  timeouts w = [] → 0 < nextTimeout w →
  Forall (λ e, e.2 < 1500) edits →
  let w' := run (burst index edits ++ [ChangeSetting index last; Elapse 1500]) w in
  let render_item := apply_settings edits.*1 img in
  inflight w' = inflight w ++ [PreviewTask index render_item]
  ∧ images w'
    = <[index := Object (with_processing true (apply_setting last render_item))]> (images w)
  ∧ timeouts w' = [].
Proof.
  intros Himg Ht Hnext Hg. cbv zeta.
  destruct (burst_effect index edits w img Himg) as (Hi & Hq & Hf); [by split; [|left] | done |].
  rewrite run_app. set (wb := run (burst index edits) w) in *.
  pose proof (lookup_lt_Some _ _ _ Himg) as Hlt.
  assert (Hib : images wb !! index = Some (Object (apply_settings edits.*1 img))).
  { rewrite Hi. by apply list_lookup_insert_eq. }
  destruct (change_setting_effect index last _ wb Hib Hq)
    as (Hi1 & Ht1 & Hr1 & Hn1 & Hc1 & Hf1).
  change (run [ChangeSetting index last; Elapse 1500] wb)
    with (step (Elapse 1500) (step (ChangeSetting index last) wb)).
  set (w1 := step (ChangeSetting index last) wb) in *.
  rewrite (elapse_fires 1500 _ w1 Ht1) by (simpl; lia).
  unfold fire, updatePreview. cbn [timeout_render timeout_index timeout_id]. rewrite Hib.
  assert (Hcur : images (clearTimeout (nextTimeout wb) w1) !! index
                 = Some (Object (apply_setting last (apply_settings edits.*1 img)))).
  { change (images (clearTimeout (nextTimeout wb) w1)) with (images w1).
    rewrite Hi1. apply list_lookup_insert_eq. by rewrite Hi, length_insert. }
  rewrite (update_item_found index _ _ _ Hcur).
  unfold clearTimeout. simpl. rewrite Hi1, Ht1.
  simpl. rewrite filter_cons_False by (intros H; by apply H).
  rewrite Hf1, Hf, Hi. rewrite !list_insert_insert_eq. done.
Qed.

Lemma debounce_coalesces_witness :
  inflight (run two_edits loaded) = [PreviewTask 0 (with_quality (of_Z 60) photo_item)]
  ∧ (quality <$> object_at 0 (images (run two_edits loaded))) = Some (Some (of_Z 80))
  ∧ timeouts (run two_edits loaded) = [].
Proof.
  destruct (debounce_coalesces 0 [(Quality (of_Z 60), 1000)] (Quality (of_Z 80))
              loaded photo_item eq_refl eq_refl) as (H1 & H2 & H3).
  - simpl. lia.
  - apply Forall_cons_2; [simpl; lia | apply Forall_nil_2].
  - split; [exact H1|]. split; [|exact H3].
    change (run (burst 0 [(Quality (of_Z 60), 1000)]
                 ++ [ChangeSetting 0 (Quality (of_Z 80)); Elapse 1500]) loaded)
      with (run two_edits loaded) in H2.
    unfold object_at. rewrite H2. reflexivity.
Defined.

(** ** The timers and [previewTimeoutRefs] *)

Lemma clearTimeout_consistent (id : nat) (w : World) :
  timers_consistent w → timers_consistent (clearTimeout id w).
Proof.
  intros (Hn & Ht & Hd & Hinj & Hb). unfold clearTimeout.
  split_and!; simpl; try done.
  - intros t Hin. apply list_elem_of_filter in Hin as [_ Hin]. by apply Ht.
  - eapply sublist_NoDup; [exact Hd|]. apply fmap_sublist, sublist_filter.
Qed.

Lemma timers_frame (w w' : World) :
  timeouts w' = timeouts w → nextTimeout w' = nextTimeout w →
  previewTimeoutRefs w' = previewTimeoutRefs w →
  timers_consistent w → timers_consistent w'.
Proof. unfold timers_consistent. intros -> -> ->. done. Qed.

Lemma updateImageSettings_consistent (render : list Entry) (index : nat)
    (s : Setting) (w : World) :
  timers_consistent w → timers_consistent (updateImageSettings render index s w).
Proof.
  intros H. unfold updateImageSettings.
  set (w0 := update_item index (apply_setting s) w).
  assert (H0 : timers_consistent w0).
  { eapply timers_frame; [| | |exact H]; done. }
  assert (Hrefs : previewTimeoutRefs w0 = previewTimeoutRefs w).
  { done. }
  clearbody w0.
  set (w1 := match previewTimeoutRefs w0 !! index with
             | Some timeoutId =>
                 if bool_decide (timeoutId = 0) then w0 else clearTimeout timeoutId w0
             | None => w0
             end).
  assert (H1 : timers_consistent w1
               ∧ previewTimeoutRefs w1 = previewTimeoutRefs w0
               ∧ nextTimeout w1 = nextTimeout w0
               ∧ ∀ t, t ∈ timeouts w1 → timeout_index t ≠ index).
  { destruct H0 as (Hn & Ht & Hd & Hinj & Hb). unfold w1.
    destruct (previewTimeoutRefs w0 !! index) as [id|] eqn:Hid.
    - case_bool_decide as Hz.
      + split_and!; try done. intros t Hin Heq.
        destruct (Ht t Hin) as [Hpos Href]. rewrite Heq, Hid in Href. simplify_eq. lia.
      + split_and!; try done.
        * by apply clearTimeout_consistent.
        * intros t Hin Heq. simpl in Hin.
          apply list_elem_of_filter in Hin as [Hne Hin].
          destruct (Ht t Hin) as [_ Href]. rewrite Heq, Hid in Href. by simplify_eq.
    - split_and!; try done. intros t Hin Heq.
      destruct (Ht t Hin) as [_ Href]. by rewrite Heq, Hid in Href. }
  clearbody w1. destruct H1 as ((Hn & Ht & Hd & Hinj & Hb) & Hr1 & Hn1 & Hidx).
  unfold setTimeout. simpl.
  split_and!; simpl.
  - lia.
  - intros t Hin. apply elem_of_app in Hin as [Hin | Hin].
    + destruct (Ht t Hin) as [Hpos Href]. split; [lia|].
      rewrite lookup_insert_ne by (intros ?; by eapply Hidx). done.
    + apply list_elem_of_singleton in Hin as ->. simpl.
      split; [lia|]. by rewrite lookup_insert_eq.
  - rewrite fmap_app. simpl. apply list.NoDup_app. split_and!; [done| |apply NoDup_singleton].
    intros id Hin Hin2. apply list_elem_of_singleton in Hin2 as ->.
    apply list_elem_of_fmap in Hin as (t & Hid & Hin).
    destruct (Ht t Hin) as [Hpos _]. lia.
  - intros i j id Hi Hj.
    destruct (decide (i = index)) as [-> | Hi'], (decide (j = index)) as [-> | Hj'];
      [done| | |].
    + rewrite lookup_insert_eq in Hi. rewrite lookup_insert_ne in Hj by done.
      simplify_eq. apply Hb in Hj. lia.
    + rewrite lookup_insert_eq in Hj. rewrite lookup_insert_ne in Hi by done.
      simplify_eq. apply Hb in Hi. lia.
    + rewrite lookup_insert_ne in Hi by done. rewrite lookup_insert_ne in Hj by done.
      by eapply Hinj.
  - intros i id Hi. destruct (decide (i = index)) as [-> | Hi'].
    + rewrite lookup_insert_eq in Hi. simplify_eq. lia.
    + rewrite lookup_insert_ne in Hi by done. apply Hb in Hi. lia.
Qed.

Lemma same_timers_trans (w1 w2 w3 : World) :
  same_timers w1 w2 → same_timers w2 w3 → same_timers w1 w3.
Proof. unfold same_timers. intros (-> & -> & ->) (-> & -> & ->). done. Qed.

Lemma update_item_timers index change w : same_timers w (update_item index change w).
Proof. done. Qed.

Lemma assign_preview_timers index change w : same_timers w (assign_preview index change w).
Proof.
  unfold assign_preview. destruct (images w !! index) as [[img|]|]; [|done..].
  by destruct (compressedPreview img).
Qed.

Lemma build_images_timers files : ∀ w, same_timers w (build_images files w).2.
Proof.
  induction files as [|f rest IH]; intros w; [done|]. simpl.
  specialize (IH (getImageDimensions f (createObjectURL (file_blob f) w).2).2).
  destruct (build_images rest _) as [imgs w']. simpl in *.
  eapply same_timers_trans; [|exact IH]. done.
Qed.

Lemma handleFileInput_timers files w : same_timers w (handleFileInput files w).
Proof.
  unfold handleFileInput. pose proof (build_images_timers files w) as H.
  destruct (build_images files w) as [imgs w']. simpl in *.
  eapply same_timers_trans; [exact H|]. done.
Qed.

Lemma settle_task_timers b t w : same_timers w (settle_task b t w).
Proof.
  destruct t as [newImages | index img | index img | index fetched area]; simpl.
  - done.
  - unfold updatePreview_resume.
    destruct (compressImageWithJSquash _ _ _ _ _ _) as [e | [blob d]].
    + eapply same_timers_trans; [|apply update_item_timers]. done.
    + eapply same_timers_trans; [|apply assign_preview_timers]. done.
  - unfold compressImage_resume.
    destruct (compressImageWithJSquash _ _ _ _ _ _) as [e | [blob d]].
    + eapply same_timers_trans; [|apply update_item_timers]. done.
    + unfold createObjectURL.
      apply (same_timers_trans _
               (assign_preview index (with_compressed (List.length (objectURLs w)) blob)
                  (set_objectURLs (objectURLs w ++ [Some blob]) w))); [|done].
      eapply same_timers_trans; [|apply assign_preview_timers]. done.
  - unfold applyCrop_resume.
    destruct (createCroppedImage _ _ _) as [e | [f blob]]; [done|].
    simpl. unfold replace_source. simpl.
    destruct (images w !! index) as [[img|]|]; [|done..].
    by destruct (preview img), (compressedPreview img).
Qed.

Lemma fire_consistent t w : timers_consistent w → timers_consistent (fire t w).
Proof.
  intros H. unfold fire, updatePreview.
  apply (clearTimeout_consistent (timeout_id t)) in H.
  destruct (timeout_render t !! timeout_index t) as [[img|]|]; [|done..].
  destruct (update_item_timers (timeout_index t) (with_processing true)
              (clearTimeout (timeout_id t) w)) as (H1 & H2 & H3).
  eapply timers_frame; [| | |exact H]; simpl; done.
Qed.

Lemma run_timers_consistent fuel until : ∀ w,
  timers_consistent w → timers_consistent (run_timers fuel until w).
Proof.
  induction fuel as [|fuel IH]; intros w H; [done|].
  simpl. destruct (earliest _); [|done]. by apply IH, fire_consistent.
Qed.

Lemma step_consistent e w : timers_consistent w → timers_consistent (step e w).
Proof.
  intros H.
  assert (Hframe : ∀ w', same_timers w w' → timers_consistent w').
  { intros w' (H1 & H2 & H3). by eapply timers_frame. }
  destruct e as [files|files|index|index|index s|index|area| | |ms|k b]; simpl.
  - apply Hframe, handleFileInput_timers.
  - unfold handleDrop. destruct (List.filter _ files); [done|].
    apply Hframe, handleFileInput_timers.
  - destruct (images w !! index) as [[img|]|] eqn:E; [|done..].
    apply Hframe. unfold removeImage. rewrite E.
    by destruct (preview img), (compressedPreview img).
  - destruct (images w !! index) as [[img|]|] eqn:E; [|done..].
    destruct (can_compress img); [|done]. apply Hframe.
    unfold compressImage. rewrite E. done.
  - destruct (images w !! index) as [[img|]|]; [|done..].
    by apply updateImageSettings_consistent.
  - destruct (images w !! index) as [[img|]|]; [|done..]. by destruct (is_processing img).
  - destruct (cropModalOpen w), (currentCropIndex w) as [index|]; try done.
    by destruct (images w !! index) as [[img|]|].
  - by destruct (cropModalOpen w).
  - destruct (cropModalOpen w); [|done]. unfold applyCrop.
    destruct (currentCropIndex w) as [index|], (croppedAreaPixels w); try done.
    by destruct (images w !! index) as [[img|]|].
  - unfold elapse.
    pose proof (run_timers_consistent (List.length (timeouts w)) (clock w + ms) w H).
    by eapply timers_frame.
  - destruct (inflight w !! k) as [t|]; [|done].
    apply Hframe.
    eapply same_timers_trans; [|apply settle_task_timers]. done.
Qed.

Lemma run_consistent events : ∀ w,
  timers_consistent w → timers_consistent (run events w).
Proof.
  induction events as [|e events IH]; intros w H; [done|].
  simpl. by apply IH, step_consistent.
Qed.

Lemma initial_consistent : timers_consistent initial.
Proof.
  unfold timers_consistent. simpl.
  split_and!; [lia | intros t Hin; by apply elem_of_nil in Hin | apply NoDup_nil_2
              | intros i j id Hi; by rewrite lookup_empty in Hi
              | intros i id Hi; by rewrite lookup_empty in Hi].
Qed.

(** X2.  Whatever the user and the browser do, starting from the empty screen, at
    most one debounce timer is pending for each position of the list. *)
Theorem one_timer_per_item (events : list Event) (index : nat) :
  List.length (filter (λ t, timeout_index t = index) (timeouts (run events initial))) ≤ 1.
Proof.
  pose proof (run_consistent events initial initial_consistent) as H.
  set (w := run events initial) in *.
  destruct H as (_ & Ht & Hd & _).
  assert (Hsub : NoDup (timeout_id <$> filter (λ t, timeout_index t = index) (timeouts w))).
  { eapply sublist_NoDup; [exact Hd|]. apply fmap_sublist, sublist_filter. }
  destruct (filter (λ t, timeout_index t = index) (timeouts w)) as [|t1 [|t2 l]] eqn:Hf;
    simpl; [lia..|].
  exfalso.
  assert (H1 : t1 ∈ filter (λ t, timeout_index t = index) (timeouts w))
    by (rewrite Hf; left).
  assert (H2 : t2 ∈ filter (λ t, timeout_index t = index) (timeouts w))
    by (rewrite Hf; right; left).
  apply list_elem_of_filter in H1 as [I1 H1]. apply list_elem_of_filter in H2 as [I2 H2].
  destruct (Ht t1 H1) as [_ R1]. destruct (Ht t2 H2) as [_ R2].
  rewrite I1 in R1. rewrite I2 in R2.
  simpl in Hsub. apply list.NoDup_cons in Hsub as [Hnin _].
  apply Hnin. assert (timeout_id t1 = timeout_id t2) as -> by congruence. left.
Qed.

(** X3.  Editing one item cancels only that item's pending timer: the timers
    pending for the other positions are still pending afterwards. *)
Theorem other_items_timers_survive (events : list Event) (index : nat) (s : Setting)
    (t : Timeout) :
  t ∈ timeouts (run events initial) → timeout_index t ≠ index →
  t ∈ timeouts (step (ChangeSetting index s) (run events initial)).
Proof.
  intros Hin Hne.
  pose proof (run_consistent events initial initial_consistent) as H.
  set (w := run events initial) in *. simpl.
  destruct (images w !! index) as [[img|]|] eqn:Himg; [|done..].
  unfold updateImageSettings. rewrite (update_item_found index _ img w Himg). simpl.
  destruct H as (_ & Ht & _ & Hinj & _). destruct (Ht t Hin) as [_ Href].
  destruct (previewTimeoutRefs w !! index) as [id|] eqn:Hid; [case_bool_decide|];
    unfold setTimeout, clearTimeout; simpl; apply elem_of_app; left; try done.
  apply list_elem_of_filter. split; [|done].
  intros Heq. rewrite Heq in Href. apply Hne. by eapply Hinj.
Qed.

Lemma other_items_timers_survive_witness :
  mkTimeout 1 1500 0 (images gallery)
  ∈ timeouts (step (ChangeSetting 1 (Width "320")) (run edit_first initial)).
Proof.
  apply (other_items_timers_survive edit_first 1 (Width "320")).
  - assert (H : timeouts (run edit_first initial) = [mkTimeout 1 1500 0 (images gallery)])
      by (vm_compute; reflexivity).
    rewrite H. left.
  - simpl. lia.
Defined.


(** ** The object URL of [getImageDimensions] *)

Lemma live_lt (u : URL) (w : World) : live u w = true → u < List.length (objectURLs w).
Proof.
  intros H. apply live_spec in H as [blob H]. by eapply lookup_lt_Some.
Qed.

Lemma live_create (u : URL) (blob : Blob) (w : World) :
  live u w = true → live u (createObjectURL blob w).2 = true.
Proof.
  intros H. apply live_spec in H as [b H]. apply live_spec. exists b.
  simpl. by apply lookup_app_l_Some.
Qed.

Lemma live_revoke_other (u v : URL) (w : World) :
  u ≠ v → live u w = true → live u (revokeObjectURL v w) = true.
Proof.
  intros Hne H. apply live_spec in H as [b H]. apply live_spec. exists b.
  simpl. by rewrite list_lookup_insert_ne.
Qed.

Lemma live_revoke_opt (u : URL) (v : option URL) (w : World) :
  v ≠ Some u → live u w = true → live u (revoke v w) = true.
Proof.
  intros Hne H. destruct v as [v|]; [|done]. apply live_revoke_other; [|done].
  intros ->. done.
Qed.

Lemma update_item_leaked u index change w :
  keeps_handles change → leaked u w → leaked u (update_item index change w).
Proof.
  intros Hc [Hl [Hi Ht]]. unfold update_item.
  split; [done|]. split; [|done]. simpl. apply store_Forall; [done| |done]. simpl.
  destruct (Hc (spread (images w !! index))) as [H1 H2]. unfold mentions. rewrite H1, H2.
  destruct (images w !! index) as [[img|]|] eqn:E; simpl; [|by intros [? | ?]..].
  by apply (Forall_lookup_1 _ _ _ _ Hi E).
Qed.

Lemma spawn_leaked u t w :
  match t with IngestTask _ => False | _ => True end →
  leaked u w → leaked u (spawn t w).
Proof.
  intros Ht [Hl [Hi Hts]]. split; [done|]. split; [done|]. simpl.
  apply Forall_app_2; [done|]. apply Forall_cons_2; [|apply Forall_nil_2].
  by destruct t.
Qed.

(** A finished encode or crop: the item at [index] gets the handles
    [change] gives it, after its old ones are revoked. *)
Lemma assign_preview_leaked u index url blob change w :
  (change = with_preview url blob ∨ change = with_compressed url blob) →
  url ≠ u → leaked u w → leaked u (assign_preview index change w).
Proof.
  intros Hc Hne [Hl [Hi Ht]]. unfold assign_preview.
  destruct (images w !! index) as [[img|]|] eqn:E; [|done..].
  pose proof (Forall_lookup_1 _ _ _ _ Hi E) as Himg. simpl in Himg.
  assert (Hnew : ¬ mentions u (change img)).
  { intros [H | H]; destruct Hc as [-> | ->]; simpl in H.
    - apply Himg. by left.
    - apply Himg. by left.
    - by simplify_eq.
    - by simplify_eq. }
  split; [|split; [|by destruct (compressedPreview img)]].
  - apply (live_revoke_opt u (compressedPreview img) w); [|done].
    intros Hm. apply Himg. by right.
  - destruct (compressedPreview img); simpl; by apply Forall_insert.
Qed.

Lemma build_images_leaked u files : ∀ w,
  leaked u w →
  Forall (λ img, ¬ mentions u img) (build_images files w).1
  ∧ leaked u (build_images files w).2.
Proof.
  induction files as [|f rest IH]; intros w H; [split; [apply Forall_nil_2 | done]|].
  simpl.
  assert (H1 : leaked u (getImageDimensions f (createObjectURL (file_blob f) w).2).2).
  { destruct H as [Hl Hu]. unfold getImageDimensions. split; [|exact Hu].
    apply (live_create u (file_blob f) (createObjectURL (file_blob f) w).2).
    by apply live_create. }
  specialize (IH _ H1). simpl in IH.
  destruct (build_images rest _) as [imgs w'] eqn:E. simpl in *.
  destruct IH as [IH1 IH2]. split; [|done].
  apply Forall_cons_2; [|done].
  intros [Hm | Hm]; simpl in Hm; [|done].
  destruct H as [Hl _]. apply live_lt in Hl. simplify_eq. lia.
Qed.

Lemma handleFileInput_leaked u files w : leaked u w → leaked u (handleFileInput files w).
Proof.
  intros H. unfold handleFileInput.
  destruct (build_images_leaked u files w H) as [H1 H2].
  destruct (build_images files w) as [imgs w']. simpl in *.
  destruct H2 as [Hl [Hi Ht]]. split; [done|]. split; [done|]. simpl.
  apply Forall_app_2; [done|]. by apply Forall_cons_2; [|apply Forall_nil_2].
Qed.

(** What [removeImage] and a finished crop revoke leaves [u] live, when the
    object does not hold [u]. *)
Lemma live_release (u : URL) (img : CompressedImage) (w : World) :
  ¬ mentions u img → live u w = true → live u (release img w) = true.
Proof.
  intros Hm Hl. unfold release.
  apply live_revoke_opt; [intros H; apply Hm; by right|].
  apply live_revoke_opt; [intros H; apply Hm; by left|]. done.
Qed.

Lemma removeImage_leaked u index w : leaked u w → leaked u (removeImage index w).
Proof.
  intros [Hl [Hi Ht]]. unfold removeImage.
  destruct (images w !! index) as [[img|]|] eqn:E; [|done..].
  pose proof (Forall_lookup_1 _ _ _ _ Hi E) as Himg. simpl in Himg.
  split; [|split]; simpl.
  - by apply (live_release u img w).
  - destruct (preview img), (compressedPreview img); simpl; by apply Forall_delete.
  - by destruct (preview img), (compressedPreview img).
Qed.

Lemma settle_task_leaked u b t w :
  match t with
  | IngestTask newImages => Forall (λ img, ¬ mentions u img) newImages
  | _ => True
  end →
  leaked u w → leaked u (settle_task b t w).
Proof.
  intros Ht H. pose proof H as [Hl [Hi Hts]]. pose proof (live_lt u w Hl) as Hlt.
  destruct t as [newImages | index img | index img | index fetched area]; simpl.
  - split; [done|]. split; [|done]. simpl. apply Forall_app_2; [done|].
    apply Forall_fmap. by eapply Forall_impl.
  - unfold updatePreview_resume.
    destruct (compressImageWithJSquash _ _ _ _ _ _) as [e | [blob d]].
    + apply update_item_leaked; [by intros ?|done].
    + eapply assign_preview_leaked; [by left | | ].
      * simpl. lia.
      * split; [by apply live_create|done].
  - unfold compressImage_resume.
    destruct (compressImageWithJSquash _ _ _ _ _ _) as [e | [blob d]].
    + apply update_item_leaked; [by intros ?|done].
    + unfold createObjectURL.
      assert (leaked u (assign_preview index
                 (with_compressed (List.length (objectURLs w)) blob)
                 (set_objectURLs (objectURLs w ++ [Some blob]) w))) as [H1 [H2 H3]]; [|done].
      eapply assign_preview_leaked; [by right | lia |].
      split; [by apply (live_create u blob w)|done].
  - unfold applyCrop_resume.
    destruct (createCroppedImage _ _ _) as [e | [f blob]]; [done|].
    simpl. unfold replace_source. simpl.
    set (w2 := set_objectURLs _ _).
    assert (Hl2 : live u w2 = true).
    { apply (live_create u (file_blob f) (createObjectURL blob w).2). by apply live_create. }
    destruct (images w !! index) as [[cur|]|] eqn:E; [|by split..].
    pose proof (Forall_lookup_1 _ _ _ _ Hi E) as Hcur. simpl in Hcur.
    assert (Hnew : ¬ mentions u (with_crop f (List.length (objectURLs w)) blob
                                   (natural_size (blob_content (file_blob f))) cur)).
    { intros [Hm | Hm]; simpl in Hm; [simplify_eq; lia | done]. }
    split; [|split]; simpl.
    + by apply (live_release u cur w2).
    + destruct (preview cur), (compressedPreview cur); simpl; by apply Forall_insert.
    + by destruct (preview cur), (compressedPreview cur).
Qed.

Lemma fire_leaked u t w : leaked u w → leaked u (fire t w).
Proof.
  intros H. unfold fire, updatePreview.
  assert (H' : leaked u (clearTimeout (timeout_id t) w)) by done.
  destruct (timeout_render t !! timeout_index t) as [[img|]|]; [|done..].
  apply spawn_leaked; [done|]. by apply update_item_leaked.
Qed.

Lemma run_timers_leaked u fuel until : ∀ w,
  leaked u w → leaked u (run_timers fuel until w).
Proof.
  induction fuel as [|fuel IH]; intros w H; [done|].
  simpl. destruct (earliest _); [|done]. by apply IH, fire_leaked.
Qed.

Lemma step_leaked u e w : leaked u w → leaked u (step e w).
Proof.
  intros H. destruct e as [files|files|index|index|index s|index|area| | |ms|k b]; simpl.
  - by apply handleFileInput_leaked.
  - unfold handleDrop. destruct (List.filter _ files); [done|].
    by apply handleFileInput_leaked.
  - destruct (images w !! index) as [[img|]|]; [|done..]. by apply removeImage_leaked.
  - destruct (images w !! index) as [[img|]|] eqn:E; [|done..].
    destruct (can_compress img); [|done]. unfold compressImage. rewrite E.
    apply spawn_leaked; [done|]. by apply update_item_leaked.
  - destruct (images w !! index) as [[img|]|]; [|done..].
    unfold updateImageSettings.
    assert (H' : leaked u (update_item index (apply_setting s) w)).
    { apply update_item_leaked; [|done]. intros ?. by destruct s. }
    destruct (previewTimeoutRefs _ !! index) as [id|]; [|done].
    by case_bool_decide.
  - destruct (images w !! index) as [[img|]|]; [|done..]. by destruct (is_processing img).
  - destruct (cropModalOpen w), (currentCropIndex w) as [index|]; try done.
    by destruct (images w !! index) as [[img|]|].
  - by destruct (cropModalOpen w).
  - destruct (cropModalOpen w); [|done]. unfold applyCrop.
    destruct (currentCropIndex w) as [index|], (croppedAreaPixels w); try done.
    destruct (images w !! index) as [[img|]|]; [|done..]. by apply spawn_leaked.
  - unfold elapse.
    by pose proof (run_timers_leaked u (List.length (timeouts w)) (clock w + ms) w H)
      as [Hl [Hi Ht]].
  - destruct (inflight w !! k) as [t|] eqn:E; [|done].
    destruct H as [Hl [Hi Ht]].
    apply settle_task_leaked.
    + pose proof (Forall_lookup_1 _ _ _ _ Ht E) as Hk. by destruct t.
    + split; [done|]. split; [done|]. simpl. by apply Forall_delete.
Qed.

Lemma run_leaked u events : ∀ w, leaked u w → leaked u (run events w).
Proof.
  induction events as [|e events IH]; intros w H; [done|].
  simpl. by apply IH, step_leaked.
Qed.

(** X4.  Ingesting a file creates two object URLs for it: the item's preview, and
    one more inside [getImageDimensions].  That second URL of the first file
    is live from then on and stays live whatever happens afterwards, the
    removal of the item included, and no item ever refers to it: the
    component has no way left to revoke it. *)
Theorem probe_url_is_never_revoked (files : list File) (f : File) (events : list Event)
    (w : World) :
  unreferenced (S (List.length (objectURLs w))) w →
  let probe := S (List.length (objectURLs w)) in
  let w' := run events (handleFileInput (f :: files) w) in
  live probe (handleFileInput (f :: files) w) = true
  ∧ live probe w' = true
  ∧ unreferenced probe w'.
Proof.
  intros Hu. cbv zeta.
  set (probe := S (List.length (objectURLs w))).
  assert (H0 : leaked probe (getImageDimensions f (createObjectURL (file_blob f) w).2).2).
  { split; [|exact Hu]. apply live_spec. exists (file_blob f). simpl.
    rewrite lookup_app_r by (rewrite length_app; simpl; lia).
    rewrite length_app. simpl. unfold probe.
    by replace (S (List.length (objectURLs w)) - (List.length (objectURLs w) + 1)) with 0
      by lia. }
  assert (H1 : leaked probe (handleFileInput (f :: files) w)).
  { unfold handleFileInput. simpl.
    destruct (build_images_leaked probe files _ H0) as [B1 B2]. simpl in B1, B2.
    destruct (build_images files _) as [imgs w1]. simpl in *.
    destruct B2 as [Bl [Bi Bt]]. split; [done|]. split; [done|]. simpl.
    apply Forall_app_2; [done|]. apply Forall_cons_2; [|apply Forall_nil_2].
    apply Forall_cons_2; [|done].
    intros [Hm | Hm]; simpl in Hm; [|done]. unfold probe in Hm. simplify_eq. lia. }
  destruct (run_leaked probe events _ H1) as [Hl Hur].
  by destruct H1 as [Hl1 _].
Qed.

Lemma probe_url_is_never_revoked_witness :
  live 1 (run [Settle 0 (answers 0); ClickRemove 0] (handleFileInput [photo] initial)) = true
  ∧ images (run [Settle 0 (answers 0); ClickRemove 0] (handleFileInput [photo] initial)) = [].
Proof.
  destruct (probe_url_is_never_revoked [] photo [Settle 0 (answers 0); ClickRemove 0] initial)
    as (_ & H & _).
  - split; apply Forall_nil_2.
  - split; [exact H | reflexivity].
Defined.

(** ** Compress *)


Lemma settle_last (w : World) (l : list Task) (t : Task) (b : Browser) :
  inflight w = l ++ [t] →
  step (Settle (List.length l) b) w = settle_task b t (set_inflight l w).
Proof.
  intros H. simpl. rewrite H. rewrite lookup_app_r by lia. rewrite Nat.sub_diag. simpl.
  do 2 f_equal. rewrite delete_middle. by rewrite List.app_nil_r.
Qed.

Lemma assign_preview_found (index : nat) (change : CompressedImage → CompressedImage)
    (cur : CompressedImage) (w : World) :
  images w !! index = Some (Object cur) →
  assign_preview index change w
  = set_images (<[index := Object (change cur)]> (images w))
      (revoke (compressedPreview cur) w).
Proof.
  intros H. unfold assign_preview. rewrite H. by destruct (compressedPreview cur).
Qed.




(** ** The encode pipeline, preview and final *)

(** X7.  [compressImageWithJSquash] on the same file, quality and targets, once
    for a preview and once for the final encode, under the same answers of
    the browser: both fail with the same error, or both succeed with the same
    output dimensions, the same canvas drawn and the same quality, and the
    two encodes differ only in the codec speed, 8 for the preview and 4 for
    the final one. *)
Theorem preview_and_final_differ_in_speed (b : Browser) (f : File) (q : option number)
    (tw th : option number) :
  match compressImageWithJSquash b (Some f) q tw th true,
        compressImageWithJSquash b (Some f) q tw th false with
  | inl e1, inl e2 => e1 = e2 ∧ e1 = failure_of b
  | inr (preview_blob, dims_preview), inr (final_blob, dims_final) =>
      dims_preview = dims_final
      ∧ blob_size preview_blob = blob_size final_blob
      ∧ blob_type preview_blob = "image/avif"%string
      ∧ blob_type final_blob = "image/avif"%string
      ∧ ∃ drawn,
          blob_content preview_blob = Avif (Dim.width dims_preview) (Dim.height dims_preview) drawn q (of_Z 8)
          ∧ blob_content final_blob = Avif (Dim.width dims_preview) (Dim.height dims_preview) drawn q (of_Z 4)
  | _, _ => False
  end.
Proof.
  destruct (decodable b) eqn:Hd, (context2d b) eqn:Hc, (encoded b) as [n|] eqn:He.
  2-8: rewrite !compressImageWithJSquash_fails by (rewrite ?Hd, ?Hc, ?He; auto); done.
  unfold compressImageWithJSquash, createImageBitmap. simpl. rewrite Hd, Hc, He. simpl.
  destruct (truthy_opt tw), (truthy_opt th); simpl; split_and!; try done; by eexists.
Qed.

(** ** Results of tasks and removed items *)

Lemma removeImage_found (index : nat) (img : CompressedImage) (w : World) :
  images w !! index = Some (Object img) →
  removeImage index w = set_images (delete index (images w)) (release img w).
Proof.
  intros H. unfold removeImage, release. rewrite H.
  by destruct (preview img), (compressedPreview img).
Qed.

Lemma release_length (img : CompressedImage) (w : World) :
  List.length (objectURLs (release img w)) = List.length (objectURLs w).
Proof.
  unfold release. destruct (preview img), (compressedPreview img); simpl;
    by rewrite ?length_insert.
Qed.

Lemma release_frame (img : CompressedImage) (w : World) :
  images (release img w) = images w ∧ timeouts (release img w) = timeouts w
  ∧ clock (release img w) = clock w ∧ inflight (release img w) = inflight w
  ∧ fault (release img w) = fault w.
Proof. unfold release. by destruct (preview img), (compressedPreview img). Qed.

Lemma updatePreview_resume_success (b : Browser) (index : nat) (img : CompressedImage)
    (blob : Blob) (w : World) :
  task_blob b (PreviewTask index img) = Some blob →
  updatePreview_resume b index img w
  = assign_preview index (with_preview (List.length (objectURLs w)) blob)
      (createObjectURL blob w).2.
Proof.
  intros Hb. simpl in Hb. unfold encode_result in Hb. unfold updatePreview_resume.
  destruct (compressImageWithJSquash _ _ _ _ _ _) as [e | [blob' d]]; [done|].
  by simplify_eq.
Qed.

(** X8.  A preview regeneration is in flight for the item at [index], and an item
    at that position or before it is removed before the encode completes.
    The result is written to the position the task was started for: when an
    item has moved up to that position, that item receives the preview
    encoded for the other one; when none has, the updater reads a property of
    [undefined] and throws, and the URL created for the result stays live.
    When the removed item came before, the item the task was started for has
    moved down by one and is left as it was, marked as processing. *)
Theorem result_lands_on_position (w : World) (index r : nat)
    (removed img : CompressedImage) (b : Browser) (blob : Blob) :
  images w !! r = Some (Object removed) → r ≤ index →
  task_blob b (PreviewTask index img) = Some blob →
  let url := List.length (objectURLs w) in
  let w' := settle_task b (PreviewTask index img) (removeImage r w) in
  (r < index → images w' !! (index - 1) = images w !! index)
  ∧ match images w !! S index with
    | Some (Object next) =>
        images w' !! index = Some (Object (with_preview url blob next))
        ∧ fault w' = fault w
    | Some Undefined | None =>
        images w' = delete r (images w)
        ∧ fault w' = Some (default TypeErrorInUpdater (fault w))
        ∧ live url w' = true
    end.
Proof.
  intros Hrem Hle Hblob. cbv zeta. cbn [settle_task].
  rewrite (updatePreview_resume_success b index img blob) by done.
  rewrite (removeImage_found r removed w Hrem).
  pose proof (lookup_lt_Some _ _ _ Hrem) as Hlt.
  destruct (release_frame removed w) as (Hri & _ & _ & _ & Hrf).
  assert (Hlen : List.length
                   (objectURLs (set_images (delete r (images w)) (release removed w)))
                 = List.length (objectURLs w)) by apply release_length.
  rewrite Hlen.
  assert (Hbefore : r < index →
                    delete r (images w) !! (index - 1) = images w !! index).
  { intros Hr. rewrite list_lookup_delete_ge by lia.
    by replace (S (index - 1)) with index by lia. }
  assert (Hd : delete r (images w) !! index = images w !! S index).
  { by rewrite list_lookup_delete_ge by lia. }
  set (w0 := (createObjectURL blob (set_images (delete r (images w)) (release removed w))).2).
  assert (Hi0 : images w0 = delete r (images w)) by done.
  assert (Hf0 : fault w0 = fault w) by exact Hrf.
  assert (Hl0 : live (List.length (objectURLs w)) w0 = true).
  { apply live_spec. exists blob. unfold w0. simpl.
    rewrite lookup_app_r by (rewrite release_length; lia).
    by rewrite release_length, Nat.sub_diag. }
  clearbody w0.
  destruct (images w !! S index) as [[next|]|] eqn:Hnext.
  - rewrite (assign_preview_found index _ next) by (by rewrite Hi0, Hd).
    simpl. rewrite Hi0. split_and!.
    + intros Hr. rewrite list_lookup_insert_ne by lia. by apply Hbefore.
    + apply list_lookup_insert_eq. rewrite length_delete by eauto.
      apply lookup_lt_Some in Hnext. lia.
    + rewrite <- Hf0. by destruct (compressedPreview next).
  - unfold assign_preview. rewrite Hi0, Hd.
    change (images (raise TypeErrorInUpdater w0)) with (images w0). rewrite Hi0.
    split_and!.
    + intros Hr. by apply Hbefore.
    + done.
    + simpl. rewrite Hf0. by destruct (fault w) as [[]|].
    + done.
  - unfold assign_preview. rewrite Hi0, Hd.
    change (images (raise TypeErrorInUpdater w0)) with (images w0). rewrite Hi0.
    split_and!.
    + intros Hr. by apply Hbefore.
    + done.
    + simpl. rewrite Hf0. by destruct (fault w) as [[]|].
    + done.
Qed.

Lemma result_lands_on_position_witness :
  ∃ blob,
    task_blob (answers 700) (PreviewTask 0 photo_item) = Some blob
    ∧ images (settle_task (answers 700) (PreviewTask 0 photo_item) (removeImage 0 gallery)) !! 0
      = Some (Object (with_preview 4 blob chart_item)).
Proof.
  eexists. split; [reflexivity|].
  exact (proj1 (proj2 (result_lands_on_position gallery 0 0 photo_item photo_item
                         (answers 700) _ eq_refl (le_n 0) eq_refl))).
Defined.

Lemma delete_insert_same {A} (l : list A) (i : nat) (x : A) :
  delete i (<[i := x]> l) = delete i l.
Proof.
  revert i. induction l as [|y l IH]; intros [|i]; simpl; [done..|]. by rewrite IH.
Qed.

(** X9.  An item is edited and removed before its debounce timer runs, and another
    item moves up to its position.  The timer still runs: it starts a preview
    regeneration of the removed item as it was before the edit and marks the
    item now at the position as processing; when the encode completes, that
    item is given the preview and the compressed size of the removed item's
    file. *)
Theorem pending_timer_outlives_removal (w : World) (index : nat) (s : Setting)
    (img next : CompressedImage) (b : Browser) (blob : Blob) :
  images w !! index = Some (Object img) →
  images w !! S index = Some (Object next) →
  timeouts w = [] → 0 < nextTimeout w →
  task_blob b (PreviewTask index img) = Some blob →
  let w1 := run [ChangeSetting index s; ClickRemove index; Elapse 1500] w in
  let w2 := step (Settle (List.length (inflight w)) b) w1 in
  inflight w1 = inflight w ++ [PreviewTask index img]
  ∧ images w1 = <[index := Object (with_processing true next)]> (delete index (images w))
  ∧ images w2
    = <[index := Object (with_preview (List.length (objectURLs w)) blob next)]>
        (delete index (images w))
  ∧ inflight w2 = inflight w.
Proof.
  intros Himg Hnext Ht Hn Hblob. cbv zeta.
  pose proof (lookup_lt_Some _ _ _ Himg) as Hlt.
  pose proof (lookup_lt_Some _ _ _ Hnext) as Hlt'.
  destruct (change_setting_effect index s img w Himg) as (Hi1 & Ht1 & Hr1 & Hn1 & Hc1 & Hf1);
    [by split; [|left]|].
  change (run [ChangeSetting index s; ClickRemove index; Elapse 1500] w)
    with (step (Elapse 1500) (step (ClickRemove index) (step (ChangeSetting index s) w))).
  assert (Hoa : List.length (objectURLs (step (ChangeSetting index s) w))
                = List.length (objectURLs w)).
  { simpl. rewrite Himg. unfold updateImageSettings.
    rewrite (update_item_found index _ img w Himg). simpl.
    destruct (previewTimeoutRefs w !! index); [case_bool_decide|]; done. }
  set (wa := step (ChangeSetting index s) w) in *.
  assert (Hia : images wa !! index = Some (Object (apply_setting s img))).
  { rewrite Hi1. by apply list_lookup_insert_eq. }
  assert (Hb : step (ClickRemove index) wa = removeImage index wa).
  { simpl. by rewrite Hia. }
  rewrite Hb. rewrite (removeImage_found index _ wa Hia).
  destruct (release_frame (apply_setting s img) wa) as (Hri & Hrt & Hrc & Hrf & _).
  pose proof (release_length (apply_setting s img) wa) as Hrl.
  set (wb := set_images _ _).
  assert (Hib : images wb = delete index (images w)).
  { unfold wb. simpl. rewrite Hi1. apply delete_insert_same. }
  assert (Htb : timeouts wb = timeouts wa) by exact Hrt.
  assert (Hcb : clock wb = clock w) by (rewrite <- Hc1; exact Hrc).
  assert (Hfb : inflight wb = inflight w) by (rewrite <- Hf1; exact Hrf).
  assert (Hob : List.length (objectURLs wb) = List.length (objectURLs w)).
  { rewrite <- Hoa. exact Hrl. }
  rewrite Ht1 in Htb. clearbody wb.
  rewrite (elapse_fires 1500 _ wb Htb) by (rewrite Hcb; simpl; lia).
  assert (Hnb : delete index (images w) !! index = Some (Object next)).
  { by rewrite list_lookup_delete_ge by lia. }
  assert (Hfire : fire (mkTimeout (nextTimeout w) (clock w + 1500) index (images w)) wb
                  = spawn (PreviewTask index img)
                      (set_images (<[index := Object (with_processing true next)]>
                                     (delete index (images w)))
                         (clearTimeout (nextTimeout w) wb))).
  { assert (Hic : images (clearTimeout (nextTimeout w) wb) !! index = Some (Object next))
      by (change (images (clearTimeout (nextTimeout w) wb)) with (images wb);
          by rewrite Hib).
    unfold fire, updatePreview. cbn [timeout_render timeout_index timeout_id].
    rewrite Himg. f_equal. rewrite (update_item_found index _ next _ Hic).
    change (images (clearTimeout (nextTimeout w) wb)) with (images wb). by rewrite Hib. }
  rewrite Hfire. clear Hfire.
  assert (Hfl : inflight wb ++ [PreviewTask index img]
                = inflight w ++ [PreviewTask index img]) by (by rewrite Hfb).
  split; [exact Hfl|]. split; [done|].
  rewrite (settle_last _ (inflight w) (PreviewTask index img) b) by exact Hfl.
  cbn [settle_task].
  rewrite (updatePreview_resume_success b index img blob) by done.
  rewrite (assign_preview_found index _ (with_processing true next))
    by (simpl; apply list_lookup_insert_eq; rewrite length_delete by eauto; lia).
  split.
  - destruct (compressedPreview (with_processing true next)); simpl;
      rewrite list_insert_insert_eq; by rewrite Hob.
  - by destruct (compressedPreview (with_processing true next)).
Qed.

Lemma pending_timer_outlives_removal_witness :
  ∃ blob,
    blob_content blob
    = Avif (of_Z 1000) (of_Z 500)
           (drawImage3 (Uploaded 0 (Dim.mk (of_Z 1000) (of_Z 500))) (of_Z 0) (of_Z 0))
           (Some (of_Z 75)) (of_Z 8)
    ∧ images (run [ChangeSetting 0 (Quality (of_Z 60)); ClickRemove 0; Elapse 1500;
                   Settle 0 (answers 700)] gallery)
      = [Object (with_preview 4 blob chart_item)].
Proof.
  eexists. split; [|
    exact (proj1 (proj2 (proj2
      (pending_timer_outlives_removal gallery 0 (Quality (of_Z 60)) photo_item
         chart_item (answers 700) _
         eq_refl eq_refl eq_refl ltac:(simpl; lia) eq_refl))))].
  reflexivity.
Defined.

(** ** Ingest *)

Lemma build_images_eq (files : list File) : ∀ w,
  build_images files w
  = (fresh_items (List.length (objectURLs w)) files,
     set_objectURLs (objectURLs w ++ fresh_urls files) w).
Proof.
  induction files as [|f rest IH]; intros w.
  { simpl. rewrite List.app_nil_r. by destruct w. }
  simpl. rewrite IH. simpl. rewrite !length_app. simpl. f_equal.
  - do 2 f_equal. lia.
  - unfold set_objectURLs. simpl. f_equal. by rewrite <- !List.app_assoc.
Qed.

Lemma fresh_urls_lookup (files : list File) : ∀ k f,
  files !! k = Some f → fresh_urls files !! (2 * k) = Some (Some (file_blob f)).
Proof.
  induction files as [|f0 rest IH]; intros k f Hk; [done|].
  destruct k as [|k]; simpl in *; [by simplify_eq|].
  replace (k + S (k + 0)) with (S (2 * k)) by lia. simpl. by apply IH.
Qed.

Lemma fresh_urls_length (files : list File) :
  List.length (fresh_urls files) = 2 * List.length files.
Proof. induction files as [|f rest IH]; simpl; [done|]. rewrite IH. lia. Qed.

Lemma fresh_items_lookup (files : list File) : ∀ first k f,
  files !! k = Some f →
  fresh_items first files !! k
  = Some (new_image f (first + 2 * k) (natural_size (blob_content (file_blob f)))).
Proof.
  induction files as [|f0 rest IH]; intros first k f Hk; [done|].
  destruct k as [|k]; simpl in *.
  - simplify_eq. by rewrite Nat.add_0_r.
  - rewrite (IH _ _ _ Hk). do 2 f_equal. lia.
Qed.

(** X10.  A drop keeps the files whose type starts with "image/".  When none is
    left an error toast is shown and nothing else happens.  Otherwise the
    list is unchanged until the dimensions are known and then grows by one
    item per accepted file, in the order of the drop; two object URLs are
    created per file, the first of them the item's preview, and both resolve
    to the file. *)
Theorem drop_ingests_images (files : list File) (b : Browser) (w : World) :
  let accepted := List.filter is_image files in
  let first := List.length (objectURLs w) in
  let dropped := step (DropFiles files) w in
  let w' := step (Settle (List.length (inflight w)) b) dropped in
  match accepted with
  | [] =>
      dropped
      = toast (mkToast "Error" (Text "Por favor, sube solo archivos de imagen") true) w
  | _ =>
      images dropped = images w
      ∧ images w' = images w ++ (Object <$> fresh_items first accepted)
      ∧ inflight w' = inflight w
      ∧ List.length (objectURLs w') = first + 2 * List.length accepted
      ∧ ∀ k f, accepted !! k = Some f →
          (preview <$> object_at (List.length (images w) + k) (images w'))
          = Some (Some (first + 2 * k))
          ∧ fetch (first + 2 * k) w' = Some (file_blob f)
          ∧ fetch (first + 2 * k + 1) w' = Some (file_blob f)
  end.
Proof.
  cbv zeta. change (step (DropFiles files) w) with (handleDrop files w).
  unfold handleDrop.
  change (List.filter (λ f : File, String.prefix "image/" (file_type f)) files)
    with (List.filter is_image files).
  destruct (List.filter is_image files) as [|f0 rest] eqn:Hacc; [done|].
  clear Hacc. generalize (f0 :: rest). intros accepted.
  unfold handleFileInput. rewrite build_images_eq.
  rewrite (settle_last _ (inflight w) (IngestTask (fresh_items (List.length (objectURLs w)) accepted)) b)
    by done.
  cbn [settle_task images inflight objectURLs set_images set_inflight spawn set_objectURLs].
  split_and!; try done.
  - rewrite length_app, fresh_urls_length. done.
  - intros k f Hk.
    assert (Hodd : fresh_urls accepted !! S (2 * k) = Some (Some (file_blob f))).
    { clear -Hk. revert k Hk. induction accepted as [|g l IH]; intros k Hk; [done|].
      destruct k as [|k]; simpl in *; [by simplify_eq|].
      replace (k + S (k + 0)) with (S (2 * k)) by lia. simpl. by apply IH. }
    pose proof (fresh_urls_lookup _ _ _ Hk) as Heven.
    pose proof (fresh_items_lookup _ (List.length (objectURLs w)) _ _ Hk) as Hitem.
    split_and!.
    + unfold object_at. rewrite lookup_app_r by lia.
      replace (_ - _) with k by lia. rewrite list_lookup_fmap. by rewrite Hitem.
    + unfold fetch. cbn [objectURLs set_images set_inflight spawn set_objectURLs].
      rewrite lookup_app_r by lia.
      replace (_ - _) with (2 * k) by lia. by rewrite Heven.
    + unfold fetch. cbn [objectURLs set_images set_inflight spawn set_objectURLs].
      rewrite lookup_app_r by lia.
      replace (_ - _) with (S (2 * k)) by lia. by rewrite Hodd.
Qed.

(** ** No item shows a revoked URL *)

Lemma live_objectURLs (u : URL) (w w' : World) :
  objectURLs w' = objectURLs w → live u w' = live u w.
Proof. intros H. unfold live, fetch. by rewrite H. Qed.

Lemma live_new (blob : Blob) (w : World) :
  live (List.length (objectURLs w)) (createObjectURL blob w).2 = true.
Proof.
  apply live_spec. exists blob. simpl.
  rewrite lookup_app_r by lia. by rewrite Nat.sub_diag.
Qed.

Lemma sound_grow (w w' : World) :
  held w' ≡ₚ held w → (∀ u, live u w = true → live u w' = true) →
  handles_sound w → handles_sound w'.
Proof.
  intros Hp Hl [Hd Hlive]. split; [by rewrite Hp|].
  intros u Hu. rewrite Hp in Hu. by apply Hl, Hlive.
Qed.

Lemma keeps_held_sound (w w' : World) :
  keeps_held w w' → handles_sound w → handles_sound w'.
Proof.
  intros [Hh Ho]. apply sound_grow; [by rewrite Hh|].
  intros u. by rewrite (live_objectURLs u w w' Ho).
Qed.

Lemma keeps_held_trans (w1 w2 w3 : World) :
  keeps_held w1 w2 → keeps_held w2 w3 → keeps_held w1 w3.
Proof. intros [H1 H2] [H3 H4]. split; congruence. Qed.

(** The item at one position is replaced, or taken out. *)
Lemma sound_swap (w w' : World) (H H' R : list URL) :
  handles_sound w →
  held w ≡ₚ H ++ R → held w' ≡ₚ H' ++ R →
  (∀ u, u ∈ R → u ∉ H → live u w = true → live u w' = true) →
  NoDup H' → (∀ u, u ∈ H' → live u w' = true ∧ u ∉ R) →
  handles_sound w'.
Proof.
  intros [Hd Hlive] Hp Hp' Hframe Hd' Hnew.
  rewrite Hp in Hd. apply list.NoDup_app in Hd as (HdH & Hdis & HdR).
  split.
  - rewrite Hp'. apply list.NoDup_app. split_and!; [done| |done].
    intros u Hu. by apply Hnew.
  - intros u Hu. rewrite Hp' in Hu. apply elem_of_app in Hu as [Hu | Hu].
    + by apply Hnew.
    + apply Hframe; [done| |].
      * intros HuH. by apply (Hdis u).
      * apply Hlive. rewrite Hp. apply elem_of_app. by right.
Qed.

Lemma bind_insert_same {A B} (f : A → list B) (l : list A) (i : nat) (x y : A) :
  l !! i = Some y → f x = f y → <[i := x]> l ≫= f = l ≫= f.
Proof.
  revert i. induction l as [|z l IH]; intros [|i] Hi Hf; simpl in Hi; [done..| |].
  - simplify_eq. change (<[0 := x]> (y :: l)) with (x :: l). by rewrite !bind_cons, Hf.
  - change (<[S i := x]> (z :: l)) with (z :: <[i := x]> l).
    rewrite !bind_cons. by rewrite (IH i).
Qed.

Lemma bind_holes (n : nat) : replicate n Undefined ≫= entry_handles = [].
Proof.
  induction n as [|n IH]; [done|].
  change (replicate (S n) Undefined) with (Undefined :: replicate n Undefined).
  by rewrite bind_cons, IH.
Qed.

Lemma bind_objects (l : list CompressedImage) :
  (Object <$> l) ≫= entry_handles = l ≫= handles.
Proof.
  induction l as [|x l IH]; [done|]. rewrite fmap_cons, !bind_cons, IH. done.
Qed.

Lemma handles_keeps (change : CompressedImage → CompressedImage) (img : CompressedImage) :
  keeps_handles change → handles (change img) = handles img.
Proof. intros Hc. destruct (Hc img) as [H1 H2]. unfold handles. by rewrite H1, H2. Qed.

(** Storing an object that holds what the entry at the position held. *)
Lemma bind_store (index : nat) (x : CompressedImage) (l : list Entry) :
  handles x = entry_handles (default Undefined (l !! index)) →
  store index (Object x) l ≫= entry_handles = l ≫= entry_handles.
Proof.
  intros Hx. unfold store. case_bool_decide as Hlt.
  - destruct (lookup_lt_is_Some_2 l index Hlt) as [e He]. rewrite He in Hx.
    by apply (bind_insert_same _ _ _ _ e).
  - rewrite lookup_ge_None_2 in Hx by lia. simpl in Hx.
    rewrite !bind_app, bind_holes, bind_singleton. simpl. rewrite Hx.
    by rewrite !List.app_nil_r.
Qed.

Lemma update_item_keeps (index : nat) (change : CompressedImage → CompressedImage)
    (w : World) :
  keeps_handles change → keeps_held w (update_item index change w).
Proof.
  intros Hc. unfold update_item. split; [|done]. unfold held, pending_items. simpl.
  f_equal. apply bind_store. rewrite (handles_keeps change _ Hc).
  by destruct (images w !! index) as [[img|]|].
Qed.

Lemma spawn_keeps (t : Task) (w : World) : ingested t = [] → keeps_held w (spawn t w).
Proof.
  intros Ht. split; [|done]. unfold held, pending_items. simpl.
  rewrite (bind_app ingested), bind_singleton, Ht. by rewrite List.app_nil_r.
Qed.

Lemma held_item (w : World) (index : nat) (img : CompressedImage) :
  images w !! index = Some (Object img) →
  held w ≡ₚ handles img
            ++ ((delete index (images w) ≫= entry_handles) ++ (pending_items w ≫= handles)).
Proof.
  intros H. unfold held.
  rewrite (delete_Permutation (images w) index _ H) at 1.
  rewrite bind_cons. simpl. by rewrite <- List.app_assoc.
Qed.

(** What is held after the object at a position is replaced. *)
Lemma held_replaced (w w0 : World) (index : nat) (x : CompressedImage) :
  (index < List.length (images w))%nat → pending_items w0 = pending_items w →
  held (set_images (<[index := Object x]> (images w)) w0)
  ≡ₚ handles x
     ++ ((delete index (images w) ≫= entry_handles) ++ (pending_items w ≫= handles)).
Proof.
  intros Hlt Hp. unfold held.
  change (images (set_images (<[index := Object x]> (images w)) w0))
    with (<[index := Object x]> (images w)).
  change (pending_items (set_images (<[index := Object x]> (images w)) w0))
    with (pending_items w0).
  rewrite Hp.
  rewrite (delete_Permutation (<[index := Object x]> (images w)) index (Object x))
    by (by apply list_lookup_insert_eq).
  rewrite delete_insert_same, bind_cons. simpl. by rewrite <- List.app_assoc.
Qed.

Lemma elem_of_held_lt (u : URL) (w : World) :
  handles_sound w → u ∈ held w → u < List.length (objectURLs w).
Proof. intros [_ H] Hu. by apply live_lt, H. Qed.

Lemma elem_of_handles (u : URL) (img : CompressedImage) :
  u ∈ handles img ↔ mentions u img.
Proof.
  unfold handles, mentions. rewrite elem_of_app.
  destruct (preview img) as [p|], (compressedPreview img) as [c|]; simpl;
    rewrite ?list_elem_of_singleton, ?elem_of_nil;
    split; intros [Hu | Hu]; try done; try (left; congruence); right; congruence.
Qed.

Lemma live_released (u : URL) (img : CompressedImage) (w : World) :
  u ∉ handles img → live u w = true → live u (release img w) = true.
Proof. rewrite elem_of_handles. apply live_release. Qed.

Lemma removeImage_sound (index : nat) (w : World) :
  handles_sound w → handles_sound (removeImage index w).
Proof.
  intros Hs. destruct (images w !! index) as [[img|]|] eqn:E.
  2,3: unfold removeImage; rewrite E; by apply (keeps_held_sound w).
  rewrite (removeImage_found index img w E).
  apply (sound_swap w _ (handles img) []
           ((delete index (images w) ≫= entry_handles) ++ (pending_items w ≫= handles)));
    try done.
  - by apply held_item.
  - unfold held, pending_items, release.
    by destruct (preview img), (compressedPreview img).
  - intros u _ Hu Hl.
    rewrite (live_objectURLs u (release img w) (set_images _ (release img w))) by done.
    by apply live_released.
  - apply NoDup_nil_2.
  - intros u Hu. by apply elem_of_nil in Hu.
Qed.

(** The updater of a finished encode. *)
Lemma assign_preview_sound (index : nat) (blob : Blob) (change : CompressedImage → CompressedImage)
    (w : World) :
  (change = with_preview (List.length (objectURLs w)) blob
   ∨ change = with_compressed (List.length (objectURLs w)) blob) →
  handles_sound w →
  handles_sound (assign_preview index change (createObjectURL blob w).2).
Proof.
  intros Hc Hs.
  assert (Hgrow : handles_sound (createObjectURL blob w).2).
  { apply (sound_grow w); [reflexivity | intros u; apply live_create | done]. }
  destruct (images w !! index) as [[cur|]|] eqn:E.
  2,3: unfold assign_preview; simpl; rewrite E;
       by apply (keeps_held_sound (createObjectURL blob w).2).
  rewrite (assign_preview_found index change cur) by done.
  pose proof (lookup_lt_Some _ _ _ E) as Hlt.
  pose proof (held_item w index cur E) as Hp.
  set (R := (delete index (images w) ≫= entry_handles) ++ (pending_items w ≫= handles)) in *.
  assert (Hcur : ∀ u, u ∈ handles cur → u < List.length (objectURLs w)).
  { intros u Hu. apply elem_of_held_lt; [done|]. rewrite Hp. apply elem_of_app. by left. }
  assert (HR : ∀ u, u ∈ R → u < List.length (objectURLs w)).
  { intros u Hu. apply elem_of_held_lt; [done|]. rewrite Hp. apply elem_of_app. by right. }
  assert (Hd : NoDup (handles cur ++ R)) by (rewrite <- Hp; apply Hs).
  apply list.NoDup_app in Hd as (HdH & Hdis & HdR).
  assert (Hh' : handles (change cur)
                = option_list (preview cur) ++ [List.length (objectURLs w)])
    by (by destruct Hc as [-> | ->]).
  set (w0 := revoke (compressedPreview cur) (createObjectURL blob w).2).
  assert (Hlive0 : ∀ u, compressedPreview cur ≠ Some u →
                        live u w = true → live u w0 = true).
  { intros u Hne Hl. unfold w0. apply live_revoke_opt; [done|]. by apply live_create. }
  apply (sound_swap w _ (handles cur) (handles (change cur)) R); try done.
  - apply (held_replaced w w0 index (change cur) Hlt).
    unfold w0. by destruct (compressedPreview cur).
  - intros u Hu Hn Hl.
    rewrite (live_objectURLs u w0 (set_images _ w0)) by done.
    apply Hlive0; [|done].
    intros Hold. apply Hn. apply elem_of_handles. by right.
  - rewrite Hh'. apply list.NoDup_app. split_and!; [|  |apply NoDup_singleton].
    + destruct (preview cur); [apply NoDup_singleton | apply NoDup_nil_2].
    + intros u Hu Hin. apply list_elem_of_singleton in Hin as ->.
      assert (List.length (objectURLs w) ∈ handles cur).
      { unfold handles. apply elem_of_app. by left. }
      specialize (Hcur _ ltac:(done)). lia.
  - intros u Hu. rewrite Hh' in Hu.
    rewrite (live_objectURLs u w0 (set_images _ w0)) by done.
    apply elem_of_app in Hu as [Hu | Hu].
    + assert (Hpre : preview cur = Some u).
      { destruct (preview cur); [|by apply elem_of_nil in Hu].
        apply list_elem_of_singleton in Hu. by subst. }
      assert (Hin : u ∈ handles cur) by (apply elem_of_handles; by left).
      split.
      * apply Hlive0.
        -- intros Hold. unfold handles in HdH. rewrite Hpre, Hold in HdH. simpl in HdH.
           apply list.NoDup_cons in HdH as [Hnin _]. apply Hnin. left.
        -- apply Hs. rewrite Hp. apply elem_of_app. by left.
      * by apply Hdis.
    + apply list_elem_of_singleton in Hu as ->. split.
      * unfold w0. apply live_revoke_opt; [|apply live_new].
        intros Hold.
        assert (List.length (objectURLs w) ∈ handles cur) by (apply elem_of_handles; by right).
        specialize (Hcur _ ltac:(done)). lia.
      * intros Hin. specialize (HR _ Hin). lia.
Qed.

(** The updater of a finished crop. *)
Lemma replace_source_sound (index : nat) (f : File) (blob : Blob) (d : Dim.t) (w : World) :
  handles_sound w →
  handles_sound (replace_source index f (List.length (objectURLs w)) blob d
                   (getImageDimensions f (createObjectURL blob w).2).2).
Proof.
  intros Hs.
  set (w0 := (getImageDimensions f (createObjectURL blob w).2).2).
  assert (Hl0 : ∀ u, live u w = true → live u w0 = true).
  { intros u Hu. unfold w0, getImageDimensions.
    apply (live_create u (file_blob f) (createObjectURL blob w).2). by apply live_create. }
  assert (Hnew : live (List.length (objectURLs w)) w0 = true).
  { unfold w0, getImageDimensions.
    apply (live_create _ (file_blob f) (createObjectURL blob w).2). apply live_new. }
  unfold replace_source. change (images w0) with (images w).
  destruct (images w !! index) as [[cur|]|] eqn:E.
  2,3: apply (sound_grow w); [done | | done];
       intros u Hu; rewrite (live_objectURLs u w0 (raise TypeErrorInUpdater w0)) by done;
       by apply Hl0.
  change (revoke (compressedPreview cur) (revoke (preview cur) w0)) with (release cur w0).
  assert (Hri : images (release cur w0) = images w).
  { unfold release. by destruct (preview cur), (compressedPreview cur). }
  rewrite Hri.
  pose proof (lookup_lt_Some _ _ _ E) as Hlt.
  pose proof (held_item w index cur E) as Hp.
  set (R := (delete index (images w) ≫= entry_handles) ++ (pending_items w ≫= handles)) in *.
  assert (Hcur : ∀ u, u ∈ handles cur → u < List.length (objectURLs w)).
  { intros u Hu. apply elem_of_held_lt; [done|]. rewrite Hp. apply elem_of_app. by left. }
  assert (HR : ∀ u, u ∈ R → u < List.length (objectURLs w)).
  { intros u Hu. apply elem_of_held_lt; [done|]. rewrite Hp. apply elem_of_app. by right. }
  apply (sound_swap w _ (handles cur) [List.length (objectURLs w)] R); try done.
  - apply (held_replaced w (release cur w0) index
             (with_crop f (List.length (objectURLs w)) blob d cur) Hlt).
    unfold release. by destruct (preview cur), (compressedPreview cur).
  - intros u Hu Hn Hl.
    rewrite (live_objectURLs u (release cur w0) (set_images _ (release cur w0))) by done.
    apply live_released; [done|]. by apply Hl0.
  - apply NoDup_singleton.
  - intros u Hu. apply list_elem_of_singleton in Hu as ->.
    rewrite (live_objectURLs _ (release cur w0) (set_images _ (release cur w0))) by done.
    split.
    + apply live_released; [|done]. intros Hin. specialize (Hcur _ Hin). lia.
    + intros Hin. specialize (HR _ Hin). lia.
Qed.

Lemma fresh_handles_spec (files : list File) : ∀ first u,
  u ∈ fresh_items first files ≫= handles →
  ∃ k f, files !! k = Some f ∧ u = first + 2 * k.
Proof.
  induction files as [|f rest IH]; intros first u Hu; [by apply elem_of_nil in Hu|].
  cbn [fresh_items] in Hu. rewrite bind_cons in Hu. apply elem_of_app in Hu as [Hu | Hu].
  - simpl in Hu. apply list_elem_of_singleton in Hu as ->. exists 0, f. split; [done | simpl; lia].
  - destruct (IH _ _ Hu) as (k & g & Hk & ->). exists (S k), g. split; [done | lia].
Qed.

Lemma fresh_handles_NoDup (files : list File) : ∀ first,
  NoDup (fresh_items first files ≫= handles).
Proof.
  induction files as [|f rest IH]; intros first; [apply NoDup_nil_2|].
  cbn [fresh_items]. rewrite bind_cons.
  apply list.NoDup_app. split_and!; [apply NoDup_singleton| |done].
  intros u Hu Hin. simpl in Hu. apply list_elem_of_singleton in Hu as ->.
  apply fresh_handles_spec in Hin as (k & g & _ & Hk). simpl in Hk. lia.
Qed.

Lemma handleFileInput_sound (files : list File) (w : World) :
  handles_sound w → handles_sound (handleFileInput files w).
Proof.
  intros Hs. unfold handleFileInput. rewrite build_images_eq.
  apply (sound_swap w _ [] (fresh_items (List.length (objectURLs w)) files ≫= handles)
           (held w)); try done.
  - unfold held at 1, pending_items. simpl.
    rewrite (bind_app ingested), bind_singleton. simpl.
    rewrite bind_app.
    rewrite (Permutation_app_comm (fresh_items _ _ ≫= handles)).
    unfold held, pending_items. by rewrite <- List.app_assoc.
  - intros u Hu _ Hl. apply live_spec in Hl as [blob Hl]. apply live_spec. exists blob.
    simpl. by apply lookup_app_l_Some.
  - apply fresh_handles_NoDup.
  - intros u Hu. apply fresh_handles_spec in Hu as (k & f & Hk & ->). split.
    + apply live_spec. exists (file_blob f). simpl.
      rewrite lookup_app_r by lia.
      replace (_ - _) with (2 * k) by lia. by apply fresh_urls_lookup.
    + intros Hin. apply (elem_of_held_lt _ w Hs) in Hin. lia.
Qed.

Lemma settle_task_sound (b : Browser) (t : Task) (w : World) :
  ingested t = [] → handles_sound w → handles_sound (settle_task b t w).
Proof.
  intros Ht Hs.
  destruct t as [newImages | index img | index img | index fetched area]; simpl.
  - simpl in Ht. subst. apply (keeps_held_sound w); [|done].
    split; [|done]. unfold held. simpl. by rewrite List.app_nil_r.
  - unfold updatePreview_resume.
    destruct (compressImageWithJSquash _ _ _ _ _ _) as [e | [blob d]].
    + apply (keeps_held_sound w); [|done].
      apply (keeps_held_trans _ (console_error (ErrorEnPreview e) w)); [done|].
      by apply update_item_keeps.
    + apply assign_preview_sound; [by left | done].
  - unfold compressImage_resume.
    destruct (compressImageWithJSquash _ _ _ _ _ _) as [e | [blob d]].
    + apply (keeps_held_sound w); [|done].
      apply (keeps_held_trans _
               (toast (mkToast "Error" (MessageOf e) true)
                  (console_error (ErrorAlComprimir e) w))); [done|].
      by apply update_item_keeps.
    + unfold createObjectURL at 1.
      eapply keeps_held_sound; [|apply (assign_preview_sound index blob); [by right | done]].
      done.
  - unfold applyCrop_resume.
    destruct (createCroppedImage _ _ _) as [e | [f blob]].
    + by apply (keeps_held_sound w).
    + unfold createObjectURL at 1. unfold getImageDimensions at 1.
      eapply keeps_held_sound; [|apply (replace_source_sound index f blob); done].
      done.
Qed.

Lemma settle_ingest_sound (k : nat) (newImages : list CompressedImage) (w : World) :
  inflight w !! k = Some (IngestTask newImages) → handles_sound w →
  handles_sound (set_images (images w ++ (Object <$> newImages))
                   (set_inflight (delete k (inflight w)) w)).
Proof.
  intros Hk. apply sound_grow; [|done].
  unfold held, pending_items. simpl.
  rewrite (delete_Permutation (inflight w) k _ Hk) at 2.
  rewrite bind_cons, !bind_app, bind_objects. simpl.
  by rewrite <- !List.app_assoc.
Qed.

Lemma dequeue_sound (k : nat) (t : Task) (w : World) :
  inflight w !! k = Some t → ingested t = [] → handles_sound w →
  handles_sound (set_inflight (delete k (inflight w)) w).
Proof.
  intros Hk Ht. apply sound_grow; [|done].
  unfold held, pending_items. simpl.
  rewrite (delete_Permutation (inflight w) k _ Hk) at 2.
  rewrite bind_cons, Ht. done.
Qed.

Lemma updatePreview_keeps (render : list Entry) (index : nat) (w : World) :
  keeps_held w (updatePreview render index w).
Proof.
  unfold updatePreview. destruct (render !! index) as [[img|]|]; [|done..].
  eapply keeps_held_trans; [apply (update_item_keeps index (with_processing true)) |
                            by apply spawn_keeps].
  by intros ?.
Qed.

Lemma fire_keeps (t : Timeout) (w : World) : keeps_held w (fire t w).
Proof.
  unfold fire.
  apply (keeps_held_trans _ (clearTimeout (timeout_id t) w)); [done|].
  apply updatePreview_keeps.
Qed.

Lemma run_timers_keeps (fuel until : nat) : ∀ w, keeps_held w (run_timers fuel until w).
Proof.
  induction fuel as [|fuel IH]; intros w; [done|].
  simpl. destruct (earliest _); [|done].
  eapply keeps_held_trans; [apply fire_keeps | apply IH].
Qed.

Lemma step_sound (e : Event) (w : World) : handles_sound w → handles_sound (step e w).
Proof.
  intros Hs.
  destruct e as [files|files|index|index|index s|index|area| | |ms|k b]; simpl.
  - by apply handleFileInput_sound.
  - unfold handleDrop. destruct (List.filter _ files) as [|f l] eqn:Hf.
    + by apply (keeps_held_sound w).
    + by apply handleFileInput_sound.
  - destruct (images w !! index) as [[img|]|]; [|done..]. by apply removeImage_sound.
  - destruct (images w !! index) as [[img|]|] eqn:E; [|done..].
    destruct (can_compress img); [|done]. unfold compressImage. rewrite E.
    apply (keeps_held_sound w); [|done].
    eapply keeps_held_trans; [apply (update_item_keeps index (with_processing true)) |
                              by apply spawn_keeps].
    by intros ?.
  - destruct (images w !! index) as [[img|]|]; [|done..].
    apply (keeps_held_sound w); [|done]. unfold updateImageSettings.
    apply (keeps_held_trans _ (update_item index (apply_setting s) w)).
    { apply update_item_keeps. intros ?. by destruct s. }
    destruct (previewTimeoutRefs _ !! index) as [id|]; [|done].
    by case_bool_decide.
  - destruct (images w !! index) as [[img|]|]; [|done..]. by destruct (is_processing img).
  - destruct (cropModalOpen w), (currentCropIndex w) as [index|]; try done.
    by destruct (images w !! index) as [[img|]|].
  - by destruct (cropModalOpen w).
  - destruct (cropModalOpen w); [|done]. unfold applyCrop.
    destruct (currentCropIndex w) as [index|], (croppedAreaPixels w); try done.
    destruct (images w !! index) as [[img|]|]; [|done..].
    apply (keeps_held_sound w); [|done]. by apply spawn_keeps.
  - apply (keeps_held_sound w); [|done]. unfold elapse.
    apply (keeps_held_trans _ (run_timers (List.length (timeouts w)) (clock w + ms) w));
      [apply run_timers_keeps | done].
  - destruct (inflight w !! k) as [t|] eqn:E; [|done].
    destruct t as [newImages | index img | index img | index fetched area].
    + exact (settle_ingest_sound k newImages w E Hs).
    + apply settle_task_sound; [done|]. by apply (dequeue_sound k _ w E).
    + apply settle_task_sound; [done|]. by apply (dequeue_sound k _ w E).
    + apply settle_task_sound; [done|]. by apply (dequeue_sound k _ w E).
Qed.

Lemma run_sound (events : list Event) : ∀ w,
  handles_sound w → handles_sound (run events w).
Proof.
  induction events as [|e events IH]; intros w H; [done|].
  simpl. by apply IH, step_sound.
Qed.

Lemma initial_sound : handles_sound initial.
Proof. split; [apply NoDup_nil_2 | intros u Hu; by apply elem_of_nil in Hu]. Qed.

(** X5.  Whatever the user and the browser do, starting from the empty screen, the
    source and the preview an object of the list shows, where it has them,
    are object URLs that have not been revoked, and no two of the URLs shown
    are the same.  This includes the objects a late updater stores at a
    vacated position, which hold no URL until a result is assigned to
    them. *)
Theorem shown_urls_are_live (events : list Event) :
  let w := run events initial in
  (∀ index img, images w !! index = Some (Object img) →
     (∀ u, preview img = Some u → live u w = true)
     ∧ ∀ u, compressedPreview img = Some u → live u w = true ∧ preview img ≠ Some u)
  ∧ ∀ i j a c, images w !! i = Some (Object a) → images w !! j = Some (Object c) → i ≠ j →
      ∀ u, u ∈ handles a → u ∉ handles c.
Proof.
  cbv zeta. pose proof (run_sound events initial initial_sound) as Hs.
  set (w := run events initial) in *. clearbody w. split.
  - intros index img E. destruct Hs as [Hd Hl].
    pose proof (held_item w index img E) as Hp.
    assert (Hin : ∀ u, u ∈ handles img → live u w = true).
    { intros u Hu. apply Hl. rewrite Hp. apply elem_of_app. by left. }
    split; [intros u Hu; apply Hin, elem_of_handles; by left|].
    intros u Hu. split; [apply Hin, elem_of_handles; by right|].
    rewrite Hp in Hd. apply list.NoDup_app in Hd as (Hd & _).
    intros Hpre. unfold handles in Hd. rewrite Hu, Hpre in Hd. simpl in Hd.
    apply list.NoDup_cons in Hd as [Hn _]. apply Hn. left.
  - intros i j a c Ei Ej Hne u Hua Huc. destruct Hs as [Hd _].
    rewrite (held_item w i a Ei) in Hd. apply list.NoDup_app in Hd as (_ & Hdis & _).
    apply (Hdis u Hua). apply elem_of_app. left.
    apply list_elem_of_bind. exists (Object c). split; [done|].
    apply list_elem_of_lookup.
    destruct (decide (j < i)).
    + exists j. by rewrite list_lookup_delete_lt.
    + exists (j - 1). rewrite list_lookup_delete_ge by lia.
      by replace (S (j - 1)) with j by lia.
Qed.

(** ** Target fields of any text *)

Local Open Scope Z_scope.

Lemma truthy_false (x : number) : truthy x = false ↔ x = NaN ∨ x = of_Z 0.
Proof.
  destruct x as [q| | |]; unfold truthy.
  - rewrite negb_false_iff, bool_decide_eq_true. split.
    + intros ->. by right.
    + intros [? | H]; [done|]. rewrite of_Z_eq in H.
      assert (q = Qc_of_Z 0) as -> by congruence. apply Z2Qc_inj_0.
  - split; [done|]. intros [? | H]; [done|]. by rewrite of_Z_eq in H.
  - split; [done|]. intros [? | H]; [done|]. by rewrite of_Z_eq in H.
  - split; [by left | done].
Qed.

(** X11.  A target field counts as not given exactly when it is empty, or its text
    does not start with a number, or the number it starts with is 0.  With
    both fields so, the resolver returns the original dimensions, and an
    encode that succeeds draws the source unscaled at its natural size. *)
Theorem falsy_target_means_auto (img : CompressedImage) :
  (∀ s, truthy_opt (parse_target (Some s)) = false
        ↔ s = EmptyString ∨ parseInt s = NaN ∨ parseInt s = of_Z 0)
  ∧ (truthy_opt (parse_target (width img)) = false →
     truthy_opt (parse_target (height img)) = false →
     calculateFinalDimensions img = dimensions img
     ∧ ∀ b isPreview blob d,
         encode_result b img isPreview = inr (blob, d) →
         ∃ f, file img = Some f
              ∧ let source := blob_content (file_blob f) in
                d = natural_size source
                ∧ blob_content blob
                  = Avif (Dim.width d) (Dim.height d) (drawImage3 source (of_Z 0) (of_Z 0))
                         (quality img) (if isPreview then of_Z 8 else of_Z 4)).
Proof.
  split.
  - intros s. unfold parse_target. case_bool_decide as Hs; simpl.
    { split; [by left | done]. }
    rewrite truthy_false. split; [by right|]. by intros [? | ?].
  - intros Hx Hy. split.
    + unfold calculateFinalDimensions. rewrite Hx, Hy. by destruct (dimensions img).
    + intros b isPreview blob d. unfold encode_result, compressImageWithJSquash.
      rewrite Hx, Hy. destruct (file img) as [f|]; [|done]. simpl.
      unfold createImageBitmap.
      destruct (decodable b); [|done]. simpl.
      destruct (context2d b); [|done]. simpl.
      destruct (encoded b); [|done]. intros [= <- <-]. simpl.
      exists f. split; [done|]. by destruct (natural_size _), isPreview.
Qed.

(** X12.  For an item that has its file and records the file's natural size, and
    for any text in the two target fields (negative, zero or not a number
    included): the dimensions the resolver shows and the dimensions a
    successful encode of the item returns have the same width, and they are
    the same unless the width field alone counts as given.  With the width
    alone given they are still the same where the natural size and the
    target are positive integers below [2^24] and the height that keeps the
    aspect ratio is not halfway between two integers; at a halfway value the
    card can show one height and the encode produce the other. *)
Theorem resolver_agrees_with_pipeline (img : CompressedImage) (f : File) (b : Browser)
    (isPreview : bool) (blob : Blob) (d : Dim.t) :
  file img = Some f →
  dimensions img = Some (natural_size (blob_content (file_blob f))) →
  encode_result b img isPreview = inr (blob, d) →
  ∃ rd, calculateFinalDimensions img = Some rd
        ∧ Dim.width d = Dim.width rd
        ∧ (truthy_opt (parse_target (width img)) = false
           ∨ truthy_opt (parse_target (height img)) = true → d = rd)
        ∧ ∀ w h tw, pixels w → pixels h → pixels tw →
            natural_size (blob_content (file_blob f)) = Dim.mk (of_Z w) (of_Z h) →
            parse_target (width img) = Some (of_Z tw) →
            ¬ halfway (tw * h) w → d = rd.
Proof.
  intros Hf Hd. unfold encode_result, compressImageWithJSquash, createImageBitmap.
  unfold calculateFinalDimensions. rewrite Hf, Hd. simpl.
  destruct (decodable b); [|done]. cbn [bitmap_width bitmap_height bitmap_of].
  destruct (natural_size (blob_content (file_blob f))) as [nw nh] eqn:Hn.
  cbn [Dim.width Dim.height].
  destruct (truthy_opt (parse_target (width img))) eqn:Hx,
           (truthy_opt (parse_target (height img))) eqn:Hy;
    cbn [negb andb orb];
    (destruct (context2d b); [|done]); cbn [negb];
    (destruct (encoded b); [|done]); intros [= <- <-];
    rewrite 1?(js_mul_comm _ (js_div nw nh));
    eexists; (split; [reflexivity|]); (split; [reflexivity|]).
  - split; [done|]. intros w h tw Hw Hh Htw _ Ht _. done.
  - split; [by intros [? | ?]|].
    intros w h tw Hw Hh Htw [= -> ->] Ht Hnh. rewrite Ht. cbn [default id].
    assert (Hw0 : 0 < w) by (unfold pixels in Hw; lia).
    destruct (round_width_target tw w h Htw Hw Hh) as (rh & -> & Hrh).
    destruct (round_scaled tw h w Htw Hh Hw) as (ph & -> & Hph).
    rewrite (closest_not_halfway rh _ _ Hw0 Hrh Hnh).
    by rewrite (closest_not_halfway ph _ _ Hw0 Hph Hnh).
  - split; [done|]. by intros w h tw Hw Hh Htw _ Ht _.
  - split; [done|]. by intros w h tw Hw Hh Htw _ Ht _.
Qed.

Lemma resolver_agrees_with_pipeline_witness :
  calculateFinalDimensions (with_height "-5" photo_item)
  = Some (Dim.mk (of_Z (-10)) (of_Z (-5))).
Proof.
  destruct (resolver_agrees_with_pipeline (with_height "-5" photo_item) photo (answers 10)
              false
              (mkBlob (Avif (of_Z (-10)) (of_Z (-5))
                         (drawImage5 (blob_content (file_blob photo)) (of_Z 0) (of_Z 0)
                            (of_Z (-10)) (of_Z (-5)))
                         (Some (of_Z 75)) (of_Z 4)) 10 "image/avif")
              (Dim.mk (of_Z (-10)) (of_Z (-5))) eq_refl eq_refl)
    as (rd & -> & _ & H & _).
  - vm_compute. reflexivity.
  - rewrite <- H; [reflexivity|]. left. vm_compute. reflexivity.
Defined.

(** ** Numerals *)

Local Open Scope Z_scope.

Lemma append_empty (s : string) : (s +:+ "")%string = s.
Proof.
  induction s as [|c s IH]; [done|].
  change (String c (s +:+ "") = String c s). by rewrite IH.
Qed.

(** An integer is printed by its decimal numeral. *)
Lemma number_toString_of_N (n : N) :
  number_toString (of_N n) = NilZero.string_of_uint (N.to_uint n).
Proof.
  unfold of_N. rewrite of_Z_eq.
  cbv [number_toString Qc_of_Z this inject_Z Qnum Qden positive_toString].
  rewrite (bool_decide_eq_false_2 (Z.of_N n < 0)%Z) by lia.
  rewrite (bool_decide_eq_true_2 (1 = 1)%Z) by done.
  rewrite Z.abs_eq by lia. rewrite N2Z.id.
  reflexivity.
Qed.

(** An integer below [2^53] is a double. *)
Lemma binary64_integer (z : Z) :
  0 ≤ z < 2 ^ 53 → binary64 (Q2Qc (inject_Z z)) = of_Z z.
Proof.
  intros Hz. rewrite <- (binary64_of_Z z Hz). f_equal.
  pose proof (of_Z_eq z) as H. unfold of_Z in H. congruence.
Qed.

Lemma parse_digits_stop (rest : string) (acc : option Z) :
  ends_numeral rest → parse_digits 10 rest acc = acc.
Proof. destruct rest as [|c rest]; [done|]. intros H. simpl. by rewrite H. Qed.

Lemma parse_digits_numeral (rest : string) (d : Decimal.uint) :
  ends_numeral rest →
  ∀ acc, parse_digits 10 (NilEmpty.string_of_uint d +:+ rest) (Some acc)
         = Some (uint_value d acc).
Proof.
  intros Hrest. induction d; intros acc;
    try (cbn [NilEmpty.string_of_uint uint_value];
         change (append (String ?c ?s) rest) with (String c (append s rest));
         cbn [parse_digits];
         match goal with |- context [digit_value 10 ?c] =>
           let v := eval vm_compute in (digit_value 10 c) in
           change (digit_value 10 c) with v
         end; cbn [default]; by rewrite IHd).
  cbn [NilEmpty.string_of_uint uint_value].
  change (append EmptyString rest) with rest. by apply parse_digits_stop.
Qed.

Lemma of_uint_acc_value (d : Decimal.uint) :
  ∀ acc, Z.pos (Pos.of_uint_acc d acc) = uint_value d (Z.pos acc).
Proof.
  induction d; intros acc; cbn [Pos.of_uint_acc uint_value]; [done|..];
    rewrite IHd; f_equal; lia.
Qed.

Lemma of_uint_value (d : Decimal.uint) : Z.of_N (Pos.of_uint d) = uint_value d 0.
Proof.
  induction d; cbn [Pos.of_uint uint_value]; [done | exact IHd |..];
    cbn [Z.of_N]; by rewrite of_uint_acc_value.
Qed.

(** [parseInt] on a string that starts with a decimal digit: a leading "0"
    followed by "x" would make it a hexadecimal numeral. *)
Lemma parseInt_decimal_start (c : ascii) (s : string) (k : Z) :
  digit_value 10 c = Some k → (c = "0"%char → no_hex_mark s) →
  parseInt (String c s) = match parse_digits 10 s (Some k) with
                          | Some n => binary64 (Q2Qc (inject_Z (1 * n)))
                          | None => NaN
                          end.
Proof.
  intros Hc Hs.
  destruct c as [[] [] [] [] [] [] [] []]; try discriminate Hc;
    vm_compute in Hc; simplify_eq; try reflexivity.
  (* the digit 0: the next character decides the radix *)
  destruct s as [|c' s']; [reflexivity|].
  destruct (Hs eq_refl) as [Hx HX].
  destruct c' as [[] [] [] [] [] [] [] []]; try reflexivity; done.
Qed.

Lemma string_of_uint_no_hex_mark (d : Decimal.uint) (rest : string) :
  (d = Decimal.Nil → no_hex_mark rest) →
  no_hex_mark (NilEmpty.string_of_uint d +:+ rest).
Proof.
  intros Hrest. destruct d; try (split; discriminate). by apply Hrest.
Qed.

Lemma parseInt_numeral (d : Decimal.uint) (rest : string) :
  d ≠ Decimal.Nil → ends_numeral rest →
  (d = Decimal.D0 Decimal.Nil → no_hex_mark rest) →
  parseInt (NilEmpty.string_of_uint d +:+ rest)
  = binary64 (Q2Qc (inject_Z (uint_value d 0))).
Proof.
  intros Hd Hrest Hx.
  destruct d; [done|..];
    cbn [NilEmpty.string_of_uint uint_value];
    change (append (String ?c ?s) rest) with (String c (append s rest));
    (erewrite parseInt_decimal_start;
     [| vm_compute; reflexivity
      | intros Hc; try discriminate Hc; apply string_of_uint_no_hex_mark;
        intros ->; by apply Hx]);
    rewrite parse_digits_numeral by done; by rewrite Z.mul_1_l.
Qed.

(** X13.  [Number.parseInt] reads back what [toString] printed for a natural
    number below [2^53], whatever follows it, as long as that is no further
    digit and, after a lone "0", no "x".  (The digits of a larger number are
    read to the nearest double, which need not be the number.) *)
Theorem parseInt_reads_decimal (n : N) (rest : string) :
  (n < 2 ^ 53)%N →
  ends_numeral rest → (n = 0%N → no_hex_mark rest) →
  parseInt (number_toString (of_N n) +:+ rest) = of_N n
  ∧ parse_target (Some (number_toString (of_N n) +:+ rest)) = Some (of_N n).
Proof.
  intros Hn Hrest Hx.
  assert (H : parseInt (number_toString (of_N n) +:+ rest) = of_N n).
  { rewrite number_toString_of_N. unfold of_N.
    rewrite <- (binary64_integer (Z.of_N n)) by lia.
    rewrite <- (DecimalN.Unsigned.of_to n) at 2.
    change (N.of_uint (N.to_uint n)) with (Pos.of_uint (N.to_uint n)).
    rewrite of_uint_value.
    assert (Hz : N.to_uint n = Decimal.D0 Decimal.Nil → no_hex_mark rest).
    { intros Hd. apply Hx. rewrite <- (DecimalN.Unsigned.of_to n), Hd. reflexivity. }
    destruct (N.to_uint n) eqn:Hd;
      try (unfold NilZero.string_of_uint; apply parseInt_numeral; done).
    (* no digits at all is printed "0" *)
    apply (parseInt_numeral (Decimal.D0 Decimal.Nil) rest); [done | done | intros _].
    apply Hx. rewrite <- (DecimalN.Unsigned.of_to n), Hd. reflexivity. }
  split; [exact H|].
  unfold parse_target. rewrite H. rewrite bool_decide_eq_false_2; [done|].
  rewrite number_toString_of_N.
  destruct (N.to_uint n); discriminate.
Qed.

Lemma parseInt_reads_decimal_witness :
  parseInt "400px" = of_Z 400 ∧ parse_target (Some "400px"%string) = Some (of_Z 400).
Proof.
  exact (parseInt_reads_decimal 400 "px" ltac:(reflexivity) eq_refl ltac:(discriminate)).
Defined.

(** Beyond [2^53] the digits are read to the nearest double. *)
Lemma parseInt_rounds_large_numerals :
  parseInt "9007199254740993" = of_Z 9007199254740992.
Proof. vm_compute. reflexivity. Qed.

(** ** Downloads *)

Local Open Scope nat_scope.

(** X14.  [downloadImage] does nothing for an item without a final encode.  For one
    with a final encode, the anchor it clicks resolves to that blob and is
    named after the item's position, counted from one; afterwards the list is
    as before and every object URL is live exactly if it was before: the
    temporary URL is revoked again. *)
Theorem download_leaves_no_handle (img : CompressedImage) (index : nat) (w : World) :
  let result := downloadImage img index w in
  images result.2 = images w
  ∧ (∀ u, live u result.2 = live u w)
  ∧ match compressed img with
    | None => result = (None, w)
    | Some blob =>
        ∃ click, result.1 = Some click
                 ∧ download_href click = Some blob
                 ∧ download_name click = download_filename index
    end.
Proof.
  cbv zeta. unfold downloadImage.
  destruct (compressed img) as [blob|]; simpl;
    [|split; [reflexivity | split; [intros u; reflexivity | reflexivity]]].
  split_and!; [reflexivity| |].
  - intros u. unfold live, fetch. simpl.
    destruct (decide (u = List.length (objectURLs w))) as [-> | Hne].
    + rewrite list_lookup_insert_eq by (rewrite length_app; simpl; lia).
      by rewrite lookup_ge_None_2.
    + rewrite list_lookup_insert_ne by done.
      destruct (decide (u < List.length (objectURLs w))).
      * by rewrite lookup_app_l.
      * rewrite !lookup_ge_None_2; [done|lia|rewrite length_app; simpl; lia].
  - eexists. split; [done|]. split; [|done]. simpl. unfold fetch. simpl.
    rewrite lookup_app_r by lia. by rewrite Nat.sub_diag.
Qed.

Lemma string_length_append (s t : string) :
  String.length (s +:+ t) = String.length s + String.length t.
Proof.
  induction s as [|c s IH]; [done|].
  change (S (String.length (s +:+ t)) = S (String.length s + String.length t)).
  by rewrite IH.
Qed.

Lemma append_inj_r (t s1 s2 : string) : (t +:+ s1 = t +:+ s2)%string → s1 = s2.
Proof.
  induction t as [|c t IH]; [done|].
  change (String c (t +:+ s1) = String c (t +:+ s2) → s1 = s2).
  intros [= H]. by apply IH.
Qed.

Lemma append_inj_l (t : string) : ∀ s1 s2 : string, (s1 +:+ t = s2 +:+ t)%string → s1 = s2.
Proof.
  induction s1 as [|c1 s1 IH]; intros [|c2 s2] H; [done| | |].
  - apply (f_equal String.length) in H.
    change (String.length t = S (String.length (s2 +:+ t))) in H.
    rewrite string_length_append in H. lia.
  - apply (f_equal String.length) in H.
    change (S (String.length (s1 +:+ t)) = String.length t) in H.
    rewrite string_length_append in H. lia.
  - change (String c1 (s1 +:+ t) = String c2 (s2 +:+ t)) in H.
    injection H as -> H. f_equal. by apply IH.
Qed.

Lemma string_of_uint_inj (n m : N) :
  NilZero.string_of_uint (N.to_uint n) = NilZero.string_of_uint (N.to_uint m) → n = m.
Proof.
  intros H. apply DecimalN.Unsigned.to_uint_inj.
  assert (Hnil : ∀ k, N.to_uint k ≠ Decimal.Nil).
  { intros [|p]; [done|]. apply DecimalPos.Unsigned.to_uint_nonnil. }
  pose proof (NilZero.usu _ (Hnil n)) as Hn. pose proof (NilZero.usu _ (Hnil m)) as Hm.
  rewrite H in Hn. congruence.
Qed.

Lemma download_filename_decimal (index : nat) :
  download_filename index
  = ("compressed-" +:+ NilZero.string_of_uint (N.to_uint (N.of_nat (S index)))
       +:+ ".avif")%string.
Proof.
  unfold download_filename.
  replace (Z.of_nat index + 1)%Z with (Z.of_N (N.of_nat (S index))) by lia.
  change (of_Z (Z.of_N ?n)) with (of_N n). by rewrite number_toString_of_N.
Qed.

(** X15.  The names [downloadImage] gives the downloads of two positions of the
    list are the same only for the same position. *)
Theorem download_names_distinct (i j : nat) :
  download_filename i = download_filename j ↔ i = j.
Proof.
  split; [|by intros ->].
  rewrite !download_filename_decimal. intros H.
  apply append_inj_r, append_inj_l, string_of_uint_inj in H. lia.
Qed.

(** ** The size rows of a card *)

Local Open Scope Z_scope.

Lemma Qcopp_this (q : Qc) : this (- q)%Qc = (- this q)%Q.
Proof. unfold Qcopp, Q2Qc. simpl. by rewrite Qred_opp, canon. Qed.

Lemma Qcminus_Q (a b : Qc) : ((a - b)%Qc == this a - this b)%Q.
Proof. unfold Qcminus, Qcplus, Qcopp. simpl. rewrite !Qred_correct. reflexivity. Qed.

(** Rounding is symmetric about zero. *)
Lemma binary64_opp (q r : Qc) :
  (0 < q)%Q → binary64 q = Num r → ∃ r' : Qc, binary64 (- q) = Num r' ∧ (r' == - r)%Q.
Proof.
  intros Hq. pose proof (Qc_pos_num q Hq) as Hn.
  unfold binary64. rewrite Qcopp_this.
  change (Qnum (- this q)) with (- Qnum (this q)).
  change (Qden (- this q)) with (Qden (this q)).
  rewrite Z.abs_opp, Z.sgn_opp.
  rewrite (bool_decide_eq_false_2 (Z.abs (Qnum q) = 0)) by lia.
  cbv zeta.
  set (s := Z.max (floor_log2 (Z.abs (Qnum q)) (Z.pos (Qden q))) (-1022) - 52).
  set (m := round_half_even _ _).
  case_bool_decide as Hover.
  { by rewrite (bool_decide_eq_true_2 (0 < Qnum q)) by done. }
  intros [= <-]. eexists. split; [reflexivity|].
  simpl. rewrite !Qred_correct.
  rewrite (Z.sgn_pos (Qnum q)) by done.
  unfold Qeq, Qopp. simpl. lia.
Qed.

(** Rounding a rational between [-2^100] and [-2^-100]. *)
Lemma binary64_relative_neg (q : Qc) :
  ((1 # 2 ^ 100) <= - q)%Q → (- q <= inject_Z (2 ^ 100))%Q →
  ∃ r : Qc, binary64 q = Num r
    ∧ ((1 + half_ulp) * q <= r)%Q ∧ (r <= (1 - half_ulp) * q)%Q.
Proof.
  intros Hlo Hhi.
  destruct (binary64_relative (- q)%Qc) as (r0 & Hr0 & H1 & H2);
    [by rewrite Qcopp_this | by rewrite Qcopp_this |].
  assert (Hpos : (0 < (- q)%Qc)%Q).
  { rewrite Qcopp_this. eapply Qlt_le_trans; [|exact Hlo]. reflexivity. }
  destruct (binary64_opp (- q)%Qc r0 Hpos Hr0) as (r & Hr & Hrq).
  rewrite Qcopp_involutive in Hr. exists r. split; [done|].
  rewrite Qcopp_this in H1, H2. rewrite Hrq. unfold half_ulp in *.
  revert H1 H2. generalize (this q) (this r0). intros x y H1 H2. split; lra.
Qed.

(** [Math.round] of a double within a quarter of [n / d], taken [d] times:
    an integer nearest to [n / d]. *)
Lemma Math_round_near (x : Qc) (n d : Z) :
  0 < d →
  (inject_Z n - (1 # 4) <= x * inject_Z d)%Q →
  (x * inject_Z d <= inject_Z n + (1 # 4))%Q →
  ∃ z, Math_round (Num x) = of_Z z ∧ closest z n d.
Proof.
  intros Hd H1 H2. rewrite Math_round_Num. eexists. split; [reflexivity|].
  set (z := Qfloor (x + (1 # 2))%Q).
  pose proof (Qfloor_le (x + (1 # 2))%Q) as Hz1.
  pose proof (Qlt_floor (x + (1 # 2))%Q) as Hz2.
  fold z in Hz1, Hz2. clearbody z. rewrite inject_Z_plus in Hz2.
  change (inject_Z 1) with 1%Q in Hz2.
  pose proof (inject_Z_pos d Hd) as HD.
  assert (Ha : (0 <= (x + (1 # 2) - inject_Z z) * inject_Z d)%Q)
    by (apply Qmult_le_0_compat; lra).
  assert (Hb : (0 < (inject_Z z + 1 - (x + (1 # 2))) * inject_Z d)%Q)
    by (apply Qmult_lt_0_compat; lra).
  unfold closest.
  assert (Hlt1 : 2 * (z * d) < 2 * n + d + 1).
  { rewrite Zlt_Qlt. rewrite !inject_Z_plus, !inject_Z_mult.
    change (inject_Z 2) with 2%Q. change (inject_Z 1) with 1%Q.
    revert H1 H2 HD Ha Hb.
    generalize (inject_Z n) (inject_Z d) (inject_Z z) (this x). intros P D Z X. lra. }
  assert (Hlt2 : 2 * n < 2 * (z * d) + d + 1).
  { rewrite Zlt_Qlt. rewrite !inject_Z_plus, !inject_Z_mult.
    change (inject_Z 2) with 2%Q. change (inject_Z 1) with 1%Q.
    revert H1 H2 HD Ha Hb.
    generalize (inject_Z n) (inject_Z d) (inject_Z z) (this x). intros P D Z X. lra. }
  lia.
Qed.

Lemma size_bounds (z : Z) :
  0 < z < 2 ^ 40 → (1 <= inject_Z z)%Q ∧ (inject_Z z <= 1099511627776 # 1)%Q.
Proof.
  intros Hz. split.
  - change 1%Q with (inject_Z 1). rewrite <- Zle_Qle. lia.
  - change (1099511627776 # 1)%Q with (inject_Z (2 ^ 40)). rewrite <- Zle_Qle. lia.
Qed.

Lemma hundred_bounds :
  ((1 # 2 ^ 50) <= Qc_of_Z 100)%Q ∧ (Qc_of_Z 100 <= inject_Z (2 ^ 50))%Q.
Proof. split; unfold Qle; simpl; lia. Qed.

(** [(1 - c / o) * 100] on doubles, rounded, for sizes below [2^40]: an
    integer nearest to the exact percentage. *)
Lemma reduction_percent (c o : Z) :
  0 < c < 2 ^ 40 → 0 < o < 2 ^ 40 →
  ∃ p, Math_round (js_mul (js_sub (of_Z 1) (js_div (of_Z c) (of_Z o))) (of_Z 100)) = of_Z p
       ∧ closest p (100 * (o - c)) o.
Proof.
  intros Hc Ho.
  destruct (decide (c = o)) as [-> | Hne].
  { assert (js_div (of_Z o) (of_Z o) = of_Z 1) as ->.
    { rewrite !of_Z_eq. unfold js_div.
      assert (Qc_of_Z o ≠ 0%Qc) by (rewrite Qc_of_Z_eq_0; lia).
      rewrite bool_decide_eq_false_2 by done.
      replace (Qc_of_Z o / Qc_of_Z o)%Qc with (Qc_of_Z 1).
      - rewrite binary64_of_Z by lia. apply of_Z_eq.
      - rewrite Z2Qc_inj_1. field. done. }
    exists 0. split; [vm_compute; reflexivity | unfold closest; lia]. }
  destruct (ratio_relative c o ltac:(lia) ltac:(lia)) as (a & -> & Ha1 & Ha2 & Ha3 & Ha4).
  rewrite !of_Z_eq. unfold js_sub.
  pose proof (Qcminus_Q (Qc_of_Z 1) a) as Hd.
  rewrite Qc_of_Z_Q in Hd. change (inject_Z 1) with 1%Q in Hd.
  set (dq := (Qc_of_Z 1 - a)%Qc) in *. clearbody dq.
  destruct (size_bounds c Hc) as [HC1 HC2]. destruct (size_bounds o Ho) as [HO1 HO2].
  destruct hundred_bounds as [H100a H100b].
  assert (HN : (inject_Z (100 * (o - c)) == 100 * (inject_Z o - inject_Z c))%Q).
  { unfold Z.sub. rewrite inject_Z_mult, inject_Z_plus, inject_Z_opp. reflexivity. }
  unfold half_ulp in *. write_out_powers.
  destruct (decide (c < o)) as [Hlt | Hge].
  - (* the result is smaller than the original *)
    assert (Hgap : (inject_Z c + 1 <= inject_Z o)%Q).
    { change 1%Q with (inject_Z 1). rewrite <- inject_Z_plus, <- Zle_Qle. lia. }
    assert (HD1 : ((1 # 2199023255552) <= dq)%Q).
    { rewrite Hd. revert Ha1 Ha2 HC1 HC2 HO1 HO2 Hgap.
      generalize (inject_Z c) (inject_Z o) (this a). intros C O A Ha1 Ha2 HC1 HC2 HO1 HO2 Hgap.
      apply Qnot_lt_le. intros Hcontra.
      assert ((0 < ((1 # 2199023255552) - (1 - A)) * O)%Q)
        by (apply Qmult_lt_0_compat; lra).
      lra. }
    assert (HD2 : (dq <= 1)%Q) by (rewrite Hd; lra).
    destruct (binary64_relative dq) as (r2 & -> & Hr1 & Hr2);
      [write_out_powers; lra | write_out_powers; lra |].
    unfold half_ulp in *.
    destruct (js_mul_relative r2 (Qc_of_Z 100)) as (r3 & -> & H31 & H32);
      [done | done | write_out_powers; lra | write_out_powers; lra |].
    unfold half_ulp in *. rewrite Qc_of_Z_Q in H31, H32.
    change (inject_Z 100) with (100 # 1)%Q in H31, H32.
    apply Math_round_near; [lia | |]; rewrite HN;
      revert Ha1 Ha2 HC1 HC2 HO1 HO2 Hgap Hd Hr1 Hr2 H31 H32;
      generalize (inject_Z c) (inject_Z o) (this a) (this dq) (this r2) (this r3);
      intros C O A D R2 R3 Ha1 Ha2 HC1 HC2 HO1 HO2 Hgap Hd Hr1 Hr2 H31 H32;
      assert ((0 <= (R3 - (1 - (1 # 9007199254740992)) * (R2 * (100 # 1))) * O)%Q)
        by (apply Qmult_le_0_compat; lra);
      assert ((0 <= ((1 + (1 # 9007199254740992)) * (R2 * (100 # 1)) - R3) * O)%Q)
        by (apply Qmult_le_0_compat; lra);
      assert ((0 <= (R2 - (1 - (1 # 9007199254740992)) * D) * O)%Q)
        by (apply Qmult_le_0_compat; lra);
      assert ((0 <= ((1 + (1 # 9007199254740992)) * D - R2) * O)%Q)
        by (apply Qmult_le_0_compat; lra);
      assert ((D * O == O - A * O)%Q) by (rewrite Hd; ring);
      lra.
  - (* the result is larger than the original *)
    assert (Hgap : (inject_Z o + 1 <= inject_Z c)%Q).
    { change 1%Q with (inject_Z 1). rewrite <- inject_Z_plus, <- Zle_Qle. lia. }
    assert (HD1 : ((1 # 2199023255552) <= - dq)%Q).
    { rewrite Hd. revert Ha1 Ha2 HC1 HC2 HO1 HO2 Hgap.
      generalize (inject_Z c) (inject_Z o) (this a). intros C O A Ha1 Ha2 HC1 HC2 HO1 HO2 Hgap.
      apply Qnot_lt_le. intros Hcontra.
      assert ((0 < ((1 # 2199023255552) + (1 - A)) * O)%Q)
        by (apply Qmult_lt_0_compat; lra).
      lra. }
    assert (HD2 : (- dq <= 1125899906842624 # 1)%Q) by (rewrite Hd; lra).
    destruct (binary64_relative_neg dq) as (r2 & -> & Hr1 & Hr2);
      [write_out_powers; lra | write_out_powers; lra |].
    unfold half_ulp in *. unfold js_mul.
    pose proof (Qcmult_Q r2 (Qc_of_Z 100)) as Hm. rewrite Qc_of_Z_Q in Hm.
    change (inject_Z 100) with (100 # 1)%Q in Hm.
    destruct (binary64_relative_neg (r2 * Qc_of_Z 100)%Qc) as (r3 & -> & H31 & H32);
      [rewrite Hm; write_out_powers; lra | rewrite Hm; write_out_powers; lra |].
    unfold half_ulp in *. rewrite Hm in H31, H32.
    apply Math_round_near; [lia | |]; rewrite HN;
      revert Ha1 Ha2 HC1 HC2 HO1 HO2 Hgap Hd Hr1 Hr2 H31 H32;
      generalize (inject_Z c) (inject_Z o) (this a) (this dq) (this r2) (this r3);
      intros C O A D R2 R3 Ha1 Ha2 HC1 HC2 HO1 HO2 Hgap Hd Hr1 Hr2 H31 H32;
      assert ((0 <= (R3 - (1 + (1 # 9007199254740992)) * (R2 * (100 # 1))) * O)%Q)
        by (apply Qmult_le_0_compat; lra);
      assert ((0 <= ((1 - (1 # 9007199254740992)) * (R2 * (100 # 1)) - R3) * O)%Q)
        by (apply Qmult_le_0_compat; lra);
      assert ((0 <= (R2 - (1 + (1 # 9007199254740992)) * D) * O)%Q)
        by (apply Qmult_le_0_compat; lra);
      assert ((0 <= ((1 - (1 # 9007199254740992)) * D - R2) * O)%Q)
        by (apply Qmult_le_0_compat; lra);
      assert ((D * O == O - A * O)%Q) by (rewrite Hd; ring);
      lra.
Qed.

Lemma closest_nearest (z n d : Z) :
  0 < d → closest z n d → ¬ halfway n d → nearest z n d.
Proof.
  unfold closest, nearest, halfway. intros Hd [H1 H2] Hh. split; [|done].
  destruct (decide (- d = 2 * (z * d - n))) as [E|]; [|lia].
  exfalso. apply Hh. replace (2 * n + d) with ((z + 1) * (2 * d)) by lia.
  apply Z.mod_mul. lia.
Qed.

(** X16.  The rows a card shows for a compressed size.  For a size of 0 the
    card shows a bare 0 instead of the rows.  For a positive size the
    reduction reads NaN on an object without its original size and -Infinity
    for an original of 0 bytes.  Otherwise, for sizes below [2^40] bytes, the
    reduction is an integer nearest to the percentage saved: the percentage
    is computed in doubles, so that where it lies halfway between two
    integers either of them can be shown, and elsewhere the rounded
    percentage is.  It is at most 100; it is 100 when the result is less than
    a 200th of the original and only when it is at most a 200th; it is
    negative when the result is more than half a percent larger than the
    original and only when it is at least that much larger. *)
Theorem reduction_shown (img : CompressedImage) (c : N) :
  compressedSize img = Some c →
  if bool_decide (c = 0%N) then size_rows img = BareZero
  else
    match originalSize img with
    | None => size_rows img = Rows (formatSize c) NaN
    | Some o =>
        if bool_decide (o = 0%N) then size_rows img = Rows (formatSize c) NegInfinity
        else
          (c < 2 ^ 40)%N → (o < 2 ^ 40)%N →
          ∃ p : Z,
            size_rows img = Rows (formatSize c) (of_Z p)
            ∧ closest p (100 * (Z.of_N o - Z.of_N c)) (Z.of_N o)
            ∧ (¬ halfway (100 * (Z.of_N o - Z.of_N c)) (Z.of_N o) →
               nearest p (100 * (Z.of_N o - Z.of_N c)) (Z.of_N o))
            ∧ p ≤ 100
            ∧ (200 * Z.of_N c < Z.of_N o → p = 100)
            ∧ (p = 100 → 200 * Z.of_N c ≤ Z.of_N o)
            ∧ (201 * Z.of_N o < 200 * Z.of_N c → p < 0)
            ∧ (p < 0 → 201 * Z.of_N o ≤ 200 * Z.of_N c)
    end.
Proof.
  intros Hc. unfold size_rows. rewrite Hc.
  assert (Ht : truthy (of_N c) = negb (bool_decide (Z.of_N c = 0)))
    by apply truthy_of_Z.
  rewrite Ht. clear Ht.
  case_bool_decide as Hz.
  { subst. by rewrite bool_decide_eq_true_2. }
  rewrite (bool_decide_eq_false_2 (Z.of_N c = 0)) by lia. cbn [negb].
  destruct (originalSize img) as [o|]; cbn [size_number].
  2:{ unfold of_N. rewrite of_Z_eq. reflexivity. }
  case_bool_decide as Ho.
  { rewrite Ho. unfold of_N. change (Z.of_N 0) with 0.
    rewrite js_div_by_zero by lia. reflexivity. }
  intros Hcb Hob. unfold of_N.
  destruct (reduction_percent (Z.of_N c) (Z.of_N o)) as (p & -> & Hp).
  { split; [lia|]. change (2 ^ 40) with (Z.of_N (2 ^ 40)). lia. }
  { split; [lia|]. change (2 ^ 40) with (Z.of_N (2 ^ 40)). lia. }
  exists p. split; [reflexivity|]. split; [exact Hp|].
  split; [by apply closest_nearest; [lia | exact Hp]|].
  unfold closest in Hp.
  assert (HC : 0 < Z.of_N c) by lia. assert (HO : 0 < Z.of_N o) by lia.
  revert Hp HC HO. generalize (Z.of_N o) (Z.of_N c). intros O C Hp HC HO.
  split_and!; intros; nia.
Qed.

Lemma reduction_shown_witness :
  size_rows (with_preview 2%nat (mkBlob (Uploaded 0%nat (Dim.mk (of_Z 1) (of_Z 1))) 150000
                                   "image/avif") photo_item)
  = Rows "146.48 KB" (of_Z (-22)).
Proof.
  destruct (reduction_shown
              (with_preview 2%nat (mkBlob (Uploaded 0%nat (Dim.mk (of_Z 1) (of_Z 1))) 150000
                                     "image/avif") photo_item) 150000 eq_refl
              ltac:(reflexivity) ltac:(reflexivity))
    as (p & -> & Hp & _).
  unfold closest in Hp. change (Z.of_N (file_size photo)) with 123456 in Hp.
  change (Z.of_N 150000) with 150000 in Hp.
  assert (p = -22) as -> by lia.
  f_equal.
Defined.

(** A result of 17000 bytes for an original of 40000 saves 57.5 percent; the
    doubles give 57.49999999999999 and the card shows 57. *)
Lemma reduction_at_a_tie :
  let img := with_preview 2%nat
               (mkBlob (Uploaded 0%nat (Dim.mk (of_Z 1) (of_Z 1))) 17000 "image/avif")
               (new_image (mkFile (mkBlob (Uploaded 0%nat (Dim.mk (of_Z 1) (of_Z 1)))
                                     40000 "image/jpeg") "photo.jpg")
                  0%nat (Dim.mk (of_Z 1) (of_Z 1))) in
  size_rows img = Rows "16.6 KB" (of_Z 57)
  ∧ number_toString
      (js_mul (js_sub (of_Z 1) (js_div (of_Z 17000) (of_Z 40000))) (of_Z 100))
    = "57.49999999999999"%string
  ∧ halfway (100 * (40000 - 17000)) 40000
  ∧ round_div (100 * (40000 - 17000)) 40000 = 58.
Proof. cbv zeta. split_and!; vm_compute; reflexivity. Qed.
